(** * The analysis framework of rir: abstract states and analysis drivers

    A shallow embedding of [analysis_framework/State.h],
    [analysis_framework/framework.h] and [analysis_framework/analysis.h].

    Conventions of the embedding.
    - A C++ member function that mutates [*this] and returns a value becomes a
      function returning the updated object together with the value.
    - A pointer that may be [nullptr] becomes an [option]; [clone()] and the
      copy constructors rebuild the value they copy.
    - A failed [assert], and the dereference of a null pointer, become the
      result [Fault]. *)

From stdpp Require Import base option list gmap fin_maps strings pretty.

#[local] Set Warnings "-register-all".

(** ** Results of fallible code *)

Inductive Res (A : Type) : Type :=
  | Ok (a : A)
  | Fault.
Arguments Ok {A} a.
Arguments Fault {A}.

Global Instance Res_ret : MRet Res := λ A a, Ok a.
Global Instance Res_bind : MBind Res := λ A B k r,
  match r with
  | Ok a => k a
  | Fault => Fault
  end.

(** ** The interface demanded of abstract values

    [AVALUE] must be copy constructible and provide [mergeWith], and the
    environment uses the static members [AVALUE::top()] and
    [AVALUE::Absent()].  [mergeWith self other] is [self.mergeWith(other)]:
    the updated [self] and the flag telling whether it changed. *)

Module AValue.

Class AValue (V : Type) : Type := {
  mergeWith : V → V → V * bool;
  top : V;
  Absent : V;
}.

End AValue.

(** ** AbstractStack *)

Module AbstractStack.
Section AbstractStack.
Context {V : Type} `{!AValue.AValue V}.

(** [std::deque<AVALUE> stack_], front first. *)
Definition depth (stack_ : list V) : nat := length stack_.

Definition empty (stack_ : list V) : bool := bool_decide (length stack_ = 0).

Definition push (value : V) (stack_ : list V) : list V := value :: stack_.

(** [top()] and [pop()] on an empty deque are undefined in the source. *)
Definition top (stack_ : list V) : Res V :=
  match stack_ with
  | v :: _ => Ok v
  | [] => Fault
  end.

Definition pop (stack_ : list V) : Res (V * list V) :=
  match stack_ with
  | v :: rest => Ok (v, rest)
  | [] => Fault
  end.

(** [operator[](idx)], guarded by [assert(idx < stack_.size())]. *)
Definition index (stack_ : list V) (idx : nat) : Res V :=
  match stack_ !! idx with
  | Some v => Ok v
  | None => Fault
  end.

(** The body of the [for] loop of [mergeWith]: [n] iterations remain, [i] is
    the loop index. *)
Fixpoint mergeWith_loop (n i : nat) (stack_ other : list V) (result : bool)
  : Res (list V * bool) :=
  match n with
  | 0 => Ok (stack_, result)
  | S n' =>
      match stack_ !! i, other !! i with
      | Some a, Some b =>
          let '(a', changed) := AValue.mergeWith a b in
          mergeWith_loop n' (S i) (<[i := a']> stack_) other (changed || result)
      | _, _ => Fault
      end
  end.

Definition mergeWith (stack_ other : list V) : Res (list V * bool) :=
  if decide (depth stack_ = depth other)
  then mergeWith_loop (length stack_) 0 stack_ other false
  else Fault.

(** The loop of [pop(size_t num)]: [num] times [stack_.pop_front()], which is
    undefined on an empty deque. *)
Fixpoint pop_front_times (num : nat) (stack_ : list V) : Res (list V) :=
  match num with
  | 0 => Ok stack_
  | S num' =>
    match stack_ with
    | _ :: rest => pop_front_times num' rest
    | [] => Fault
    end
  end.

(** [pop(size_t num)], guarded by [assert(stack_.size() >= num)]. *)
Definition pop_num (num : nat) (stack_ : list V) : Res (list V) :=
  if decide (num ≤ length stack_) then pop_front_times num stack_ else Fault.

End AbstractStack.
End AbstractStack.

(** ** AbstractEnvironment *)

Module AbstractEnvironment.
Section AbstractEnvironment.
Context {K : Type} `{Countable K} {V : Type} `{!AValue.AValue V}.

(** [std::map<KEY, AVALUE> env_] and [AbstractEnvironment* parent_]. *)
Inductive t : Type :=
  mk { env_ : gmap K V; parent_ : option t }.

(** The default constructor: no binding, no parent. *)
Definition new : t := mk ∅ None.

(** The copy constructor, which [clone()] calls: the map is copied and the
    parent, when there is one, is cloned in turn. *)
Fixpoint clone (from : t) : t :=
  match from with
  | mk env parent =>
      mk env (match parent with
              | None => None
              | Some p => Some (clone p)
              end)
  end.

(** First loop of [mergeWith], over the entries of [other.env_]. The
    accumulator is the pair of [env_] and [result]. *)
Definition mergeWith_other_entry (acc : gmap K V * bool) (i : K * V)
  : gmap K V * bool :=
  let '(env, result) := acc in
  match env !! i.1 with
  | None =>
      let missing := (AValue.mergeWith i.2 AValue.Absent).1 in
      (<[i.1 := missing]> env, true)
  | Some own =>
      let '(own', changed) := AValue.mergeWith own i.2 in
      (<[i.1 := own']> env, changed || result)
  end.

(** Second loop of [mergeWith], over the entries of [env_] itself; the
    value of an entry is updated in place. *)
Definition mergeWith_own_entry (other_env : gmap K V)
    (acc : gmap K V * bool) (i : K * V) : gmap K V * bool :=
  let '(env, result) := acc in
  match other_env !! i.1 with
  | None =>
      let '(v', changed) := AValue.mergeWith i.2 AValue.Absent in
      (<[i.1 := v']> env, changed || result)
  | Some _ => (env, result)
  end.

(** The two loops, one after the other. [std::map] iterates in the order of
    its keys, [map_to_list] in the order of the map's representation; the
    loops treat every key on its own, and [merge_loops_any_order] below
    shows that their outcome is the same for every order. *)
Definition mergeWith_maps (env other_env : gmap K V) : gmap K V * bool :=
  let acc1 := foldl mergeWith_other_entry (env, false) (map_to_list other_env) in
  foldl (mergeWith_own_entry other_env) acc1 (map_to_list acc1.1).

Fixpoint mergeWith (self other : t) : t * bool :=
  match self, other with
  | mk env parent, mk other_env other_parent =>
      let '(env', result) := mergeWith_maps env other_env in
      match parent with
      | None =>
          match other_parent with
          | Some op => (mk env' (Some (clone op)), true)
          | None => (mk env' None, result)
          end
      | Some p =>
          match other_parent with
          | Some op =>
              let '(p', changed) := mergeWith p op in
              (mk env' (Some p'), changed || result)
          | None => (mk env' (Some p), result)
          end
      end
  end.

Definition empty (e : t) : bool := bool_decide (env_ e = ∅).

Definition has (e : t) (name : K) : bool := bool_decide (is_Some (env_ e !! name)).

Fixpoint find (e : t) (name : K) : V :=
  match e with
  | mk env parent =>
      match env !! name with
      | None =>
          match parent with
          | Some p => find p name
          | None => AValue.top
          end
      | Some v => v
      end
  end.

(** [operator[](KEY) const]. *)
Definition index_const (e : t) (name : K) : V :=
  match env_ e !! name with
  | None => AValue.top
  | Some v => v
  end.

(** The non-const [operator[](KEY)]: the environment after the access and
    the value the returned reference designates. The reference is obtained
    by dereferencing the iterator that [env_.find(name)] returns. *)
Definition index (e : t) (name : K) : Res (t * V) :=
  match env_ e !! name with
  | None =>
      let env' := <[name := AValue.top]> (env_ e) in
      match env' !! name with
      | Some v => Ok (mk env' (parent_ e), v)
      | None => Fault
      end
  | Some v => Ok (e, v)
  end.

Definition hasParent (e : t) : bool := bool_decide (is_Some (parent_ e)).

(** [parent()], guarded by [assert(parent_ != nullptr)]. *)
Definition parent (e : t) : Res t :=
  match parent_ e with
  | Some p => Ok p
  | None => Fault
  end.

Definition mergeAll (v : V) (e : t) : t :=
  mk ((λ x, (AValue.mergeWith x v).1) <$> env_ e) (parent_ e).

End AbstractEnvironment.
Arguments t K {_ _} V.
End AbstractEnvironment.

(** ** State: the prototype of abstract states

    [clone()] and the virtual [mergeWith]. The overrides of [mergeWith]
    start with an [assert] on the dynamic type of their argument and the
    stack's merge asserts equal depths, so merging is fallible. *)

Module State.

Class State (S : Type) : Type := {
  clone : S → S;
  mergeWith : S → S → Res (S * bool);
}.

End State.

(** ** DummyState and AbstractState *)

Module Global.

(** What [AbstractState] asks of its [GLOBAL] parameter. *)
Class Global (G : Type) : Type := {
  mergeWith : G → G → G * bool;
}.

End Global.

Module DummyState.

Inductive t : Type := dummy.

Definition mergeWith (self other : t) : t * bool := (self, false).

Global Instance DummyState_Global : Global.Global t := {|
  Global.mergeWith := mergeWith;
|}.

End DummyState.

Module AbstractState.
Section AbstractState.
Context {K : Type} `{Countable K} {V : Type} `{!AValue.AValue V}.
Context {G : Type} `{!Global.Global G}.

Record t : Type := mk {
  stack_ : list V;
  env_ : AbstractEnvironment.t K V;
  global_ : G;
}.

(** The defaulted copy constructor copies the members; the environment's
    copy constructor clones the parent chain. *)
Definition clone (a : t) : t :=
  mk (stack_ a) (AbstractEnvironment.clone (env_ a)) (global_ a).

Definition mergeWith (self other : t) : Res (t * bool) :=
  let result := false in
  let '(global', changed) := Global.mergeWith (global_ self) (global_ other) in
  let result := changed || result in
  '(stack', changed) ← AbstractStack.mergeWith (stack_ self) (stack_ other);
  let result := changed || result in
  let '(env', changed) := AbstractEnvironment.mergeWith (env_ self) (env_ other) in
  let result := changed || result in
  Ok (mk stack' env' global', result).

Global Instance AbstractState_State : State.State t := {|
  State.clone := clone;
  State.mergeWith := mergeWith;
|}.

Definition push (value : V) (a : t) : t :=
  mk (AbstractStack.push value (stack_ a)) (env_ a) (global_ a).

Definition pop (a : t) : Res (V * t) :=
  '(v, stack') ← AbstractStack.pop (stack_ a);
  Ok (v, mk stack' (env_ a) (global_ a)).

Definition top (a : t) : Res V := AbstractStack.top (stack_ a).

Definition pop_num (num : nat) (a : t) : Res t :=
  stack' ← AbstractStack.pop_num num (stack_ a);
  Ok (mk stack' (env_ a) (global_ a)).

Definition index_stack (a : t) (index : nat) : Res V :=
  AbstractStack.index (stack_ a) index.

Definition index_const (a : t) (name : K) : V :=
  AbstractEnvironment.index_const (env_ a) name.

Definition index (a : t) (name : K) : Res (t * V) :=
  '(env', v) ← AbstractEnvironment.index (env_ a) name;
  Ok (mk (stack_ a) env' (global_ a), v).

Definition mergeAllEnv (v : V) (a : t) : t :=
  mk (stack_ a) (AbstractEnvironment.mergeAll v (env_ a)) (global_ a).

End AbstractState.
Arguments t K {_ _} V G.
End AbstractState.

(** ** Dispatcher

    [doDispatch] is pure virtual and [success_] is private: the code of a
    subclass reaches the flag through [fail()], and through [dispatch],
    which is public and not virtual, so that the code may call it again on
    the dispatcher that is running it. A body of [doDispatch] is therefore a
    program over the data [D] it works on, in which a call of [fail()] and a
    call of [dispatch] are statements of their own. In [CallDispatch inner k]
    the body [inner] is the code that [doDispatch] runs for the instruction
    passed to the nested call, and [k] is the code after the call, given
    the value the call returned: a body is the code of a run that returns,
    with the code of its nested calls written out. *)

Module Dispatcher.
Section Dispatcher.
Context {Loc D : Type}.

Inductive body : Type :=
  | Return
  | CallFail (k : body)
  | Effect (f : D → D) (k : body)
  | Branch (c : D → bool) (k1 k2 : body)
  | CallDispatch (inner : body) (k : bool → body).

(** The dispatcher object: the success tag, and the data its code works
    on. *)
Record t : Type := mk { success_ : bool; data : D }.

Definition fail (self : t) : t := mk false (data self).

(** A nested call of [dispatch] resets the tag, runs [inner] and returns
    the tag to the code after the call. *)
Fixpoint exec (b : body) (self : t) : t :=
  match b with
  | Return => self
  | CallFail k => exec k (fail self)
  | Effect f k => exec k (mk (success_ self) (f (data self)))
  | Branch c k1 k2 => if c (data self) then exec k1 self else exec k2 self
  | CallDispatch inner k =>
      let self := exec inner (mk true (data self)) in
      exec (k (success_ self)) self
  end.



Context (doDispatch : Loc → body).

Definition dispatch (ins : Loc) (self : t) : t * bool :=
  let self := mk true (data self) in
  let self := exec (doDispatch ins) self in
  (self, success_ self).

(** What a dispatch does to the data, for the drivers, which ignore the
    returned flag. The flag the dispatcher object holds before the call is
    irrelevant, see [dispatch_resets]. *)
Definition effect (ins : Loc) (x : D) : D :=
  data (dispatch ins (mk true x)).1.

End Dispatcher.
Arguments body D : clear implicits.
Arguments t D : clear implicits.
End Dispatcher.

(** ** CodeEditor

    Modelled from the spec: [ir/CodeEditor.h] is not among the sources. The
    drivers use the code object through the operations below only: the
    iterators [begin()], [end()], [rbegin()], [rend()] with their [++] and
    [--], the classification predicates, [target] and the successor set
    [next]. *)

Module CodeEditor.

Record t (Loc : Type) `{Countable Loc} : Type := mk {
  begin_ : Loc;
  end_ : Loc;
  rbegin : Loc;
  rend : Loc;
  incr : Loc → Loc;
  decr : Loc → Loc;
  isLabel : Loc → bool;
  isJmp : Loc → bool;
  isUncondJmp : Loc → bool;
  isExitPoint : Loc → bool;
  isEntryPoint : Loc → bool;
  target : Loc → Loc;
  next : Loc → gset Loc;
  (** the locations [for (it = begin(); it != end(); ++it)] goes through *)
  range : list Loc;
}.
Arguments begin_ {Loc _ _} _.
Arguments end_ {Loc _ _} _.
Arguments rbegin {Loc _ _} _.
Arguments rend {Loc _ _} _.
Arguments incr {Loc _ _} _ _.
Arguments decr {Loc _ _} _ _.
Arguments isLabel {Loc _ _} _ _.
Arguments isJmp {Loc _ _} _ _.
Arguments isUncondJmp {Loc _ _} _ _.
Arguments isExitPoint {Loc _ _} _ _.
Arguments isEntryPoint {Loc _ _} _ _.
Arguments target {Loc _ _} _ _.
Arguments next {Loc _ _} _ _.
Arguments range {Loc _ _} _.

End CodeEditor.

(** ** Control of the drivers' loops

    The fixpoint loops need not terminate, so a driver is a machine that
    makes one step at a time: a step at [AtWhile] is the test and the pop of
    the outer [while (not q_.empty())], a step at [AtWalk] is one turn of the
    inner [while (true)]. *)

Inductive pc : Type := AtWhile | AtWalk.

(** How a turn of the inner loop leaves: through its end, or by [break]. *)
Inductive flow (A : Type) : Type :=
  | Continue (a : A)
  | Break (a : A).
Arguments Continue {A} a.
Arguments Break {A} a.

Inductive outcome (A : Type) : Type :=
  | Running (p : pc) (a : A)
  | Finished (a : A).
Arguments Running {A} p a.
Arguments Finished {A} a.

(** [mergePoints_[ins]]: [operator[]] of the unordered map inserts a null
    entry when there is none, and gives the entry. *)
Definition mergePoints_at {Loc S : Type} `{Countable Loc}
    (m : gmap Loc (option S)) (ins : Loc) : gmap Loc (option S) * option S :=
  match m !! ins with
  | Some stored => (m, stored)
  | None => (<[ins := None]> m, None)
  end.

(** The snapshot a table holds for a location, if any. *)
Definition snapshot {Loc S : Type} `{Countable Loc}
    (m : gmap Loc (option S)) (ins : Loc) : option S :=
  (mergePoints_at m ins).2.

(** ** ForwardAnalysis *)

Module ForwardAnalysis.
Section ForwardAnalysis.
Context {Loc : Type} `{Countable Loc} {S : Type} `{!State.State S}.
Context (code_ : CodeEditor.t Loc).
(** [dispatcher()] and [initialState()], the virtual members. *)
Context (doDispatch : Loc → Dispatcher.body S) (initialState : S).

Record t : Type := mk {
  initialState_ : option S;
  currentState_ : option S;
  finalState_ : option S;
  currentIns_ : Loc;
  mergePoints_ : gmap Loc (option S);
  q_ : list Loc;
}.

Definition set_currentState (cur : option S) (a : t) : t :=
  mk (initialState_ a) cur (finalState_ a) (currentIns_ a) (mergePoints_ a) (q_ a).
Definition set_finalState (fin : option S) (a : t) : t :=
  mk (initialState_ a) (currentState_ a) fin (currentIns_ a) (mergePoints_ a) (q_ a).
Definition set_currentIns (ins : Loc) (a : t) : t :=
  mk (initialState_ a) (currentState_ a) (finalState_ a) ins (mergePoints_ a) (q_ a).
Definition set_mergePoints (m : gmap Loc (option S)) (a : t) : t :=
  mk (initialState_ a) (currentState_ a) (finalState_ a) (currentIns_ a) m (q_ a).
Definition set_q (q : list Loc) (a : t) : t :=
  mk (initialState_ a) (currentState_ a) (finalState_ a) (currentIns_ a) (mergePoints_ a) q.

(** [d.dispatch(currentIns_)]: the code dispatched to works on [current()],
    which dereferences [currentState_]. *)
Definition dispatch_current (a : t) : Res t :=
  match currentState_ a with
  | Some cur =>
      Ok (set_currentState (Some (Dispatcher.effect doDispatch (currentIns_ a) cur)) a)
  | None => Fault
  end.

Definition shouldJump (label : Loc) (a : t) : Res (bool * t) :=
  let '(m, stored) := mergePoints_at (mergePoints_ a) label in
  match stored with
  | None =>
      match currentState_ a with
      | Some cur =>
          Ok (true, set_mergePoints (<[label := Some (State.clone cur)]> m) a)
      | None => Fault
      end
  | Some st =>
      match currentState_ a with
      | Some cur =>
          '(st', changed) ← State.mergeWith st cur;
          Ok (changed, set_mergePoints (<[label := Some st']> m) a)
      | None => Fault
      end
  end.

(** The prologue of [doAnalyze], up to the outer loop. *)
Definition doAnalyze_enter (a : t) : t :=
  mk (Some initialState) (Some (State.clone initialState)) (finalState_ a)
     (currentIns_ a) (mergePoints_ a) (CodeEditor.begin_ code_ :: q_ a).

(** [if (code_->isLabel(currentIns_)) { ... }] *)
Definition atLabel (a : t) : Res (flow t) :=
  if CodeEditor.isLabel code_ (currentIns_ a) then
    let '(m, stored) := mergePoints_at (mergePoints_ a) (currentIns_ a) in
    match stored with
    | None =>
        match currentState_ a with
        | Some cur =>
            Ok (Continue
                  (set_mergePoints (<[currentIns_ a := Some (State.clone cur)]> m) a))
        | None => Fault
        end
    | Some st =>
        match currentState_ a with
        | None =>
            Ok (Continue (set_currentState (Some (State.clone st)) (set_mergePoints m a)))
        | Some cur =>
            '(st', changed) ← State.mergeWith st cur;
            let a := set_mergePoints (<[currentIns_ a := Some st']> m) a in
            if changed : bool
            then Ok (Continue (set_currentState (Some (State.clone st')) a))
            else Ok (Break (set_currentState None a))
        end
    end
  else Ok (Continue a).

(** [if (code_->isJmp(currentIns_)) { ... } else if
    (code_->isExitPoint(currentIns_)) { ... }] *)
Definition afterDispatch (a : t) : Res (flow t) :=
  if CodeEditor.isJmp code_ (currentIns_ a) then
    let l := CodeEditor.target code_ (currentIns_ a) in
    '(jump, a) ← shouldJump l a;
    let a := if jump : bool then set_q (l :: q_ a) a else a in
    if CodeEditor.isUncondJmp code_ (currentIns_ a)
    then Ok (Break (set_currentState None a))
    else Ok (Continue a)
  else if CodeEditor.isExitPoint code_ (currentIns_ a) then
    match finalState_ a with
    | None =>
        Ok (Break (set_currentState None (set_finalState (currentState_ a) a)))
    | Some fin =>
        match currentState_ a with
        | Some cur =>
            '(fin', changed) ← State.mergeWith fin cur;
            Ok (Break (set_currentState None (set_finalState (Some fin') a)))
        | None => Fault
        end
    end
  else Ok (Continue a).

(** One turn of [while (true)]. *)
Definition walk (a : t) : Res (flow t) :=
  f ← atLabel a;
  match f with
  | Break a => Ok (Break a)
  | Continue a =>
      a ← dispatch_current a;
      f ← afterDispatch a;
      match f with
      | Break a => Ok (Break a)
      | Continue a =>
          Ok (Continue (set_currentIns (CodeEditor.incr code_ (currentIns_ a)) a))
      end
  end.

Definition step (p : pc) (a : t) : Res (outcome t) :=
  match p with
  | AtWhile =>
      match q_ a with
      | [] => Ok (Finished a)
      | front :: q => Ok (Running AtWalk (set_q q (set_currentIns front a)))
      end
  | AtWalk =>
      f ← walk a;
      match f with
      | Continue a => Ok (Running AtWalk a)
      | Break a => Ok (Running AtWhile a)
      end
  end.

(** [n] steps of the loops of [doAnalyze]. *)
Fixpoint steps (n : nat) (p : pc) (a : t) : Res (outcome t) :=
  match n with
  | 0 => Ok (Running p a)
  | Datatypes.S n =>
      o ← step p a;
      match o with
      | Running p a => steps n p a
      | Finished a => Ok (Finished a)
      end
  end.

Definition doAnalyze (fuel : nat) (a : t) : Res (outcome t) :=
  steps fuel AtWhile (doAnalyze_enter a).

End ForwardAnalysis.
Arguments t Loc {_ _} S.
End ForwardAnalysis.

(** ** BackwardAnalysis *)

Module BackwardAnalysis.
Section BackwardAnalysis.
Context {Loc : Type} `{Countable Loc} {S : Type} `{!State.State S}.
Context (code_ : CodeEditor.t Loc).
Context (doDispatch : Loc → Dispatcher.body S) (initialState : S).

Record t : Type := mk {
  initialState_ : option S;
  currentState_ : option S;
  finalState_ : option S;
  currentIns_ : Loc;
  mergePoints_ : gmap Loc (option S);
  jumpOrigins_ : gmap Loc (list Loc);
  q_ : list Loc;
}.

Definition set_initialState (ini : option S) (a : t) : t :=
  mk ini (currentState_ a) (finalState_ a) (currentIns_ a) (mergePoints_ a)
     (jumpOrigins_ a) (q_ a).
Definition set_currentState (cur : option S) (a : t) : t :=
  mk (initialState_ a) cur (finalState_ a) (currentIns_ a) (mergePoints_ a)
     (jumpOrigins_ a) (q_ a).
Definition set_finalState (fin : option S) (a : t) : t :=
  mk (initialState_ a) (currentState_ a) fin (currentIns_ a) (mergePoints_ a)
     (jumpOrigins_ a) (q_ a).
Definition set_currentIns (ins : Loc) (a : t) : t :=
  mk (initialState_ a) (currentState_ a) (finalState_ a) ins (mergePoints_ a)
     (jumpOrigins_ a) (q_ a).
Definition set_mergePoints (m : gmap Loc (option S)) (a : t) : t :=
  mk (initialState_ a) (currentState_ a) (finalState_ a) (currentIns_ a) m
     (jumpOrigins_ a) (q_ a).
Definition set_jumpOrigins (j : gmap Loc (list Loc)) (a : t) : t :=
  mk (initialState_ a) (currentState_ a) (finalState_ a) (currentIns_ a)
     (mergePoints_ a) j (q_ a).
Definition set_q (q : list Loc) (a : t) : t :=
  mk (initialState_ a) (currentState_ a) (finalState_ a) (currentIns_ a)
     (mergePoints_ a) (jumpOrigins_ a) q.

Definition dispatch_current (a : t) : Res t :=
  match currentState_ a with
  | Some cur =>
      Ok (set_currentState (Some (Dispatcher.effect doDispatch (currentIns_ a) cur)) a)
  | None => Fault
  end.

Definition isMergePoint (ins : Loc) : bool := CodeEditor.isJmp code_ ins.

Definition shouldFollowJumpFrom (ins : Loc) (a : t) : Res (bool * t) :=
  let '(m, stored) := mergePoints_at (mergePoints_ a) ins in
  match stored with
  | None =>
      match currentState_ a with
      | Some cur =>
          Ok (true, set_mergePoints (<[ins := Some (State.clone cur)]> m) a)
      | None => Fault
      end
  | Some st =>
      match currentState_ a with
      | Some cur =>
          '(st', changed) ← State.mergeWith st cur;
          Ok (changed, set_mergePoints (<[ins := Some st']> m) a)
      | None => Fault
      end
  end.

(** [jumpOrigins_[target]]: [operator[]] inserts an empty vector when the
    target has none. *)
Definition jumpOrigins_at (j : gmap Loc (list Loc)) (target : Loc)
  : gmap Loc (list Loc) * list Loc :=
  match j !! target with
  | Some origins => (j, origins)
  | None => (<[target := []]> j, [])
  end.

(** One turn of the first loop of [doAnalyze]. *)
Definition collect (a : t) (it : Loc) : t :=
  let a :=
    if CodeEditor.isJmp code_ it then
      let '(j, origins) := jumpOrigins_at (jumpOrigins_ a) (CodeEditor.target code_ it) in
      set_jumpOrigins (<[CodeEditor.target code_ it := origins ++ [it]]> j) a
    else a in
  if CodeEditor.isExitPoint code_ it then set_q (it :: q_ a) a else a.

(** The prologue of [doAnalyze], up to the outer loop. *)
Definition doAnalyze_enter (a : t) : t :=
  set_initialState (Some initialState) (foldl collect a (CodeEditor.range code_)).

(** [if (code_->isExitPoint(currentIns_)) { ... } else if
    (isMergePoint(currentIns_)) { ... }] *)
Definition atExitOrMergePoint (a : t) : Res (flow t) :=
  if CodeEditor.isExitPoint code_ (currentIns_ a) then
    match currentState_ a with
    | Some _ => Fault
    | None =>
        match initialState_ a with
        | Some ini => Ok (Continue (set_currentState (Some (State.clone ini)) a))
        | None => Fault
        end
    end
  else if isMergePoint (currentIns_ a) then
    let '(m, stored) := mergePoints_at (mergePoints_ a) (currentIns_ a) in
    match stored with
    | None =>
        match currentState_ a with
        | Some cur =>
            Ok (Continue
                  (set_mergePoints (<[currentIns_ a := Some (State.clone cur)]> m) a))
        | None => Fault
        end
    | Some st =>
        match currentState_ a with
        | None =>
            Ok (Continue (set_currentState (Some (State.clone st)) (set_mergePoints m a)))
        | Some cur =>
            '(st', changed) ← State.mergeWith st cur;
            let a := set_mergePoints (<[currentIns_ a := Some st']> m) a in
            if changed : bool
            then Ok (Continue (set_currentState (Some (State.clone st')) a))
            else Ok (Break (set_currentState None a))
        end
    end
  else Ok (Continue a).

(** [for (auto origin : jumpOrigins_[currentIns_]) if
    (shouldFollowJumpFrom(origin)) q_.push_front(origin);] *)
Fixpoint followOrigins (origins : list Loc) (a : t) : Res t :=
  match origins with
  | [] => Ok a
  | origin :: rest =>
      '(follow, a) ← shouldFollowJumpFrom origin a;
      followOrigins rest (if follow : bool then set_q (origin :: q_ a) a else a)
  end.

(** [if (code_->isLabel(currentIns_)) { ... }] *)
Definition atLabel (a : t) : Res (flow t) :=
  if CodeEditor.isLabel code_ (currentIns_ a) then
    let '(j, origins) := jumpOrigins_at (jumpOrigins_ a) (currentIns_ a) in
    a ← followOrigins origins (set_jumpOrigins j a);
    let previous := CodeEditor.decr code_ (currentIns_ a) in
    if CodeEditor.isExitPoint code_ previous
       || bool_decide (currentIns_ a ∉ CodeEditor.next code_ previous)
    then Ok (Break (set_currentState None a))
    else Ok (Continue a)
  else Ok (Continue a).

(** [if (code_->isEntryPoint(currentIns_)) { ... }] and what follows it. *)
Definition afterDispatch (a : t) : Res (flow t) :=
  if CodeEditor.isEntryPoint code_ (currentIns_ a) then
    match finalState_ a with
    | None =>
        Ok (Break (set_currentState None (set_finalState (currentState_ a) a)))
    | Some fin =>
        match currentState_ a with
        | Some cur =>
            '(fin', changed) ← State.mergeWith fin cur;
            Ok (Break (set_currentState None (set_finalState (Some fin') a)))
        | None => Fault
        end
    end
  else atLabel a.

(** One turn of [while (true)]. *)
Definition walk (a : t) : Res (flow t) :=
  f ← atExitOrMergePoint a;
  match f with
  | Break a => Ok (Break a)
  | Continue a =>
      a ← dispatch_current a;
      f ← afterDispatch a;
      match f with
      | Break a => Ok (Break a)
      | Continue a =>
          Ok (Continue (set_currentIns (CodeEditor.decr code_ (currentIns_ a)) a))
      end
  end.

Definition step (p : pc) (a : t) : Res (outcome t) :=
  match p with
  | AtWhile =>
      match q_ a with
      | [] => Ok (Finished a)
      | front :: q => Ok (Running AtWalk (set_q q (set_currentIns front a)))
      end
  | AtWalk =>
      f ← walk a;
      match f with
      | Continue a => Ok (Running AtWalk a)
      | Break a => Ok (Running AtWhile a)
      end
  end.

Fixpoint steps (n : nat) (p : pc) (a : t) : Res (outcome t) :=
  match n with
  | 0 => Ok (Running p a)
  | Datatypes.S n =>
      o ← step p a;
      match o with
      | Running p a => steps n p a
      | Finished a => Ok (Finished a)
      end
  end.

Definition doAnalyze (fuel : nat) (a : t) : Res (outcome t) :=
  steps fuel AtWhile (doAnalyze_enter a).

End BackwardAnalysis.
Arguments t Loc {_ _} S.
End BackwardAnalysis.

(** ** BackwardAnalysisIns: the retrieval cache of the backward analysis *)

Module BackwardAnalysisIns.
Section BackwardAnalysisIns.
Context {Loc : Type} `{Countable Loc} {S : Type} `{!State.State S}.
Context (code_ : CodeEditor.t Loc).
Context (doDispatch : Loc → Dispatcher.body S).

Import BackwardAnalysis.

Definition initializeCache (a : t Loc S) : Res (t Loc S) :=
  match initialState_ a with
  | Some ini =>
      let a := set_currentState (Some (State.clone ini)) a in
      let a := set_currentIns (CodeEditor.rbegin code_) a in
      dispatch_current doDispatch a
  | None => Fault
  end.

Definition advance (a : t Loc S) : Res (t Loc S) :=
  let a := set_currentIns (CodeEditor.decr code_ (currentIns_ a)) a in
  a ←
    (if CodeEditor.isExitPoint code_ (currentIns_ a) then
       match initialState_ a with
       | Some ini => Ok (set_currentState (Some (State.clone ini)) a)
       | None => Fault
       end
     else if isMergePoint code_ (currentIns_ a) then
       let '(m, fixpoint) := mergePoints_at (mergePoints_ a) (currentIns_ a) in
       let a := set_mergePoints m a in
       match fixpoint with
       | Some fp => Ok (set_currentState (Some (State.clone fp)) a)
       | None => Ok a
       end
     else Ok a);
  dispatch_current doDispatch a.

(** A loop of [seek], the two loops being the same: it ends at the
    instruction looked for ([inl]) or at [rend()] ([inr]); [None] when it did
    not end within [fuel] turns. *)
Fixpoint seek_back (fuel : nat) (ins : Loc) (a : t Loc S)
  : Res (option (t Loc S + t Loc S)) :=
  match fuel with
  | 0 => Ok None
  | Datatypes.S fuel =>
    if decide (currentIns_ a = CodeEditor.rend code_) then Ok (Some (inr a))
    else if decide (currentIns_ a = ins) then Ok (Some (inl a))
    else a ← advance a; seek_back fuel ins a
  end.

(** [seek(ins)]; the [assert(false)] after the second loop is a [Fault]. *)
Definition seek (fuel : nat) (ins : Loc) (a : t Loc S) : Res (option (t Loc S)) :=
  r ← seek_back fuel ins a;
  match r with
  | Some (inl a) => Ok (Some a)
  | None => Ok None
  | Some (inr a) =>
    a ← initializeCache a;
    r ← seek_back fuel ins a;
    match r with
    | Some (inl a) => Ok (Some a)
    | None => Ok None
    | Some (inr _) => Fault
    end
  end.

(** [operator[](CodeEditor::Iterator ins)]. *)
Definition at_ (fuel : nat) (ins : Loc) (a : t Loc S) : Res (option (t Loc S * S)) :=
  r ← (if decide (ins ≠ currentIns_ a) then seek fuel ins a else Ok (Some a));
  match r with
  | None => Ok None
  | Some a =>
    match currentState_ a with
    | Some cur => Ok (Some (a, cur))
    | None => Fault
    end
  end.

End BackwardAnalysisIns.
End BackwardAnalysisIns.

(** ** ForwardAnalysisIns: the retrieval cache of the forward analysis *)

(** How a loop of [seek] ends: at the instruction looked for, past the code
    (or at an exit point), or not within the turns granted. *)
Inductive search (A : Type) : Type :=
  | Found (a : A)
  | Missed (a : A)
  | OutOfFuel.
Arguments Found {A} a.
Arguments Missed {A} a.
Arguments OutOfFuel {A}.

Module ForwardAnalysisIns.
Section ForwardAnalysisIns.
Context {Loc : Type} `{Countable Loc} {S : Type} `{!State.State S}.
Context (code_ : CodeEditor.t Loc).
Context (doDispatch : Loc → Dispatcher.body S).

Import ForwardAnalysis.

Definition initializeCache (a : t Loc S) : Res (t Loc S) :=
  match initialState_ a with
  | Some ini =>
    let a := set_currentState (Some (State.clone ini)) a in
    Ok (set_currentIns (CodeEditor.begin_ code_) a)
  | None => Fault
  end.

Definition advance (a : t Loc S) : Res (t Loc S) :=
  a ← dispatch_current doDispatch a;
  let a := set_currentIns (CodeEditor.incr code_ (currentIns_ a)) a in
  if CodeEditor.isLabel code_ (currentIns_ a) then
  let '(m, fixpoint) := mergePoints_at (mergePoints_ a) (currentIns_ a) in
  let a := set_mergePoints m a in
  match fixpoint with
  | Some fp => Ok (set_currentState (Some (State.clone fp)) a)
  | None => Ok a
  end
  else Ok a.

(** The first loop of [seek]: linear replay from the cache, up to the next
    exit point. *)
Fixpoint seek_on (fuel : nat) (ins : Loc) (a : t Loc S) : Res (search (t Loc S)) :=
  match fuel with
  | 0 => Ok OutOfFuel
  | Datatypes.S fuel =>
    if decide (currentIns_ a = CodeEditor.end_ code_) then Ok (Missed a)
    else if decide (currentIns_ a = ins) then Ok (Found a)
    else if CodeEditor.isExitPoint code_ (currentIns_ a) then Ok (Missed a)
    else a ← advance a; seek_on fuel ins a
  end.

(** The second loop of [seek], after the cache has been reset. *)
Fixpoint seek_over (fuel : nat) (ins : Loc) (a : t Loc S) : Res (search (t Loc S)) :=
  match fuel with
  | 0 => Ok OutOfFuel
  | Datatypes.S fuel =>
    if decide (currentIns_ a = CodeEditor.end_ code_) then Ok (Missed a)
    else if decide (currentIns_ a = ins) then Ok (Found a)
    else a ← advance a; seek_over fuel ins a
  end.

(** [seek(ins)]: [None] when a loop did not end within [fuel] turns; the
    [assert(false)] after the second loop is a [Fault]. *)
Definition seek (fuel : nat) (ins : Loc) (a : t Loc S) : Res (option (t Loc S)) :=
  r ← seek_on fuel ins a;
  match r with
  | Found a => Ok (Some a)
  | OutOfFuel => Ok None
  | Missed a =>
    a ← initializeCache a;
    r ← seek_over fuel ins a;
    match r with
    | Found a => Ok (Some a)
    | OutOfFuel => Ok None
    | Missed _ => Fault
    end
  end.

(** [operator[](CodeEditor::Iterator ins)]: the analysis after the query and
    the state [current()] refers to. *)
Definition at_ (fuel : nat) (ins : Loc) (a : t Loc S) : Res (option (t Loc S * S)) :=
  r ← (if decide (ins ≠ currentIns_ a) then seek fuel ins a else Ok (Some a));
  match r with
  | None => Ok None
  | Some a =>
    match currentState_ a with
    | Some cur => Ok (Some (a, cur))
    | None => Fault
    end
  end.

End ForwardAnalysisIns.
End ForwardAnalysisIns.

(** ** Analysis: the binding of an analysis to its code

    [Analysis::analyze], [good] and [invalidate] with the override of
    [ForwardAnalysis]; the object is the pointer [code_] together with the
    members of the driver. *)

Module Analysis.
Section Analysis.
Context {Loc : Type} `{Countable Loc} {S : Type} `{!State.State S}.
Context (doDispatch : Loc → Dispatcher.body S) (initialState : S).

Record t : Type := mk {
  code_ : option (CodeEditor.t Loc);
  driver : ForwardAnalysis.t Loc S;
  }.

Definition good (x : t) : bool := bool_decide (is_Some (code_ x)).

(** [ForwardAnalysis::invalidate]: [Analysis::invalidate()], then the states
    are deleted and the table of merge points cleared. *)
Definition invalidate (x : t) : t :=
  mk None
   (ForwardAnalysis.mk None None None
      (ForwardAnalysis.currentIns_ (driver x)) ∅ (ForwardAnalysis.q_ (driver x))).

(** [analyze(code)], with the turns granted to the loops of [doAnalyze]. *)
Definition analyze (code : CodeEditor.t Loc) (fuel : nat) (x : t)
  : Res (outcome t) :=
  let x := if good x then invalidate x else x in
  let x := mk (Some code) (driver x) in
  o ← ForwardAnalysis.doAnalyze code doDispatch initialState fuel (driver x);
  match o with
  | Running p a => Ok (Running p (mk (code_ x) a))
  | Finished a => Ok (Finished (mk (code_ x) a))
  end.

End Analysis.
Arguments t Loc {_ _} S.
End Analysis.

(** ** isSafeBuiltin *)

Definition isSafeBuiltin (i : Z) : bool :=
  if ((362 <=? i)%Z && (i <? 376)%Z) || ((379 <=? i)%Z && (i <=? 389)%Z)
  then true
  else
  match i with
  | 62%Z | 88%Z | 91%Z | 107%Z | 397%Z | 555%Z => true
  | _ => false
  end.

(** ** The console and the test harness

    An output stream is the text written to it, and a function that writes
    gives the text it writes. [unsigned] is a number below [2^32] and
    [size_t] one below [2^64]; [pretty] prints a number in decimal, as
    [operator<<] does. *)

Module Console.

Inductive color : Type :=
  | black | darkRed | darkGreen | darkYellow | darkBlue | darkMagenta
  | darkCyan | gray | darkGray | red | green | yellow | blue | magenta
  | cyan | white.

Definition CSI : string := String (Ascii.ascii_of_nat 27) "[".

Definition unsigned_add (x y : N) : N := ((x + y) mod 2 ^ 32)%N.

Definition colorCode (c : color) (val : N) : Res string :=
  let val :=
    match c with
    | black | darkGray => unsigned_add val 0
    | red | darkRed => unsigned_add val 1
    | green | darkGreen => unsigned_add val 2
    | yellow | darkYellow => unsigned_add val 3
    | blue | darkBlue => unsigned_add val 4
    | magenta | darkMagenta => unsigned_add val 5
    | cyan | darkCyan => unsigned_add val 6
    | white | gray => unsigned_add val 7
    end in
  match c with
  | black | darkRed | darkGreen | darkYellow | darkBlue | darkMagenta
  | darkCyan | gray =>
      if decide (40 ≤ val)%N
      then Ok (CSI +:+ pretty val +:+ "m")
      else Ok (CSI +:+ "0;" +:+ pretty val +:+ "m")
  | _ =>
      if decide (val < 40)%N
      then Ok (CSI +:+ "1;" +:+ pretty val +:+ "m")
      else Fault
  end.

Definition reset : string := CSI +:+ "0m".

Definition fg (c : color) : Res string := colorCode c 30.

Definition bg (c : color) : Res string := colorCode c 40.

(** [operator<<] for a stream and a [color]. *)
Definition put_color (c : color) : Res string := colorCode c 30.

End Console.

Module Tests.

(** What [execute()] of a test does when it does not return: it throws a
    [TestError], another [std::exception], or something else. *)
Inductive thrown : Type :=
  | TestError (file : string) (line : N) (message : string)
  | StdException (what : string)
  | Other.

Record Test : Type := mk {
  suite : string;
  name : string;
  execute : option thrown;
}.

Definition endl : string := String (Ascii.ascii_of_nat 10) EmptyString.

(** [operator<<] for a stream and a [TestError]. *)
Definition put_TestError (file : string) (line : N) (message : string) : string :=
  file +:+ "(" +:+ pretty line +:+ "):" +:+ endl +:+ "    " +:+ message.

Definition EXIT_SUCCESS : Z := 0.
Definition EXIT_FAILURE : Z := 1.

(** [Test::RegisterTestClass]: the test is appended to the registered
    tests. *)
Definition RegisterTestClass (test : Test) (tests : list Test) : list Test :=
  tests ++ [test].

(** One turn of the loop of [RunAll], on the text written so far and the
    count of successful tests. *)
Definition run_one (acc : Res (string * N)) (t : Test) : Res (string * N) :=
  '(out, successful) ← acc;
  let out := out +:+ suite t +:+ "." +:+ name t +:+ "..." in
  match execute t with
  | None =>
      green ← Console.put_color Console.green;
      Ok (out +:+ green +:+ " :)" +:+ Console.reset +:+ endl,
          Console.unsigned_add successful 1)
  | Some e =>
      red ← Console.put_color Console.red;
      let out := out +:+ red +:+ " FAILZ" +:+ Console.reset +:+ endl in
      let report :=
        match e with
        | TestError file line message => put_TestError file line message
        | StdException what => what
        | Other => "Undefined error"
        end in
      Ok (out +:+ "    " +:+ report +:+ endl, successful)
  end.

Definition RunAll (tests : list Test) : Res (string * Z) :=
  '(out, successful) ←
    foldl run_one (Ok ("I RUN TESTZ NOW, OK?" +:+ endl, 0%N)) tests;
  let total := N.of_nat (length tests) in
  let out := out +:+ endl in
  let out := out +:+ "Total tests:    " +:+ pretty total +:+ endl in
  let out := out +:+ "Passed:         " +:+ pretty successful +:+ endl in
  let out :=
    out +:+ "Failed:         "
        +:+ pretty ((Z.of_N total - Z.of_N successful) `mod` 2 ^ 64)%Z +:+ endl in
  if decide (successful ≠ total) then
    red ← Console.put_color Console.red;
    Ok (out +:+ red +:+ "SRSLY?!" +:+ Console.reset +:+ endl, EXIT_FAILURE)
  else
    green ← Console.put_color Console.green;
    Ok (out +:+ green +:+ "AWSHUM!" +:+ Console.reset +:+ endl, EXIT_SUCCESS).

End Tests.

(** ** Instances used to run the definitions

    A flat domain of constants for the abstract values, a counter for the
    drivers' states, and straight-line code objects over integer
    locations. *)

Module Flat.

Inductive t : Type := Bottom | Const (n : nat) | NotBound | Any.

Global Instance t_eq_dec : EqDecision t.
Proof. solve_decision. Defined.

Definition join (x y : t) : t :=
  match x, y with
  | Bottom, _ => y
  | _, Bottom => x
  | _, _ => if decide (x = y) then x else Any
  end.

Definition mergeWith (self other : t) : t * bool :=
  (join self other, bool_decide (join self other ≠ self)).

Global Instance Flat_AValue : AValue.AValue t := {|
  AValue.mergeWith := mergeWith;
  AValue.top := Any;
  AValue.Absent := NotBound;
|}.

End Flat.

Module Counter.

(** A state that counts: merging keeps the larger count. *)
Definition mergeWith (self other : nat) : Res (nat * bool) :=
  Ok (self `max` other, bool_decide (self < other)).

Global Instance Counter_State : State.State nat := {|
  State.clone := λ s, s;
  State.mergeWith := mergeWith;
|}.

(** The dispatcher that adds one to the count at every instruction. *)
Definition tick (ins : Z) : Dispatcher.body nat := Dispatcher.Effect S Dispatcher.Return.

End Counter.

Module Listing.

Inductive insn : Type :=
  | nop
  | label
  | br (target : Z)
  | brtrue (target : Z)
  | ret.

Definition at_ (prog : list insn) (ins : Z) : option insn :=
  if decide (0 ≤ ins)%Z then prog !! Z.to_nat ins else None.

Definition successors (prog : list insn) (ins : Z) : gset Z :=
  match at_ prog ins with
  | Some (br l) => {[ l ]}
  | Some (brtrue l) => {[ l; Z.succ ins ]}
  | Some ret => ∅
  | Some _ => {[ Z.succ ins ]}
  | None => ∅
  end.

Definition editor (prog : list insn) : CodeEditor.t Z := {|
  CodeEditor.begin_ := 0%Z;
  CodeEditor.end_ := Z.of_nat (length prog);
  CodeEditor.rbegin := Z.pred (Z.of_nat (length prog));
  CodeEditor.rend := (-1)%Z;
  CodeEditor.incr := Z.succ;
  CodeEditor.decr := Z.pred;
  CodeEditor.isLabel := λ ins,
    match at_ prog ins with Some label => true | _ => false end;
  CodeEditor.isJmp := λ ins,
    match at_ prog ins with Some (br _ | brtrue _) => true | _ => false end;
  CodeEditor.isUncondJmp := λ ins,
    match at_ prog ins with Some (br _) => true | _ => false end;
  CodeEditor.isExitPoint := λ ins,
    match at_ prog ins with Some ret => true | _ => false end;
  CodeEditor.isEntryPoint := λ ins, bool_decide (ins = 0%Z);
  CodeEditor.target := λ ins,
    match at_ prog ins with Some (br l | brtrue l) => l | _ => ins end;
  CodeEditor.next := successors prog;
  CodeEditor.range := Z.of_nat <$> seq 0 (length prog);
|}.

(** A branch over a return:
    [0: brtrue 2;  1: ret;  2: label;  3: ret]. *)
Definition branch : list insn := [brtrue 2; ret; label; ret].

(** A label reached both by fall through and by a jump:
    [0: nop;  1: brtrue 3;  2: nop;  3: label;  4: ret]. *)
Definition skip : list insn := [nop; brtrue 3; nop; label; ret].

(** A label that the instruction before it does not lead to:
    [0: brtrue 3;  1: nop;  2: ret;  3: label;  4: ret]. *)
Definition tail : list insn := [brtrue 3; nop; ret; label; ret].

(** Straight-line code: [0: nop;  1: nop;  2: ret]. *)
Definition line : list insn := [nop; nop; ret].

End Listing.

Module Scopes.

(** Two environments over keys [1], [2], [3] and [9]; the second one has a
    parent. *)
Definition left_ : AbstractEnvironment.t nat Flat.t :=
  AbstractEnvironment.mk {[ 1 := Flat.Const 1; 2 := Flat.Const 5 ]} None.

Definition outer : AbstractEnvironment.t nat Flat.t :=
  AbstractEnvironment.mk {[ 9 := Flat.Const 4 ]} None.

Definition right_ : AbstractEnvironment.t nat Flat.t :=
  AbstractEnvironment.mk {[ 2 := Flat.Const 6; 3 := Flat.Const 7 ]} (Some outer).

(** A state with [right_] as its environment and no global part. *)
Definition state : AbstractState.t nat Flat.t DummyState.t :=
  AbstractState.mk [Flat.Const 1; Flat.Any] right_ DummyState.dummy.

(** A state whose stack is one value shorter. *)
Definition shallow : AbstractState.t nat Flat.t DummyState.t :=
  AbstractState.mk [Flat.Any] left_ DummyState.dummy.

End Scopes.

Module Fresh.

(** Analyses as their constructors leave them: no state, no snapshot, an
    empty queue. *)
Definition forward : ForwardAnalysis.t Z nat :=
  ForwardAnalysis.mk None None None 0%Z ∅ [].

Definition backward : BackwardAnalysis.t Z nat :=
  BackwardAnalysis.mk None None None 0%Z ∅ ∅ [].

End Fresh.

(** ** The merges as the specification words them

    The definitions of this part follow the description of the merges, not
    the code; the properties below compare them with the code. *)

Module Described.
Section Described.
Context {K : Type} `{Countable K} {V : Type} `{!AValue.AValue V}.

(** The element-wise merge of two stacks and the flags its merges
    report. *)
Definition merged (A B : list V) : list V :=
  zip_with (λ a b, (AValue.mergeWith a b).1) A B.

Definition reports (A B : list V) : list bool :=
  zip_with (λ a b, (AValue.mergeWith a b).2) A B.

(** The binding of a key after the merge of two environments, from its
    binding here and in the other environment. *)
Definition binding (own other : option V) : option V :=
  match own, other with
  | None, Some theirs => Some (AValue.mergeWith theirs AValue.Absent).1
  | Some mine, None => Some (AValue.mergeWith mine AValue.Absent).1
  | Some mine, Some theirs => Some (AValue.mergeWith mine theirs).1
  | None, None => None
  end.

(** What counts as a change of the bindings: a key the other environment
    brings, a merge of two bindings that reports a change, or a merge with
    the absent value that does. *)
Definition loops_change (m other : gmap K V) : Prop :=
  (∃ k theirs, other !! k = Some theirs ∧ m !! k = None) ∨
  (∃ k mine theirs, m !! k = Some mine ∧ other !! k = Some theirs ∧
                    (AValue.mergeWith mine theirs).2 = true) ∨
  (∃ k mine, m !! k = Some mine ∧ other !! k = None ∧
             (AValue.mergeWith mine AValue.Absent).2 = true).

Fixpoint mergeEnv (self other : AbstractEnvironment.t K V)
  : AbstractEnvironment.t K V :=
  match self, other with
  | AbstractEnvironment.mk env parent, AbstractEnvironment.mk other_env other_parent =>
      AbstractEnvironment.mk (merge binding env other_env)
        match parent with
        | None => other_parent
        | Some p =>
            match other_parent with
            | Some op => Some (mergeEnv p op)
            | None => Some p
            end
        end
  end.

(** The scope chain of an environment, innermost map first. *)
Fixpoint chain (e : AbstractEnvironment.t K V) : list (gmap K V) :=
  match e with
  | AbstractEnvironment.mk env parent =>
      env :: match parent with
             | Some p => chain p
             | None => []
             end
  end.

(** The binding of a key at a level of the scope chain. *)
Definition bindingAt (e : AbstractEnvironment.t K V) (level : nat) (name : K)
  : option V :=
  chain e !! level ≫= λ env, env !! name.

End Described.
End Described.

(** ** The forward driver's pops as the specification words them *)

Module Claimed.
Section Claimed.
Context {Loc : Type} `{Countable Loc} {S : Type} `{!State.State S}.
Context (code_ : CodeEditor.t Loc).
Context (doDispatch : Loc → Dispatcher.body S) (initialState : S).

(** Every pop of a location sets the current state from a clone of the
    initial state. *)
Definition pop_resets_state (a0 : ForwardAnalysis.t Loc S) : Prop :=
  ∀ n a a',
    ForwardAnalysis.doAnalyze code_ doDispatch initialState n a0
    = Ok (Running AtWhile a) →
    ForwardAnalysis.step code_ doDispatch AtWhile a = Ok (Running AtWalk a') →
    ForwardAnalysis.currentState_ a'
    = State.clone <$> ForwardAnalysis.initialState_ a'.

End Claimed.


End Claimed.

(** ** A dispatcher whose code dispatches again

    The code for instruction [0] calls [fail()] and then [dispatch] for
    instruction [1], whose code does nothing. *)

Module Chained.

Definition doDispatch (ins : Z) : Dispatcher.body nat :=
  match ins with
  | 0%Z => Dispatcher.CallFail
             (Dispatcher.CallDispatch Dispatcher.Return (λ _, Dispatcher.Return))
  | _ => Dispatcher.Return
  end.

End Chained.

(** ** Shapes of code and invariants of the drivers, for the properties *)

Module Shapes.
Section Shapes.
Context {Loc : Type} `{Countable Loc} {S : Type} `{!State.State S}.
Context (code_ : CodeEditor.t Loc).
Context (doDispatch : Loc → Dispatcher.body S).

(** The locations of [path] are [l], [++l], and so on. *)
Fixpoint follows (l : Loc) (path : list Loc) : Prop :=
  match path with
  | [] => True
  | l' :: rest => l' = l ∧ follows (CodeEditor.incr code_ l) rest
  end.

(** The state after the instructions of [path] have been dispatched one
    after the other. *)
Definition replay (path : list Loc) (s : S) : S :=
  foldl (λ s l, Dispatcher.effect doDispatch l s) s path.

(** The locations of [path] are [l], [--l], and so on. *)
Fixpoint follows_back (l : Loc) (path : list Loc) : Prop :=
  match path with
  | [] => True
  | l' :: rest => l' = l ∧ follows_back (CodeEditor.decr code_ l) rest
  end.

(** A location the forward driver can start from without a current state:
    a label that has a snapshot. *)
Definition ready (m : gmap Loc (option S)) (l : Loc) : Prop :=
  CodeEditor.isLabel code_ l = true ∧ is_Some (snapshot m l).

(** What the forward driver keeps true: the location it is about to work
    on comes with a current state or is ready, and the locations behind it in
    the queue are ready. *)
Definition forward_inv (p : pc) (a : ForwardAnalysis.t Loc S) : Prop :=
  let locs :=
    match p with
    | AtWalk => ForwardAnalysis.currentIns_ a :: ForwardAnalysis.q_ a
    | AtWhile => ForwardAnalysis.q_ a
    end in
  match locs with
  | [] => True
  | first :: rest =>
      (is_Some (ForwardAnalysis.currentState_ a)
       ∨ ready (ForwardAnalysis.mergePoints_ a) first) ∧
      Forall (ready (ForwardAnalysis.mergePoints_ a)) rest
  end.

(** The retrieval cache of the forward analysis is at position [j] of the
    instructions [path], which [end()] follows, and holds the state replayed
    up to there from a clone of the initial state [ini]. *)
Definition cache_at (path : list Loc) (ini : S) (j : nat)
    (a : ForwardAnalysis.t Loc S) : Prop :=
  ForwardAnalysis.initialState_ a = Some ini ∧
  (path ++ [CodeEditor.end_ code_]) !! j = Some (ForwardAnalysis.currentIns_ a) ∧
  (j < length path →
   ForwardAnalysis.currentState_ a = Some (replay (take j path) (State.clone ini))).

End Shapes.
End Shapes.

(** * Properties *)

Lemma res_bind_Ok {A B : Type} (r : Res A) (k : A → Res B) (b : B) :
  r ≫= k = Ok b → ∃ a, r = Ok a ∧ k a = Ok b.
Proof. destruct r as [a|]; [|done]. intros Hk. by exists a. Qed.

(** ** The stack's merge *)

Section stack_properties.
Context {V : Type} `{!AValue.AValue V}.
Import Described.

Lemma mergeWith_loop_app (rest other_rest pre other_pre : list V) (result : bool) :
  length pre = length other_pre →
  length rest = length other_rest →
  AbstractStack.mergeWith_loop (length rest) (length pre)
    (pre ++ rest) (other_pre ++ other_rest) result
  = Ok (pre ++ merged rest other_rest,
        foldl (λ r c, c || r) result (reports rest other_rest)).
Proof.
  revert other_rest pre other_pre result.
  induction rest as [|a rest IH]; intros [|b other_rest] pre other_pre result Hpre Hrest;
    simplify_eq/=; first done.
  rewrite lookup_app_r by lia. rewrite Nat.sub_diag. simpl.
  rewrite Hpre, lookup_app_r by lia. rewrite Nat.sub_diag. simpl.
  destruct (AValue.mergeWith a b) as [a' changed] eqn:Hab. simpl.
  rewrite insert_app_r_alt by lia. rewrite <-Hpre, Nat.sub_diag. simpl.
  specialize (IH other_rest (pre ++ [a']) (other_pre ++ [b]) (changed || result)).
  rewrite !length_app in IH. simpl in IH.
  rewrite !Nat.add_1_r, <-!(assoc_L (++)) in IH. simpl in IH.
  rewrite IH by lia. done.
Qed.

Lemma foldl_orb_true (result : bool) (cs : list bool) :
  foldl (λ r c, c || r) result cs = true ↔ result = true ∨ true ∈ cs.
Proof.
  revert result. induction cs as [|c cs IH]; intros result; simpl.
  - rewrite elem_of_nil. tauto.
  - rewrite IH, elem_of_cons, orb_true_iff. intuition congruence.
Qed.

Lemma reports_true (A B : list V) :
  true ∈ reports A B ↔
  ∃ i a b, A !! i = Some a ∧ B !! i = Some b ∧ (AValue.mergeWith a b).2 = true.
Proof.
  unfold reports. rewrite list_elem_of_lookup. split.
  - intros [i Hi]. apply lookup_zip_with_Some in Hi as (a & b & ? & ? & ?).
    exists i, a, b. auto.
  - intros (i & a & b & Ha & Hb & Hab). exists i.
    apply lookup_zip_with_Some. exists a, b. auto.
Qed.

(** C3. Stacks of equal depth are merged slot by slot, and the merge
    returns true exactly when the merge of the values of some slot reported
    a change; the merge of stacks of different depths fails its
    assertion. *)
Theorem stack_mergeWith_elementwise (A B : list V) :
  (AbstractStack.depth A = AbstractStack.depth B →
   ∃ changed : bool,
     AbstractStack.mergeWith A B = Ok (merged A B, changed) ∧
     length (merged A B) = length A ∧
     (∀ i a b, A !! i = Some a → B !! i = Some b →
               merged A B !! i = Some (AValue.mergeWith a b).1) ∧
     (changed = true ↔
      ∃ i a b, A !! i = Some a ∧ B !! i = Some b ∧
               (AValue.mergeWith a b).2 = true)) ∧
  (AbstractStack.depth A ≠ AbstractStack.depth B →
   AbstractStack.mergeWith A B = Fault).
Proof.
  unfold AbstractStack.mergeWith, AbstractStack.depth. split; intros Hd.
  - rewrite decide_True by done.
    exists (foldl (λ r c, c || r) false (reports A B)).
    split; [|split; [|split]].
    + apply (mergeWith_loop_app A B [] [] false); done.
    + unfold merged. rewrite length_zip_with. lia.
    + intros i a b Ha Hb. unfold merged.
      apply lookup_zip_with_Some. exists a, b. auto.
    + rewrite foldl_orb_true, reports_true. intuition discriminate.
  - rewrite decide_False by done. done.
Qed.

End stack_properties.

(** The theorem at the stacks [[Const 1; Any]] and [[Const 2; Any]], and at
    stacks of depths 1 and 0. *)
Lemma stack_mergeWith_elementwise_witness :
  (∃ changed : bool,
     AbstractStack.mergeWith [Flat.Const 1; Flat.Any] [Flat.Const 2; Flat.Any]
     = Ok ([Flat.Any; Flat.Any], changed) ∧ changed = true) ∧
  AbstractStack.mergeWith [Flat.Bottom] ([] : list Flat.t) = Fault.
Proof.
  split.
  - destruct (proj1 (stack_mergeWith_elementwise
                       [Flat.Const 1; Flat.Any] [Flat.Const 2; Flat.Any]) eq_refl)
      as (changed & Hm & _ & _ & Hc).
    exists changed. split; [exact Hm|].
    apply Hc. exists 0, (Flat.Const 1), (Flat.Const 2). done.
  - apply (proj2 (stack_mergeWith_elementwise [Flat.Bottom] [])). simpl. lia.
Defined.

(** ** The environment's merge *)

Section environment_properties.
Context {K : Type} `{Countable K} {V : Type} `{!AValue.AValue V}.
Import Described.

Lemma env_parent_ind (P : AbstractEnvironment.t K V → Prop) :
  (∀ m, P (AbstractEnvironment.mk m None)) →
  (∀ m p, P p → P (AbstractEnvironment.mk m (Some p))) →
  ∀ e, P e.
Proof.
  intros Hnone Hsome. fix IH 1. intros [m [p|]].
  - apply Hsome, IH.
  - apply Hnone.
Qed.

(** A clone is equal to what it copies: a value has no identity. *)
Lemma clone_eq (e : AbstractEnvironment.t K V) : AbstractEnvironment.clone e = e.
Proof.
  induction e as [m|m p IH] using env_parent_ind; simpl; [done|].
  by rewrite IH.
Qed.

(** *** The first loop *)

Lemma other_loop_lookup (l : list (K * V)) (m : gmap K V) (result : bool) (k : K) :
  NoDup l.*1 →
  (foldl AbstractEnvironment.mergeWith_other_entry (m, result) l).1 !! k
  = match (list_to_map l : gmap K V) !! k with
    | Some theirs => binding (m !! k) (Some theirs)
    | None => m !! k
    end.
Proof.
  revert m result. induction l as [|[i x] l IH]; intros m result Hnd.
  { simpl. by rewrite lookup_empty. }
  rewrite fmap_cons in Hnd. apply NoDup_cons in Hnd as [Hi Hnd]. simpl in Hi |- *.
  destruct (decide (i = k)) as [->|Hne].
  - rewrite lookup_insert_eq.
    apply not_elem_of_list_to_map_1 in Hi.
    destruct (m !! k) as [own|] eqn:Hm; simpl.
    + destruct (AValue.mergeWith own x) as [own' changed] eqn:Hown.
      rewrite IH, Hi, lookup_insert_eq by done. done.
    + rewrite IH, Hi, lookup_insert_eq by done. done.
  - rewrite lookup_insert_ne by done.
    destruct (m !! i) as [own|] eqn:Hm; simpl.
    + destruct (AValue.mergeWith own x) as [own' changed] eqn:Hown.
      rewrite IH by done. by rewrite lookup_insert_ne.
    + rewrite IH by done. by rewrite lookup_insert_ne.
Qed.

Lemma other_loop_flag (l : list (K * V)) (m : gmap K V) (result : bool) :
  NoDup l.*1 →
  (foldl AbstractEnvironment.mergeWith_other_entry (m, result) l).2 = true ↔
  result = true ∨
  ∃ k theirs, (k, theirs) ∈ l ∧
    match m !! k with
    | None => True
    | Some mine => (AValue.mergeWith mine theirs).2 = true
    end.
Proof.
  revert m result. induction l as [|[i x] l IH]; intros m result Hnd.
  { split; [auto|]. intros [?|(k & v & Hin & _)]; [done|]. by apply elem_of_nil in Hin. }
  rewrite fmap_cons in Hnd. apply NoDup_cons in Hnd as [Hi Hnd]. simpl in Hi |- *.
  assert (∀ (x' : V) k v, (k, v) ∈ l → <[i := x']> m !! k = m !! k) as Hrest.
  { intros x' k v Hin. apply lookup_insert_ne. intros ->. apply Hi.
    apply list_elem_of_fmap. by exists (k, v). }
  destruct (m !! i) as [own|] eqn:Hm; simpl.
  - destruct (AValue.mergeWith own x) as [own' changed] eqn:Hown.
    rewrite IH by done. rewrite orb_true_iff. split.
    + intros [[Hc| ->]|(k & v & Hin & Hk)]; [|by left|].
      * right. exists i, x. rewrite Hm, Hown. split; [by left|done].
      * right. exists k, v. rewrite (Hrest own' k v Hin) in Hk. split; [by right|done].
    + intros [->|(k & v & Hin & Hk)]; [by left; right|].
      apply elem_of_cons in Hin as [[= -> ->]|Hin].
      * rewrite Hm, Hown in Hk. simpl in Hk. by left; left.
      * right. exists k, v. by rewrite (Hrest own' k v Hin).
  - rewrite IH by done. split; [|by left].
    intros _. right. exists i, x. rewrite Hm. split; [by left|done].
Qed.

(** *** The second loop *)

Lemma own_loop_lookup (other : gmap K V) (l : list (K * V)) (m : gmap K V)
    (result : bool) (k : K) :
  NoDup l.*1 →
  (foldl (AbstractEnvironment.mergeWith_own_entry other) (m, result) l).1 !! k
  = match (list_to_map l : gmap K V) !! k, other !! k with
    | Some mine, None => Some (AValue.mergeWith mine AValue.Absent).1
    | _, _ => m !! k
    end.
Proof.
  revert m result. induction l as [|[i x] l IH]; intros m result Hnd.
  { simpl. by rewrite lookup_empty. }
  rewrite fmap_cons in Hnd. apply NoDup_cons in Hnd as [Hi Hnd]. simpl in Hi |- *.
  destruct (decide (i = k)) as [->|Hne].
  - rewrite lookup_insert_eq.
    apply not_elem_of_list_to_map_1 in Hi.
    destruct (other !! k) as [theirs|] eqn:Ho; simpl.
    + rewrite IH, Hi by done. done.
    + destruct (AValue.mergeWith x AValue.Absent) as [x' changed] eqn:Hx.
      rewrite IH, Hi, lookup_insert_eq by done. done.
  - rewrite lookup_insert_ne by done.
    destruct (other !! i) as [theirs|] eqn:Ho; simpl.
    + by rewrite IH.
    + destruct (AValue.mergeWith x AValue.Absent) as [x' changed] eqn:Hx.
      rewrite IH by done. by rewrite lookup_insert_ne.
Qed.

Lemma own_loop_flag (other : gmap K V) (l : list (K * V)) (m : gmap K V)
    (result : bool) :
  (foldl (AbstractEnvironment.mergeWith_own_entry other) (m, result) l).2 = true ↔
  result = true ∨
  ∃ k mine, (k, mine) ∈ l ∧ other !! k = None ∧
            (AValue.mergeWith mine AValue.Absent).2 = true.
Proof.
  revert m result. induction l as [|[i x] l IH]; intros m result; simpl.
  { split; [auto|]. intros [?|(k & v & Hin & _)]; [done|]. by apply elem_of_nil in Hin. }
  destruct (other !! i) as [theirs|] eqn:Ho; simpl.
  - rewrite IH. split.
    + intros [?|(k & v & Hin & Hk)]; [by left|]. right. exists k, v. split; [by right|done].
    + intros [?|(k & v & Hin & Hk & Hc)]; [by left|].
      apply elem_of_cons in Hin as [[= -> ->]|Hin]; [congruence|].
      right. by exists k, v.
  - destruct (AValue.mergeWith x AValue.Absent) as [x' changed] eqn:Hx.
    rewrite IH, orb_true_iff. split.
    + intros [[Hc| ->]|(k & v & Hin & Hk)]; [|by left|].
      * right. exists i, x. rewrite Hx. split; [by left|done].
      * right. exists k, v. split; [by right|done].
    + intros [->|(k & v & Hin & Hk & Hc)]; [by left; right|].
      apply elem_of_cons in Hin as [[= -> ->]|Hin].
      * rewrite Hx in Hc. simpl in Hc. by left; left.
      * right. by exists k, v.
Qed.

(** *** The two loops together *)

Lemma entries_of_map (l : list (K * V)) (m : gmap K V) :
  l ≡ₚ map_to_list m →
  NoDup l.*1 ∧ list_to_map l = m ∧ ∀ k v, (k, v) ∈ l ↔ m !! k = Some v.
Proof.
  intros Hl. assert (NoDup l.*1) as Hnd.
  { rewrite Hl. apply NoDup_fst_map_to_list. }
  split; [done|]. split.
  - rewrite <-(list_to_map_to_list m). by apply list_to_map_proper.
  - intros k v. by rewrite Hl, elem_of_map_to_list.
Qed.

Lemma loops_spec (m other : gmap K V) (l1 l2 : list (K * V)) :
  l1 ≡ₚ map_to_list other →
  l2 ≡ₚ map_to_list (foldl AbstractEnvironment.mergeWith_other_entry (m, false) l1).1 →
  let acc :=
    foldl (AbstractEnvironment.mergeWith_own_entry other)
      (foldl AbstractEnvironment.mergeWith_other_entry (m, false) l1) l2 in
  acc.1 = merge binding m other ∧ (acc.2 = true ↔ loops_change m other).
Proof.
  intros Hl1 Hl2.
  destruct (entries_of_map _ _ Hl1) as (Hnd1 & Hmap1 & Hin1).
  destruct (entries_of_map _ _ Hl2) as (Hnd2 & Hmap2 & Hin2).
  assert (∀ k, (foldl AbstractEnvironment.mergeWith_other_entry (m, false) l1).1 !! k
               = match other !! k with
                 | Some theirs => binding (m !! k) (Some theirs)
                 | None => m !! k
                 end) as Hfirst.
  { intros k. by rewrite other_loop_lookup, Hmap1. }
  destruct (foldl AbstractEnvironment.mergeWith_other_entry (m, false) l1)
    as [m1 r1] eqn:Hacc1.
  assert (r1 = true ↔
          false = true ∨
          ∃ k theirs, (k, theirs) ∈ l1 ∧
            match m !! k with
            | None => True
            | Some mine => (AValue.mergeWith mine theirs).2 = true
            end) as Hr1.
  { rewrite <-(other_loop_flag l1 m false Hnd1), Hacc1. done. }
  simpl in *. split.
  - apply map_eq. intros k.
    rewrite own_loop_lookup, Hmap2, lookup_merge, !Hfirst by done.
    destruct (m !! k), (other !! k); done.
  - rewrite own_loop_flag, Hr1. unfold loops_change. split.
    + intros [[?|(k & theirs & Hin & Hk)]|(k & mine & Hin & Ho & Hc)]; [done| |].
      * apply Hin1 in Hin. destruct (m !! k) as [mine|] eqn:Hm.
        -- right; left. by exists k, mine, theirs.
        -- left. by exists k, theirs.
      * apply Hin2 in Hin. rewrite Hfirst, Ho in Hin.
        right; right. by exists k, mine.
    + intros [(k & theirs & Ho & Hm)|[(k & mine & theirs & Hm & Ho & Hc)
                                      |(k & mine & Hm & Ho & Hc)]].
      * left; right. exists k, theirs. rewrite Hm. split; [by apply Hin1|done].
      * left; right. exists k, theirs. rewrite Hm. split; [by apply Hin1|done].
      * right. exists k, mine. split; [|done]. apply Hin2. by rewrite Hfirst, Ho.
Qed.

Lemma mergeWith_maps_spec (m other : gmap K V) :
  (AbstractEnvironment.mergeWith_maps m other).1 = merge binding m other ∧
  ((AbstractEnvironment.mergeWith_maps m other).2 = true ↔ loops_change m other).
Proof. by apply loops_spec. Qed.

(** The order in which the loops go through the maps does not matter. *)
Lemma merge_loops_any_order (m other : gmap K V) (l1 l2 : list (K * V)) :
  l1 ≡ₚ map_to_list other →
  l2 ≡ₚ map_to_list (foldl AbstractEnvironment.mergeWith_other_entry (m, false) l1).1 →
  foldl (AbstractEnvironment.mergeWith_own_entry other)
    (foldl AbstractEnvironment.mergeWith_other_entry (m, false) l1) l2
  = AbstractEnvironment.mergeWith_maps m other.
Proof.
  intros Hl1 Hl2.
  destruct (loops_spec m other l1 l2 Hl1 Hl2) as [Hm Hr].
  destruct (mergeWith_maps_spec m other) as [Hm' Hr'].
  simpl in Hm, Hr.
  destruct (foldl _ _ l2) as [m2 r2], (AbstractEnvironment.mergeWith_maps m other) as [m2' r2'].
  simpl in *. f_equal; [congruence|].
  destruct r2, r2'; intuition congruence.
Qed.

(** *** The merge of environments *)

Lemma mergeWith_mergeEnv (self other : AbstractEnvironment.t K V) :
  (AbstractEnvironment.mergeWith self other).1 = mergeEnv self other.
Proof.
  revert other. induction self as [m|m p IH] using env_parent_ind;
    intros [o op]; simpl;
    destruct (mergeWith_maps_spec m o) as [Hm _];
    destruct (AbstractEnvironment.mergeWith_maps m o) as [m' r']; simpl in Hm; subst m'.
  - destruct op as [op|]; simpl; [|done]. by rewrite clone_eq.
  - destruct op as [op|]; simpl; [|done].
    specialize (IH op).
    destruct (AbstractEnvironment.mergeWith p op) as [p' changed]. simpl in *.
    by subst p'.
Qed.

(** C1. The merge of environments is the algorithm described: a key of the
    other environment only is bound to its value merged with the absent
    value and makes the merge report a change; a key of this environment
    only has its value merged with the absent value; a key of both has the
    two values merged; no other key is bound. A missing parent is replaced by
    a copy of the other's parent chain, which is a change; two parents are
    merged; a parent the other environment lacks stays as it is. The merge
    reports a change for these reasons only. *)
Theorem env_mergeWith_as_described (self other : AbstractEnvironment.t K V) :
  let r := AbstractEnvironment.mergeWith self other in
  let mine := AbstractEnvironment.env_ self in
  let theirs := AbstractEnvironment.env_ other in
  (∀ k y, theirs !! k = Some y → mine !! k = None →
     AbstractEnvironment.env_ r.1 !! k = Some (AValue.mergeWith y AValue.Absent).1 ∧
     r.2 = true) ∧
  (∀ k x, mine !! k = Some x → theirs !! k = None →
     AbstractEnvironment.env_ r.1 !! k = Some (AValue.mergeWith x AValue.Absent).1) ∧
  (∀ k x y, mine !! k = Some x → theirs !! k = Some y →
     AbstractEnvironment.env_ r.1 !! k = Some (AValue.mergeWith x y).1) ∧
  (∀ k, mine !! k = None → theirs !! k = None →
     AbstractEnvironment.env_ r.1 !! k = None) ∧
  (∀ op, AbstractEnvironment.parent_ self = None →
     AbstractEnvironment.parent_ other = Some op →
     AbstractEnvironment.parent_ r.1 = Some (AbstractEnvironment.clone op) ∧
     r.2 = true) ∧
  (∀ p op, AbstractEnvironment.parent_ self = Some p →
     AbstractEnvironment.parent_ other = Some op →
     AbstractEnvironment.parent_ r.1 = Some (AbstractEnvironment.mergeWith p op).1) ∧
  (∀ p, AbstractEnvironment.parent_ self = Some p →
     AbstractEnvironment.parent_ other = None →
     AbstractEnvironment.parent_ r.1 = Some p) ∧
  (AbstractEnvironment.parent_ self = None →
     AbstractEnvironment.parent_ other = None →
     AbstractEnvironment.parent_ r.1 = None) ∧
  (r.2 = true ↔
     loops_change mine theirs ∨
     (AbstractEnvironment.parent_ self = None ∧
      is_Some (AbstractEnvironment.parent_ other)) ∨
     (∃ p op, AbstractEnvironment.parent_ self = Some p ∧
              AbstractEnvironment.parent_ other = Some op ∧
              (AbstractEnvironment.mergeWith p op).2 = true)) ∧
  r.1 = mergeEnv self other.
Proof.
  intros r mine theirs.
  assert (AbstractEnvironment.env_ r.1 = merge binding mine theirs) as Henv.
  { subst r mine theirs. destruct self as [m p], other as [o op]; simpl.
    destruct (mergeWith_maps_spec m o) as [Hm _].
    destruct (AbstractEnvironment.mergeWith_maps m o) as [m' r']; simpl in *.
    destruct p as [p|], op as [op|]; simpl; try done.
    by destruct (AbstractEnvironment.mergeWith p op) as [p' changed]. }
  assert (∀ k, AbstractEnvironment.env_ r.1 !! k = binding (mine !! k) (theirs !! k))
    as Hlookup.
  { intros k. rewrite Henv, lookup_merge.
    destruct (mine !! k), (theirs !! k); done. }
  assert (∀ p op, AbstractEnvironment.parent_ self = p →
            AbstractEnvironment.parent_ other = op →
            AbstractEnvironment.parent_ r.1
            = match p with
              | None => AbstractEnvironment.clone <$> op
              | Some p =>
                  match op with
                  | Some op => Some (AbstractEnvironment.mergeWith p op).1
                  | None => Some p
                  end
              end) as Hparent.
  { subst r mine theirs. clear. intros ? ? <- <-.
    destruct self as [m p], other as [o op]; simpl.
    destruct (AbstractEnvironment.mergeWith_maps m o) as [m' r'].
    destruct p as [p|], op as [op|]; simpl; try done.
    by destruct (AbstractEnvironment.mergeWith p op). }
  assert (r.2 = true ↔
          loops_change mine theirs ∨
          (AbstractEnvironment.parent_ self = None ∧
           is_Some (AbstractEnvironment.parent_ other)) ∨
          (∃ p op, AbstractEnvironment.parent_ self = Some p ∧
                   AbstractEnvironment.parent_ other = Some op ∧
                   (AbstractEnvironment.mergeWith p op).2 = true)) as Hchange.
  { subst r mine theirs. clear. destruct self as [m p], other as [o op]; simpl.
    destruct (mergeWith_maps_spec m o) as [_ Hr].
    destruct (AbstractEnvironment.mergeWith_maps m o) as [m' r']; simpl in *.
    destruct p as [p|], op as [op|]; simpl.
    - destruct (AbstractEnvironment.mergeWith p op) as [p' changed] eqn:Hp; simpl.
      rewrite orb_true_iff, Hr. split.
      + intros [->|?]; [|by left]. right; right. exists p, op. by rewrite Hp.
      + intros [?|[[? _]|(p0 & op0 & [= <-] & [= <-] & Hc)]]; [by right|done|].
        rewrite Hp in Hc. by left.
    - rewrite Hr. split; [by left|].
      intros [?|[[? _]|(p0 & op0 & _ & ? & _)]]; done.
    - split; [|done]. intros _. right; left. split; [done|]. by exists op.
    - rewrite Hr. split; [by left|].
      intros [?|[[_ [? ?]]|(p0 & op0 & ? & _)]]; done. }
  split; [|split; [|split; [|split; [|split; [|split; [|split; [|split; [|split]]]]]]]].
  - intros k y Hy Hx. split.
    + by rewrite Hlookup, Hx, Hy.
    + apply Hchange. left. left. eauto.
  - intros k x Hx Hy. by rewrite Hlookup, Hx, Hy.
  - intros k x y Hx Hy. by rewrite Hlookup, Hx, Hy.
  - intros k Hx Hy. by rewrite Hlookup, Hx, Hy.
  - intros op Hp Hop. split.
    + by rewrite (Hparent _ _ Hp Hop).
    + apply Hchange. right; left. split; [done|]. by exists op.
  - intros p op Hp Hop. by rewrite (Hparent _ _ Hp Hop).
  - intros p Hp Hop. by rewrite (Hparent _ _ Hp Hop).
  - intros Hp Hop. by rewrite (Hparent _ _ Hp Hop).
  - exact Hchange.
  - apply mergeWith_mergeEnv.
Qed.

(** *** Symmetry *)

Section symmetry.
Hypothesis merge_comm :
  ∀ a b : V, (AValue.mergeWith a b).1 = (AValue.mergeWith b a).1.

Lemma binding_comm (x y : option V) : binding x y = binding y x.
Proof using merge_comm. destruct x, y; simpl; by rewrite ?(merge_comm v). Qed.

Lemma mergeEnv_comm (A B : AbstractEnvironment.t K V) : mergeEnv A B = mergeEnv B A.
Proof using merge_comm.
  revert B. induction A as [m|m p IH] using env_parent_ind; intros [o op]; simpl.
  - f_equal.
    + apply map_eq. intros k. rewrite !lookup_merge.
      destruct (m !! k), (o !! k); simpl; by rewrite ?(merge_comm v).
    + by destruct op.
  - f_equal.
    + apply map_eq. intros k. rewrite !lookup_merge.
      destruct (m !! k), (o !! k); simpl; by rewrite ?(merge_comm v).
    + destruct op as [op|]; [|done]. by rewrite IH.
Qed.

(** C2. When the merge of values is commutative, merging [B] into a copy
    of [A] and merging [A] into a copy of [B] give scope chains of the
    same length that bind every key alike at every level. *)
Theorem env_mergeWith_symmetric (A B : AbstractEnvironment.t K V) (level : nat) (name : K) :
  length (chain (AbstractEnvironment.mergeWith (AbstractEnvironment.clone A) B).1)
  = length (chain (AbstractEnvironment.mergeWith (AbstractEnvironment.clone B) A).1) ∧
  bindingAt (AbstractEnvironment.mergeWith (AbstractEnvironment.clone A) B).1 level name
  = bindingAt (AbstractEnvironment.mergeWith (AbstractEnvironment.clone B) A).1 level name.
Proof using merge_comm.
  rewrite !clone_eq, !mergeWith_mergeEnv, (mergeEnv_comm A B). done.
Qed.

End symmetry.

(** *** Lookup *)

(** C8. [find] gives the binding of the key in the local map when there is
    one, otherwise what the search of the parent gives; all in all the
    binding of the innermost level of the scope chain that binds the key,
    and [top()] when no level binds it. *)
Theorem env_find_nearest (e : AbstractEnvironment.t K V) (name : K) :
  (∀ v, AbstractEnvironment.env_ e !! name = Some v →
        AbstractEnvironment.find e name = v) ∧
  (∀ p, AbstractEnvironment.env_ e !! name = None →
        AbstractEnvironment.parent_ e = Some p →
        AbstractEnvironment.find e name = AbstractEnvironment.find p name) ∧
  (∀ level v,
     bindingAt e level name = Some v →
     (∀ inner, inner < level → bindingAt e inner name = None) →
     AbstractEnvironment.find e name = v) ∧
  ((∀ level, bindingAt e level name = None) →
   AbstractEnvironment.find e name = AValue.top).
Proof.
  split; [|split; [|split]].
  - intros v Hv. destruct e as [m p]; simpl in *. by rewrite Hv.
  - intros p Hm Hp. destruct e as [m p']; simpl in *. by rewrite Hm, Hp.
  - induction e as [m|m p IH] using env_parent_ind; intros level v Hv Hinner.
    + destruct level as [|level]; [|done].
      unfold bindingAt in Hv. simpl in *. by rewrite Hv.
    + destruct level as [|level].
      * unfold bindingAt in Hv. simpl in *. by rewrite Hv.
      * assert (m !! name = None) as Hm by (apply (Hinner 0); lia).
        simpl. rewrite Hm. apply (IH level); [done|].
        intros inner Hlt. apply (Hinner (S inner)). lia.
  - induction e as [m|m p IH] using env_parent_ind; intros Hnone.
    + pose proof (Hnone 0) as Hm. unfold bindingAt in Hm. simpl in *. by rewrite Hm.
    + pose proof (Hnone 0) as Hm. unfold bindingAt in Hm. simpl in *. rewrite Hm.
      apply IH. intros level. apply (Hnone (S level)).
Qed.

(** C10. When the local map does not bind a key, the const [operator[]]
    gives [top()], whatever [find] gives through the parents; and the
    non-const [operator[]] binds the key to [top()] in the local map, so
    that [has] holds afterwards, changes nothing else, and gives the new
    binding. *)
Theorem env_index_ignores_parents (e : AbstractEnvironment.t K V) (name : K) :
  AbstractEnvironment.env_ e !! name = None →
  AbstractEnvironment.index_const e name = AValue.top ∧
  (∀ p v, AbstractEnvironment.parent_ e = Some p →
          AbstractEnvironment.find p name = v →
          AbstractEnvironment.find e name = v ∧
          AbstractEnvironment.index_const e name = AValue.top) ∧
  ∃ e', AbstractEnvironment.index e name = Ok (e', AValue.top) ∧
        AbstractEnvironment.env_ e' = <[name := AValue.top]> (AbstractEnvironment.env_ e) ∧
        AbstractEnvironment.parent_ e' = AbstractEnvironment.parent_ e ∧
        AbstractEnvironment.has e' name = true ∧
        AbstractEnvironment.index_const e' name = AValue.top.
Proof.
  intros Hm. unfold AbstractEnvironment.index_const, AbstractEnvironment.index,
    AbstractEnvironment.has.
  rewrite Hm. split; [done|]. split.
  - intros p v Hp Hv. destruct e as [m p']; simpl in *. by rewrite Hm, Hp.
  - rewrite lookup_insert_eq. eexists. split; [done|]. simpl.
    rewrite lookup_insert_eq. done.
Qed.

End environment_properties.

(** Merging values of the flat domain is commutative. *)
Lemma Flat_merge_comm (x y : Flat.t) :
  (AValue.mergeWith x y).1 = (AValue.mergeWith y x).1.
Proof.
  destruct x, y; simpl; try done.
  repeat case_decide; congruence.
Qed.

(** The merge of [Scopes.right_] into [Scopes.left_]. *)
Lemma env_mergeWith_as_described_witness :
  let r := AbstractEnvironment.mergeWith Scopes.left_ Scopes.right_ in
  (AbstractEnvironment.env_ r.1 !! 3 = Some Flat.Any ∧ r.2 = true) ∧
  AbstractEnvironment.env_ r.1 !! 1 = Some Flat.Any ∧
  AbstractEnvironment.env_ r.1 !! 2 = Some Flat.Any ∧
  AbstractEnvironment.env_ r.1 !! 4 = None ∧
  AbstractEnvironment.parent_ r.1 = Some Scopes.outer.
Proof.
  destruct (env_mergeWith_as_described Scopes.left_ Scopes.right_)
    as (Hother & Hown & Hboth & Hnone & Hadopt & _).
  split; [|split; [|split; [|split]]].
  - apply (Hother 3 (Flat.Const 7)); reflexivity.
  - apply (Hown 1 (Flat.Const 1)); reflexivity.
  - apply (Hboth 2 (Flat.Const 5) (Flat.Const 6)); reflexivity.
  - apply (Hnone 4); reflexivity.
  - apply (Hadopt Scopes.outer); reflexivity.
Defined.

(** The symmetry at [Scopes.left_] and [Scopes.right_], key [2] of the
    innermost level. *)
Lemma env_mergeWith_symmetric_witness :
  length (Described.chain
            (AbstractEnvironment.mergeWith
               (AbstractEnvironment.clone Scopes.left_) Scopes.right_).1)
  = length (Described.chain
              (AbstractEnvironment.mergeWith
                 (AbstractEnvironment.clone Scopes.right_) Scopes.left_).1) ∧
  Described.bindingAt
    (AbstractEnvironment.mergeWith
       (AbstractEnvironment.clone Scopes.left_) Scopes.right_).1 0 2
  = Described.bindingAt
      (AbstractEnvironment.mergeWith
         (AbstractEnvironment.clone Scopes.right_) Scopes.left_).1 0 2.
Proof.
  apply (env_mergeWith_symmetric Flat_merge_comm Scopes.left_ Scopes.right_ 0 2).
Defined.

(** [find] in [Scopes.right_]: key [3] is bound locally, key [9] in the
    parent, key [5] nowhere. *)
Lemma env_find_nearest_witness :
  AbstractEnvironment.find Scopes.right_ 3 = Flat.Const 7 ∧
  AbstractEnvironment.find Scopes.right_ 9 = Flat.Const 4 ∧
  AbstractEnvironment.find Scopes.right_ 5 = Flat.Any.
Proof.
  split; [|split].
  - apply (proj1 (env_find_nearest Scopes.right_ 3)). reflexivity.
  - destruct (env_find_nearest Scopes.right_ 9) as (_ & _ & Hlevel & _).
    apply (Hlevel 1); [reflexivity|].
    intros inner Hlt. assert (inner = 0) as -> by lia. reflexivity.
  - destruct (env_find_nearest Scopes.right_ 5) as (_ & _ & _ & Hnone).
    apply Hnone. intros [|[|level]]; reflexivity.
Defined.

(** [operator[]] at key [9] of [Scopes.right_], which only the parent
    binds. *)
Lemma env_index_ignores_parents_witness :
  AbstractEnvironment.index_const Scopes.right_ 9 = Flat.Any ∧
  AbstractEnvironment.find Scopes.right_ 9 = Flat.Const 4 ∧
  ∃ e', AbstractEnvironment.index Scopes.right_ 9 = Ok (e', Flat.Any) ∧
        AbstractEnvironment.has e' 9 = true.
Proof.
  destruct (env_index_ignores_parents Scopes.right_ 9 eq_refl)
    as (Hconst & Hfind & e' & Hindex & _ & _ & Hhas & _).
  split; [exact Hconst|]. split.
  - apply (Hfind Scopes.outer (Flat.Const 4)); reflexivity.
  - exists e'. split; [exact Hindex|exact Hhas].
Defined.

(** ** The dispatcher's success tag *)

Section dispatcher_properties.
Context {Loc D : Type}.



(** The tag the dispatcher holds before a call does not influence the
    call. *)
Lemma dispatch_resets (doDispatch : Loc → Dispatcher.body D) (ins : Loc)
    (success : bool) (x : D) :
  Dispatcher.dispatch doDispatch ins (Dispatcher.mk success x)
  = Dispatcher.dispatch doDispatch ins (Dispatcher.mk true x).
Proof. done. Qed.


End dispatcher_properties.



(** ** The forward driver *)

Section forward_properties.
Context {Loc : Type} `{Countable Loc} {S : Type} `{!State.State S}.
Context (code_ : CodeEditor.t Loc).
Context (doDispatch : Loc → Dispatcher.body S) (initialState : S).

(** Every [break] of the inner loop comes after [currentState_ = nullptr]. *)
Lemma forward_break_discards (a a' : ForwardAnalysis.t Loc S) :
  ForwardAnalysis.walk code_ doDispatch a = Ok (Break a') →
  ForwardAnalysis.currentState_ a' = None.
Proof.
  unfold ForwardAnalysis.walk. intros Hw.
  apply res_bind_Ok in Hw as ([a1|a1] & Hlabel & Hw).
  - apply res_bind_Ok in Hw as (a2 & _ & Hw).
    apply res_bind_Ok in Hw as ([a3|a3] & Hafter & Hw); [done|].
    injection Hw as <-. revert Hafter. unfold ForwardAnalysis.afterDispatch.
    destruct (CodeEditor.isJmp code_ _).
    + intros Hj. apply res_bind_Ok in Hj as ([jump a4] & _ & Hj).
      destruct (CodeEditor.isUncondJmp code_ _); [|done]. by injection Hj as <-.
    + destruct (CodeEditor.isExitPoint code_ _); [|done].
      destruct (ForwardAnalysis.finalState_ a2); [|by intros [= <-]].
      destruct (ForwardAnalysis.currentState_ a2); [|done].
      intros Hm. apply res_bind_Ok in Hm as ([fin' changed] & _ & Hm).
      by injection Hm as <-.
  - injection Hw as <-. revert Hlabel. unfold ForwardAnalysis.atLabel.
    destruct (CodeEditor.isLabel code_ _); [|done].
    destruct (mergePoints_at _ _) as [m [st|]].
    + destruct (ForwardAnalysis.currentState_ a); [|done].
      intros Hm. apply res_bind_Ok in Hm as ([st' changed] & _ & Hm).
      destruct changed; [done|]. by injection Hm as <-.
    + by destruct (ForwardAnalysis.currentState_ a).
Qed.

Lemma forward_step_AtWhile (p : pc) (a a' : ForwardAnalysis.t Loc S) :
  ForwardAnalysis.step code_ doDispatch p a = Ok (Running AtWhile a') →
  p = AtWalk ∧ ForwardAnalysis.currentState_ a' = None.
Proof.
  destruct p; simpl.
  - by destruct (ForwardAnalysis.q_ a).
  - intros Hs. apply res_bind_Ok in Hs as ([a1|a1] & Hw & Hs); [done|].
    injection Hs as <-. split; [done|]. by apply forward_break_discards in Hw.
Qed.

Lemma forward_steps_AtWhile (n : nat) (p : pc) (a a' : ForwardAnalysis.t Loc S) :
  ForwardAnalysis.steps code_ doDispatch n p a = Ok (Running AtWhile a') →
  (n = 0 ∧ p = AtWhile ∧ a' = a) ∨
  (0 < n ∧ ForwardAnalysis.currentState_ a' = None).
Proof.
  revert p a. induction n as [|n IH]; intros p a; simpl.
  - intros [= -> ->]. by left.
  - intros Hs. apply res_bind_Ok in Hs as ([p1 a1|a1] & Hstep & Hs); [|done].
    right. split; [lia|].
    destruct (IH _ _ Hs) as [(_ & -> & ->)|[_ Hnone]]; [|done].
    by apply forward_step_AtWhile in Hstep as [_ ?].
Qed.

(** C4, as the code has it. The current state is set from a clone of the
    initial state once, before the loop over the queue: it is what the
    first pop finds. A pop takes the front of the queue and leaves the
    current state alone. Every later pop finds no current state, and the
    walk from a label that has a snapshot then starts from a clone of that
    snapshot. *)
Theorem forward_pop_keeps_state (a0 : ForwardAnalysis.t Loc S) :
  ForwardAnalysis.currentState_ (ForwardAnalysis.doAnalyze_enter code_ initialState a0)
  = Some (State.clone initialState) ∧
  (∀ n a,
     ForwardAnalysis.doAnalyze code_ doDispatch initialState n a0
     = Ok (Running AtWhile a) →
     0 < n →
     ForwardAnalysis.currentState_ a = None) ∧
  (∀ a front q,
     ForwardAnalysis.q_ a = front :: q →
     ∃ a', ForwardAnalysis.step code_ doDispatch AtWhile a = Ok (Running AtWalk a') ∧
           ForwardAnalysis.currentState_ a' = ForwardAnalysis.currentState_ a ∧
           ForwardAnalysis.currentIns_ a' = front ∧
           ForwardAnalysis.q_ a' = q) ∧
  (∀ a st,
     ForwardAnalysis.currentState_ a = None →
     CodeEditor.isLabel code_ (ForwardAnalysis.currentIns_ a) = true →
     snapshot (ForwardAnalysis.mergePoints_ a) (ForwardAnalysis.currentIns_ a) = Some st →
     ∃ a', ForwardAnalysis.atLabel code_ a = Ok (Continue a') ∧
           ForwardAnalysis.currentState_ a' = Some (State.clone st)).
Proof.
  split; [done|]. split; [|split].
  - intros n a Hrun Hn. unfold ForwardAnalysis.doAnalyze in Hrun.
    apply forward_steps_AtWhile in Hrun as [(-> & _)|[_ ?]]; [lia|done].
  - intros a front q Hq. simpl. rewrite Hq. eexists. split; [done|]. done.
  - intros a st Hcur Hlabel Hsnap. unfold ForwardAnalysis.atLabel, snapshot in *.
    rewrite Hlabel. destruct (mergePoints_at _ _) as [m stored]. simpl in Hsnap.
    subst stored. rewrite Hcur. eexists. split; [done|]. done.
Qed.

(** *** Jumps *)

Lemma snapshot_insert (m : gmap Loc (option S)) (l : Loc) (st : option S) :
  snapshot (<[l := st]> m) l = st.
Proof. unfold snapshot, mergePoints_at. by rewrite lookup_insert_eq. Qed.

Lemma snapshot_at (m : gmap Loc (option S)) (l : Loc) :
  snapshot (mergePoints_at m l).1 l = snapshot m l.
Proof.
  unfold snapshot, mergePoints_at. destruct (m !! l) as [st|] eqn:Hm; simpl.
  - by rewrite Hm.
  - by rewrite lookup_insert_eq.
Qed.

(** What [shouldJump] and the code after the dispatch do at a jump. *)
Lemma forward_jump_run (a : ForwardAnalysis.t Loc S) (cur : S) :
  ForwardAnalysis.currentState_ a = Some cur →
  CodeEditor.isJmp code_ (ForwardAnalysis.currentIns_ a) = true →
  let l := CodeEditor.target code_ (ForwardAnalysis.currentIns_ a) in
  ∀ jump : bool, ∀ stored' : S,
  match snapshot (ForwardAnalysis.mergePoints_ a) l with
  | None => jump = true ∧ stored' = State.clone cur
  | Some stored => State.mergeWith stored cur = Ok (stored', jump)
  end →
  ∃ a1 a2,
    ForwardAnalysis.shouldJump l a = Ok (jump, a1) ∧
    ForwardAnalysis.afterDispatch code_ a
    = (if CodeEditor.isUncondJmp code_ (ForwardAnalysis.currentIns_ a)
       then Ok (Break a2) else Ok (Continue a2)) ∧
    snapshot (ForwardAnalysis.mergePoints_ a1) l = Some stored' ∧
    ForwardAnalysis.q_ a1 = ForwardAnalysis.q_ a ∧
    ForwardAnalysis.currentState_ a1 = Some cur ∧
    ForwardAnalysis.q_ a2 = (if jump then l :: ForwardAnalysis.q_ a else ForwardAnalysis.q_ a) ∧
    snapshot (ForwardAnalysis.mergePoints_ a2) l = Some stored' ∧
    ForwardAnalysis.currentState_ a2
    = (if CodeEditor.isUncondJmp code_ (ForwardAnalysis.currentIns_ a)
       then None else Some cur).
Proof.
  intros Hcur Hjmp l jump stored' Hstored.
  unfold ForwardAnalysis.afterDispatch, ForwardAnalysis.shouldJump.
  rewrite Hjmp. fold l. unfold snapshot in Hstored.
  destruct (mergePoints_at (ForwardAnalysis.mergePoints_ a) l) as [m [stored|]];
    simpl in Hstored; rewrite Hcur.
  - rewrite Hstored. simpl.
    destruct jump, (CodeEditor.isUncondJmp code_ (ForwardAnalysis.currentIns_ a)) eqn:Hu;
      simpl; rewrite ?Hu; do 2 eexists; (split; [reflexivity|]);
      (split; [reflexivity|]); simpl; rewrite ?snapshot_insert, ?Hcur; done.
  - destruct Hstored as [-> ->]. simpl.
    destruct (CodeEditor.isUncondJmp code_ (ForwardAnalysis.currentIns_ a)) eqn:Hu;
      simpl; rewrite ?Hu; do 2 eexists; (split; [reflexivity|]);
      (split; [reflexivity|]); simpl; rewrite ?snapshot_insert, ?Hcur; done.
Qed.

(** C5. At a jump, with a current state: when the target has no snapshot,
    [shouldJump] stores a clone of the current state as its snapshot and
    returns true; when it has one, the current state is merged into the
    snapshot and [shouldJump] returns what the merge reports. The target
    is pushed on the queue exactly when [shouldJump] returns true, and an
    unconditional jump then ends the branch with the current state
    discarded, while a conditional one goes on with it. *)
Theorem forward_jump_enqueues (a : ForwardAnalysis.t Loc S) (cur : S) :
  ForwardAnalysis.currentState_ a = Some cur →
  CodeEditor.isJmp code_ (ForwardAnalysis.currentIns_ a) = true →
  let l := CodeEditor.target code_ (ForwardAnalysis.currentIns_ a) in
  ∀ jump : bool, ∀ stored' : S,
  match snapshot (ForwardAnalysis.mergePoints_ a) l with
  | None => jump = true ∧ stored' = State.clone cur
  | Some stored => State.mergeWith stored cur = Ok (stored', jump)
  end →
  ∃ a1 a2,
    ForwardAnalysis.shouldJump l a = Ok (jump, a1) ∧
    snapshot (ForwardAnalysis.mergePoints_ a1) l = Some stored' ∧
    ForwardAnalysis.afterDispatch code_ a
    = (if CodeEditor.isUncondJmp code_ (ForwardAnalysis.currentIns_ a)
       then Ok (Break a2) else Ok (Continue a2)) ∧
    (ForwardAnalysis.q_ a2 = l :: ForwardAnalysis.q_ a ∨
     ForwardAnalysis.q_ a2 = ForwardAnalysis.q_ a) ∧
    (ForwardAnalysis.q_ a2 = l :: ForwardAnalysis.q_ a ↔
     snapshot (ForwardAnalysis.mergePoints_ a) l = None ∨
     ∃ stored merged_,
       snapshot (ForwardAnalysis.mergePoints_ a) l = Some stored ∧
       State.mergeWith stored cur = Ok (merged_, true)) ∧
    snapshot (ForwardAnalysis.mergePoints_ a2) l = Some stored' ∧
    ForwardAnalysis.currentState_ a2
    = (if CodeEditor.isUncondJmp code_ (ForwardAnalysis.currentIns_ a)
       then None else Some cur).
Proof.
  intros Hcur Hjmp l jump stored' Hstored.
  destruct (forward_jump_run a cur Hcur Hjmp jump stored' Hstored)
    as (a1 & a2 & Hshould & Hafter & Hsnap1 & _ & _ & Hq & Hsnap2 & Hcur2).
  exists a1, a2. split_and!; try done.
  - destruct jump; [by left|by right].
  - rewrite Hq. destruct jump.
    + split; [|done]. intros _.
      destruct (snapshot (ForwardAnalysis.mergePoints_ a) l) as [stored|]; [|by left].
      right. by exists stored, stored'.
    + split.
      * intros Heq. apply (f_equal length) in Heq. simpl in Heq. lia.
      * destruct (snapshot (ForwardAnalysis.mergePoints_ a) l) as [stored|].
        -- intros [?|(st & m' & [= <-] & Hm)]; [done|]. congruence.
        -- by destruct Hstored.
Qed.

End forward_properties.

(** The claim fails on [Listing.branch]: after three steps the driver is
    about to pop location [2] and holds no current state; the pop leaves it
    so, although the initial state is there. *)
Lemma forward_pop_resets_state_counterexample :
  ¬ Claimed.pop_resets_state (Listing.editor Listing.branch) Counter.tick 0 Fresh.forward.
Proof.
  intros Hclaim.
  specialize (Hclaim 3 _ _ eq_refl eq_refl). discriminate Hclaim.
Qed.

(** On [Listing.branch], the driver holds no current state after three
    steps, when it is about to pop location [2]. *)
Lemma forward_pop_keeps_state_witness :
  ∃ a, ForwardAnalysis.doAnalyze (Listing.editor Listing.branch) Counter.tick 0 3
         Fresh.forward = Ok (Running AtWhile a) ∧
       ForwardAnalysis.q_ a = [2%Z] ∧
       ForwardAnalysis.currentState_ a = None.
Proof.
  eexists. split; [reflexivity|]. split; [reflexivity|].
  apply (proj1 (proj2 (forward_pop_keeps_state
                         (Listing.editor Listing.branch) Counter.tick 0 Fresh.forward)) 3).
  - reflexivity.
  - lia.
Defined.

(** ** The backward driver *)

Section backward_properties.
Context {Loc : Type} `{Countable Loc} {S : Type} `{!State.State S}.
Context (code_ : CodeEditor.t Loc).
Context (doDispatch : Loc → Dispatcher.body S).

Lemma backward_shouldFollowJumpFrom_keeps (ins : Loc) (a a' : BackwardAnalysis.t Loc S)
    (follow : bool) :
  BackwardAnalysis.shouldFollowJumpFrom ins a = Ok (follow, a') →
  BackwardAnalysis.currentIns_ a' = BackwardAnalysis.currentIns_ a ∧
  BackwardAnalysis.currentState_ a' = BackwardAnalysis.currentState_ a.
Proof.
  unfold BackwardAnalysis.shouldFollowJumpFrom.
  destruct (mergePoints_at _ _) as [m [st|]];
    destruct (BackwardAnalysis.currentState_ a) as [cur|] eqn:Hcur; try done.
  - intros Hm. apply res_bind_Ok in Hm as ([st' changed] & _ & Hm).
    by injection Hm as <- <-.
  - by intros [= <- <-].
Qed.

Lemma backward_followOrigins_keeps (origins : list Loc) (a a' : BackwardAnalysis.t Loc S) :
  BackwardAnalysis.followOrigins origins a = Ok a' →
  BackwardAnalysis.currentIns_ a' = BackwardAnalysis.currentIns_ a ∧
  BackwardAnalysis.currentState_ a' = BackwardAnalysis.currentState_ a.
Proof.
  revert a. induction origins as [|origin origins IH]; intros a; simpl.
  - by intros [= <-].
  - intros Hf. apply res_bind_Ok in Hf as ([follow a1] & Hshould & Hf).
    apply backward_shouldFollowJumpFrom_keeps in Hshould as [Hins Hcur].
    apply IH in Hf as [-> ->]. by destruct follow.
Qed.

Lemma backward_atExitOrMergePoint_keeps (a a' : BackwardAnalysis.t Loc S) :
  BackwardAnalysis.atExitOrMergePoint code_ a = Ok (Continue a') →
  BackwardAnalysis.currentIns_ a' = BackwardAnalysis.currentIns_ a.
Proof.
  unfold BackwardAnalysis.atExitOrMergePoint.
  destruct (CodeEditor.isExitPoint code_ _).
  { destruct (BackwardAnalysis.currentState_ a); [done|].
    destruct (BackwardAnalysis.initialState_ a); [|done]. by intros [= <-]. }
  destruct (BackwardAnalysis.isMergePoint code_ _); [|by intros [= <-]].
  destruct (mergePoints_at _ _) as [m [st|]];
    destruct (BackwardAnalysis.currentState_ a) as [cur|]; try done;
    try by intros [= <-].
  intros Hm. apply res_bind_Ok in Hm as ([st' changed] & _ & Hm).
  destruct changed; [|done]. by injection Hm as <-.
Qed.

Lemma backward_dispatch_current_keeps (a a' : BackwardAnalysis.t Loc S) :
  BackwardAnalysis.dispatch_current doDispatch a = Ok a' →
  BackwardAnalysis.currentIns_ a' = BackwardAnalysis.currentIns_ a.
Proof.
  unfold BackwardAnalysis.dispatch_current.
  destruct (BackwardAnalysis.currentState_ a); [|done]. by intros [= <-].
Qed.

(** C6. A turn of the walk at a label that is no entry point, once the
    recorded origins of jumps to the label have been looked at: the branch
    ends, with the current state discarded, exactly when the instruction
    before the label is an exit point or does not have the label among its
    successors; otherwise the walk goes on at the instruction before the
    label. *)
Theorem backward_label_fall_through (a a1 a2 a3 : BackwardAnalysis.t Loc S) :
  let here := BackwardAnalysis.currentIns_ a in
  let previous := CodeEditor.decr code_ here in
  BackwardAnalysis.atExitOrMergePoint code_ a = Ok (Continue a1) →
  BackwardAnalysis.dispatch_current doDispatch a1 = Ok a2 →
  CodeEditor.isEntryPoint code_ here = false →
  CodeEditor.isLabel code_ here = true →
  BackwardAnalysis.followOrigins
    (BackwardAnalysis.jumpOrigins_at (BackwardAnalysis.jumpOrigins_ a2) here).2
    (BackwardAnalysis.set_jumpOrigins
       (BackwardAnalysis.jumpOrigins_at (BackwardAnalysis.jumpOrigins_ a2) here).1 a2)
  = Ok a3 →
  (BackwardAnalysis.step code_ doDispatch AtWalk a
   = Ok (Running AtWhile (BackwardAnalysis.set_currentState None a3)) ↔
   CodeEditor.isExitPoint code_ previous = true ∨
   here ∉ CodeEditor.next code_ previous) ∧
  (BackwardAnalysis.step code_ doDispatch AtWalk a
   = Ok (Running AtWalk (BackwardAnalysis.set_currentIns previous a3)) ↔
   CodeEditor.isExitPoint code_ previous = false ∧
   here ∈ CodeEditor.next code_ previous).
Proof.
  intros here previous Hfirst Hdispatch Hentry Hlabel Hfollow.
  pose proof (backward_atExitOrMergePoint_keeps _ _ Hfirst) as Hins1.
  pose proof (backward_dispatch_current_keeps _ _ Hdispatch) as Hins2.
  pose proof (backward_followOrigins_keeps _ _ _ Hfollow) as [Hins3 _].
  simpl in Hins3. rewrite Hins1 in Hins2. fold here in Hins2. rewrite Hins2 in Hins3.
  assert (BackwardAnalysis.step code_ doDispatch AtWalk a
          = if CodeEditor.isExitPoint code_ previous
               || bool_decide (here ∉ CodeEditor.next code_ previous)
            then Ok (Running AtWhile (BackwardAnalysis.set_currentState None a3))
            else Ok (Running AtWalk (BackwardAnalysis.set_currentIns previous a3)))
    as ->.
  { simpl. unfold BackwardAnalysis.walk. rewrite Hfirst. simpl.
    rewrite Hdispatch. simpl.
    unfold BackwardAnalysis.afterDispatch, BackwardAnalysis.atLabel.
    rewrite Hins2, Hentry, Hlabel.
    destruct (BackwardAnalysis.jumpOrigins_at _ _) as [j origins]. simpl in Hfollow.
    rewrite Hfollow. simpl. rewrite Hins3. fold previous.
    destruct (_ || _); simpl; [done|]. by rewrite Hins3. }
  destruct (CodeEditor.isExitPoint code_ previous); simpl.
  { split; split; try done.
    - intros _. by left.
    - by intros [? _]. }
  case_bool_decide as Hin; split; split; try done.
  - intros _. by right.
  - by intros [_ ?].
  - by intros [?|?].
Qed.

(** *** The retrieval cache *)

(** C7. [initializeCache] makes the cached state a clone of the initial
    state, the cached location the last instruction, and dispatches that
    instruction on the cached state. [advance] moves the cached location to
    the instruction before it, reloads the cached state from the initial
    state at an exit point, or from the snapshot of a merge point that has
    one, and dispatches the instruction at the new location: the cached
    state is always the state after the dispatch of the cached
    location. *)
Theorem backward_cache_dispatches (a : BackwardAnalysis.t Loc S) (ini : S) :
  BackwardAnalysis.initialState_ a = Some ini →
  (∃ a',
     BackwardAnalysisIns.initializeCache code_ doDispatch a = Ok a' ∧
     BackwardAnalysis.currentIns_ a' = CodeEditor.rbegin code_ ∧
     BackwardAnalysis.currentState_ a'
     = Some (Dispatcher.effect doDispatch (CodeEditor.rbegin code_) (State.clone ini)) ∧
     BackwardAnalysis.initialState_ a' = Some ini ∧
     BackwardAnalysis.mergePoints_ a' = BackwardAnalysis.mergePoints_ a) ∧
  (∀ cur,
     BackwardAnalysis.currentState_ a = Some cur →
     let previous := CodeEditor.decr code_ (BackwardAnalysis.currentIns_ a) in
     let reloaded :=
       if CodeEditor.isExitPoint code_ previous then State.clone ini
       else if BackwardAnalysis.isMergePoint code_ previous then
         match snapshot (BackwardAnalysis.mergePoints_ a) previous with
         | Some fixpoint => State.clone fixpoint
         | None => cur
         end
       else cur in
     ∃ a',
       BackwardAnalysisIns.advance code_ doDispatch a = Ok a' ∧
       BackwardAnalysis.currentIns_ a' = previous ∧
       BackwardAnalysis.currentState_ a'
       = Some (Dispatcher.effect doDispatch previous reloaded) ∧
       BackwardAnalysis.initialState_ a' = Some ini).
Proof.
  intros Hini. split.
  - unfold BackwardAnalysisIns.initializeCache. rewrite Hini. simpl.
    eexists. split; [reflexivity|]. done.
  - intros cur Hcur previous reloaded. subst reloaded.
    unfold BackwardAnalysisIns.advance. simpl. fold previous.
    destruct (CodeEditor.isExitPoint code_ previous).
    { rewrite Hini. simpl. eexists. split; [reflexivity|]. done. }
    destruct (BackwardAnalysis.isMergePoint code_ previous).
    + unfold snapshot.
      destruct (mergePoints_at _ _) as [m [fixpoint|]]; simpl.
      * eexists. split; [reflexivity|]. done.
      * unfold BackwardAnalysis.dispatch_current. simpl. rewrite Hcur.
        eexists. split; [reflexivity|]. done.
    + simpl. unfold BackwardAnalysis.dispatch_current. simpl. rewrite Hcur.
      eexists. split; [reflexivity|]. done.
Qed.

End backward_properties.

(** The jump at location [0] of [Listing.branch], whose target [2] has no
    snapshot yet, with the current state [1]; and the jump at location [1] of
    [Listing.skip] with the current state [3], once when the target holds the
    snapshot [2] and once when it holds the snapshot [5]. *)
Lemma forward_jump_enqueues_witness :
  (∃ a1 a2,
     ForwardAnalysis.shouldJump 2%Z
       (ForwardAnalysis.mk (Some 0) (Some 1) None 0%Z ∅ []) = Ok (true, a1) ∧
     snapshot (ForwardAnalysis.mergePoints_ a1) 2%Z = Some 1 ∧
     ForwardAnalysis.afterDispatch (Listing.editor Listing.branch)
       (ForwardAnalysis.mk (Some 0) (Some 1) None 0%Z ∅ []) = Ok (Continue a2) ∧
     ForwardAnalysis.q_ a2 = [2%Z]) ∧
  (∃ a2,
     ForwardAnalysis.afterDispatch (Listing.editor Listing.skip)
       (ForwardAnalysis.mk (Some 0) (Some 3) None 1%Z {[ 3%Z := Some 2 ]} [])
     = Ok (Continue a2) ∧
     ForwardAnalysis.q_ a2 = [3%Z] ∧
     snapshot (ForwardAnalysis.mergePoints_ a2) 3%Z = Some 3) ∧
  (∃ a2,
     ForwardAnalysis.afterDispatch (Listing.editor Listing.skip)
       (ForwardAnalysis.mk (Some 0) (Some 3) None 1%Z {[ 3%Z := Some 5 ]} [])
     = Ok (Continue a2) ∧
     ForwardAnalysis.q_ a2 ≠ [3%Z] ∧
     snapshot (ForwardAnalysis.mergePoints_ a2) 3%Z = Some 5).
Proof.
  split; [|split].
  - destruct (forward_jump_enqueues (Listing.editor Listing.branch)
                (ForwardAnalysis.mk (Some 0) (Some 1) None 0%Z ∅ []) 1
                eq_refl eq_refl true 1)
      as (a1 & a2 & Hshould & Hsnap & Hafter & _ & Hq & _);
      [vm_compute; split; reflexivity|].
    exists a1, a2. split; [exact Hshould|]. split; [exact Hsnap|].
    split; [exact Hafter|]. apply Hq. left. reflexivity.
  - destruct (forward_jump_enqueues (Listing.editor Listing.skip)
                (ForwardAnalysis.mk (Some 0) (Some 3) None 1%Z {[ 3%Z := Some 2 ]} []) 3
                eq_refl eq_refl true 3)
      as (a1 & a2 & _ & _ & Hafter & _ & Hq & Hsnap & _);
      [vm_compute; reflexivity|].
    exists a2. split; [exact Hafter|]. split; [|exact Hsnap].
    apply Hq. right. exists 2, 3. split; reflexivity.
  - destruct (forward_jump_enqueues (Listing.editor Listing.skip)
                (ForwardAnalysis.mk (Some 0) (Some 3) None 1%Z {[ 3%Z := Some 5 ]} []) 3
                eq_refl eq_refl false 5)
      as (a1 & a2 & _ & _ & Hafter & _ & Hq & Hsnap & _);
      [vm_compute; reflexivity|].
    exists a2. split; [exact Hafter|]. split; [|exact Hsnap].
    intros Hpushed. apply Hq in Hpushed as [Hnone|(stored & merged_ & Hsome & Hmerge)].
    + discriminate Hnone.
    + injection Hsome as <-. discriminate Hmerge.
Defined.

(** The label at location [3]: in [Listing.skip] the instruction before it
    leads to it and the walk goes on there; in [Listing.tail] the instruction
    before it is a return and the branch ends. *)
Lemma backward_label_fall_through_witness :
  (∃ a3,
     BackwardAnalysis.step (Listing.editor Listing.skip) Counter.tick AtWalk
       (BackwardAnalysis.mk (Some 0) (Some 1) None 3%Z ∅ {[ 3%Z := [1%Z] ]} [])
     = Ok (Running AtWalk (BackwardAnalysis.set_currentIns 2%Z a3)) ∧
     BackwardAnalysis.q_ a3 = [1%Z]) ∧
  (∃ a3,
     BackwardAnalysis.step (Listing.editor Listing.tail) Counter.tick AtWalk
       (BackwardAnalysis.mk (Some 0) (Some 1) None 3%Z ∅ {[ 3%Z := [0%Z] ]} [2%Z])
     = Ok (Running AtWhile (BackwardAnalysis.set_currentState None a3)) ∧
     BackwardAnalysis.q_ a3 = [0%Z; 2%Z]).
Proof.
  split.
  - eexists. split.
    + eapply (backward_label_fall_through
                (Listing.editor Listing.skip) Counter.tick
                (BackwardAnalysis.mk (Some 0) (Some 1) None 3%Z ∅ {[ 3%Z := [1%Z] ]} []));
        [reflexivity|reflexivity|reflexivity|reflexivity|reflexivity|].
      split; [reflexivity|]. vm_compute. set_solver.
    + reflexivity.
  - eexists. split.
    + eapply (backward_label_fall_through
                (Listing.editor Listing.tail) Counter.tick
                (BackwardAnalysis.mk (Some 0) (Some 1) None 3%Z ∅ {[ 3%Z := [0%Z] ]} [2%Z]));
        [reflexivity|reflexivity|reflexivity|reflexivity|reflexivity|].
      left. reflexivity.
    + reflexivity.
Defined.

(** The cache over [Listing.skip] and [Listing.tail], with the initial state
    [0]: after the reset; after a step to a plain instruction; after a step
    to a return; after a step to a jump that has the snapshot [7]. *)
Lemma backward_cache_dispatches_witness :
  (∃ a',
     BackwardAnalysisIns.initializeCache (Listing.editor Listing.skip) Counter.tick
       (BackwardAnalysis.mk (Some 0) None None 0%Z ∅ ∅ []) = Ok a' ∧
     BackwardAnalysis.currentIns_ a' = 4%Z ∧
     BackwardAnalysis.currentState_ a' = Some 1) ∧
  (∃ a',
     BackwardAnalysisIns.advance (Listing.editor Listing.skip) Counter.tick
       (BackwardAnalysis.mk (Some 0) (Some 1) None 4%Z ∅ ∅ []) = Ok a' ∧
     BackwardAnalysis.currentIns_ a' = 3%Z ∧
     BackwardAnalysis.currentState_ a' = Some 2) ∧
  (∃ a',
     BackwardAnalysisIns.advance (Listing.editor Listing.tail) Counter.tick
       (BackwardAnalysis.mk (Some 0) (Some 2) None 3%Z ∅ ∅ []) = Ok a' ∧
     BackwardAnalysis.currentIns_ a' = 2%Z ∧
     BackwardAnalysis.currentState_ a' = Some 1) ∧
  (∃ a',
     BackwardAnalysisIns.advance (Listing.editor Listing.skip) Counter.tick
       (BackwardAnalysis.mk (Some 0) (Some 3) None 2%Z {[ 1%Z := Some 7 ]} ∅ []) = Ok a' ∧
     BackwardAnalysis.currentIns_ a' = 1%Z ∧
     BackwardAnalysis.currentState_ a' = Some 8).
Proof.
  split; [|split; [|split]].
  - destruct (proj1 (backward_cache_dispatches
                       (Listing.editor Listing.skip) Counter.tick
                       (BackwardAnalysis.mk (Some 0) None None 0%Z ∅ ∅ []) 0 eq_refl))
      as (a' & Hinit & Hins & Hcur & _).
    exists a'. split; [exact Hinit|]. split; [exact Hins|exact Hcur].
  - destruct (proj2 (backward_cache_dispatches
                       (Listing.editor Listing.skip) Counter.tick
                       (BackwardAnalysis.mk (Some 0) (Some 1) None 4%Z ∅ ∅ []) 0 eq_refl)
                1 eq_refl)
      as (a' & Hadv & Hins & Hcur & _).
    exists a'. split; [exact Hadv|]. split; [exact Hins|exact Hcur].
  - destruct (proj2 (backward_cache_dispatches
                       (Listing.editor Listing.tail) Counter.tick
                       (BackwardAnalysis.mk (Some 0) (Some 2) None 3%Z ∅ ∅ []) 0 eq_refl)
                2 eq_refl)
      as (a' & Hadv & Hins & Hcur & _).
    exists a'. split; [exact Hadv|]. split; [exact Hins|exact Hcur].
  - destruct (proj2 (backward_cache_dispatches
                       (Listing.editor Listing.skip) Counter.tick
                       (BackwardAnalysis.mk (Some 0) (Some 3) None 2%Z
                          {[ 1%Z := Some 7 ]} ∅ []) 0 eq_refl)
                3 eq_refl)
      as (a' & Hadv & Hins & Hcur & _).
    exists a'. split; [exact Hadv|]. split; [exact Hins|exact Hcur].
Defined.

(** * Further properties of the abstract states *)

Section stack_more.
Context {V : Type} `{!AValue.AValue V}.
Import Described.

Lemma pop_front_times_drop (num : nat) (stack_ : list V) :
  num ≤ length stack_ →
  AbstractStack.pop_front_times num stack_ = Ok (drop num stack_).
Proof.
  revert stack_. induction num as [|num IH]; intros [|v stack_] Hle; simpl in *;
    try done; try lia.
  apply IH. lia.
Qed.

Lemma pop_num_drop (num : nat) (stack_ : list V) :
  num ≤ length stack_ → AbstractStack.pop_num num stack_ = Ok (drop num stack_).
Proof.
  intros Hle. unfold AbstractStack.pop_num. rewrite decide_True by done.
  by apply pop_front_times_drop.
Qed.

(** X1. The bulk pop removes the [num] topmost values, fails its assertion
    exactly when [num] exceeds the depth, and popping [n + m] values at once
    is popping [n] and then [m]. *)
Theorem stack_pop_num_drops (n m : nat) (stack_ : list V) :
  (n ≤ AbstractStack.depth stack_ →
   AbstractStack.pop_num n stack_ = Ok (drop n stack_)) ∧
  (AbstractStack.depth stack_ < n → AbstractStack.pop_num n stack_ = Fault) ∧
  AbstractStack.pop_num (n + m) stack_
  = AbstractStack.pop_num n stack_ ≫= AbstractStack.pop_num m.
Proof.
  unfold AbstractStack.depth. split; [apply pop_num_drop|]. split.
  - intros Hlt. unfold AbstractStack.pop_num. rewrite decide_False by lia. done.
  - destruct (decide (n ≤ length stack_)) as [Hn|Hn].
    + rewrite (pop_num_drop n) by done. simpl.
      destruct (decide (n + m ≤ length stack_)) as [Hm|Hm].
      * rewrite !pop_num_drop; rewrite ?length_drop; try lia.
        by rewrite drop_drop.
      * unfold AbstractStack.pop_num.
        rewrite !decide_False; rewrite ?length_drop; try lia. done.
    + unfold AbstractStack.pop_num. rewrite !decide_False by lia. done.
Qed.

(** X2. The stack is last in, first out: a pop undoes a push and gives the
    pushed value, the pushed value is at index 0 and the earlier values one
    index further, and after pushing several values the bulk pop of as many
    gives the stack back. *)
Theorem stack_push_pop_lifo (v : V) (vs : list V) (stack_ : list V) :
  AbstractStack.pop (AbstractStack.push v stack_) = Ok (v, stack_) ∧
  AbstractStack.top (AbstractStack.push v stack_) = Ok v ∧
  AbstractStack.empty (AbstractStack.push v stack_) = false ∧
  AbstractStack.index (AbstractStack.push v stack_) 0 = Ok v ∧
  (∀ idx, AbstractStack.index (AbstractStack.push v stack_) (S idx)
          = AbstractStack.index stack_ idx) ∧
  AbstractStack.depth (foldl (λ st x, AbstractStack.push x st) stack_ vs)
  = length vs + AbstractStack.depth stack_ ∧
  AbstractStack.pop_num (length vs) (foldl (λ st x, AbstractStack.push x st) stack_ vs)
  = Ok stack_.
Proof.
  assert (∀ st, foldl (λ st x, AbstractStack.push x st) st vs = reverse vs ++ st) as Hpush.
  { induction vs as [|x vs IH]; intros st; simpl; [done|].
    by rewrite IH, reverse_cons, <-(assoc_L (++)). }
  split; [done|]. split; [done|]. split; [done|]. split; [done|]. split; [done|].
  rewrite Hpush. unfold AbstractStack.depth. split.
  - by rewrite length_app, length_reverse.
  - rewrite pop_num_drop by (rewrite length_app, length_reverse; lia).
    by rewrite <-(length_reverse vs), drop_app_length.
Qed.

Lemma stack_mergeWith_eq (A B : list V) :
  length A = length B →
  AbstractStack.mergeWith A B
  = Ok (merged A B, foldl (λ r c, c || r) false (reports A B)).
Proof.
  intros Hlen. unfold AbstractStack.mergeWith, AbstractStack.depth.
  rewrite decide_True by done.
  apply (mergeWith_loop_app A B [] [] false); done.
Qed.

Lemma stack_mergeWith_Ok (A B A' : list V) (changed : bool) :
  AbstractStack.mergeWith A B = Ok (A', changed) → length A = length B.
Proof.
  unfold AbstractStack.mergeWith, AbstractStack.depth. by case_decide.
Qed.

End stack_more.

(** A bulk pop of two values from a stack of three, and of three values from
    a stack of two. *)
Lemma stack_pop_num_drops_witness :
  AbstractStack.pop_num 2 [Flat.Any; Flat.Bottom; Flat.Const 3] = Ok [Flat.Const 3] ∧
  AbstractStack.pop_num 3 [Flat.Any; Flat.Bottom] = Fault.
Proof.
  split.
  - apply (proj1 (stack_pop_num_drops 2 0 [Flat.Any; Flat.Bottom; Flat.Const 3])).
    simpl. lia.
  - apply (proj1 (proj2 (stack_pop_num_drops 3 0 [Flat.Any; Flat.Bottom]))).
    simpl. lia.
Defined.

Section environment_more.
Context {K : Type} `{Countable K} {V : Type} `{!AValue.AValue V}.
Import Described.

Lemma env_mergeWith_flag (self other : AbstractEnvironment.t K V) :
  (AbstractEnvironment.mergeWith self other).2 = true ↔
  loops_change (AbstractEnvironment.env_ self) (AbstractEnvironment.env_ other) ∨
  (AbstractEnvironment.parent_ self = None ∧
   is_Some (AbstractEnvironment.parent_ other)) ∨
  (∃ p op, AbstractEnvironment.parent_ self = Some p ∧
           AbstractEnvironment.parent_ other = Some op ∧
           (AbstractEnvironment.mergeWith p op).2 = true).
Proof.
  destruct self as [m p], other as [o op]; simpl.
  destruct (mergeWith_maps_spec m o) as [_ Hr].
  destruct (AbstractEnvironment.mergeWith_maps m o) as [m' r']; simpl in *.
  destruct p as [p|], op as [op|]; simpl.
  - destruct (AbstractEnvironment.mergeWith p op) as [p' changed] eqn:Hp; simpl.
    rewrite orb_true_iff, Hr. split.
    + intros [->|?]; [|by left]. right; right. exists p, op. by rewrite Hp.
    + intros [?|[[? _]|(p0 & op0 & [= <-] & [= <-] & Hc)]]; [by right|done|].
      rewrite Hp in Hc. by left.
  - rewrite Hr. split; [by left|].
    intros [?|[[? _]|(p0 & op0 & _ & ? & _)]]; done.
  - split; [|done]. intros _. right; left. split; [done|]. by exists op.
  - rewrite Hr. split; [by left|].
    intros [?|[[_ [? ?]]|(p0 & op0 & ? & _)]]; done.
Qed.

Lemma chain_mergeEnv_length (self other : AbstractEnvironment.t K V) :
  length (chain (mergeEnv self other)) = length (chain self) `max` length (chain other).
Proof.
  revert other. induction self as [m|m p IH] using env_parent_ind; intros [o op]; simpl.
  - destruct op as [op|]; simpl; lia.
  - destruct op as [op|]; simpl; [|lia]. rewrite IH. lia.
Qed.

(** X3. A merge never drops a binding or a scope: the keys bound locally
    afterwards are those bound locally in either environment, there is a
    parent afterwards exactly when either had one, and the scope chain is as
    long as the longer of the two. *)
Theorem env_mergeWith_keeps_bindings (self other : AbstractEnvironment.t K V) (name : K) :
  let r := (AbstractEnvironment.mergeWith self other).1 in
  AbstractEnvironment.has r name
  = AbstractEnvironment.has self name || AbstractEnvironment.has other name ∧
  AbstractEnvironment.hasParent r
  = AbstractEnvironment.hasParent self || AbstractEnvironment.hasParent other ∧
  length (chain r) = length (chain self) `max` length (chain other).
Proof.
  simpl. rewrite mergeWith_mergeEnv. split; [|split].
  - destruct self as [m p], other as [o op]. unfold AbstractEnvironment.has. simpl.
    rewrite lookup_merge. destruct (m !! name), (o !! name); done.
  - destruct self as [m [p|]], other as [o [op|]]; done.
  - apply chain_mergeEnv_length.
Qed.

(** When the values' merges report changes truthfully, so does the merge of
    environments: a merge that reports no change has changed nothing. *)
Lemma env_mergeWith_unchanged (self other : AbstractEnvironment.t K V) :
  (∀ a b : V, (AValue.mergeWith a b).2 = false → (AValue.mergeWith a b).1 = a) →
  (AbstractEnvironment.mergeWith self other).2 = false →
  (AbstractEnvironment.mergeWith self other).1 = self.
Proof.
  intros Htruth. revert other.
  induction self as [m|m p IH] using env_parent_ind; intros [o op] Hflag;
    rewrite mergeWith_mergeEnv;
    apply not_true_iff_false in Hflag; rewrite env_mergeWith_flag in Hflag;
    simpl in *.
  - f_equal.
    + apply map_eq. intros k. rewrite lookup_merge.
      destruct (m !! k) as [x|] eqn:Hm, (o !! k) as [y|] eqn:Ho; simpl; try done.
      * f_equal. apply Htruth. apply not_true_iff_false. intros Hc.
        apply Hflag. left. right; left. by exists k, x, y.
      * f_equal. apply Htruth. apply not_true_iff_false. intros Hc.
        apply Hflag. left. right; right. by exists k, x.
      * exfalso. apply Hflag. left. left. by exists k, y.
    + destruct op as [op|]; [|done]. exfalso. apply Hflag. right; left. eauto.
  - f_equal.
    + apply map_eq. intros k. rewrite lookup_merge.
      destruct (m !! k) as [x|] eqn:Hm, (o !! k) as [y|] eqn:Ho; simpl; try done.
      * f_equal. apply Htruth. apply not_true_iff_false. intros Hc.
        apply Hflag. left. right; left. by exists k, x, y.
      * f_equal. apply Htruth. apply not_true_iff_false. intros Hc.
        apply Hflag. left. right; right. by exists k, x.
      * exfalso. apply Hflag. left. left. by exists k, y.
    + destruct op as [op|]; [|done]. f_equal.
      rewrite <-mergeWith_mergeEnv. apply IH. apply not_true_iff_false.
      intros Hc. apply Hflag. right; right. by exists p, op.
Qed.

(** When merging a value with itself changes nothing, merging an environment
    with itself changes nothing and reports no change. *)
Lemma env_mergeWith_self (self : AbstractEnvironment.t K V) :
  (∀ a : V, AValue.mergeWith a a = (a, false)) →
  AbstractEnvironment.mergeWith self self = (self, false).
Proof.
  intros Hidem. induction self as [m|m p IH] using env_parent_ind.
  - apply injective_projections.
    + rewrite mergeWith_mergeEnv. simpl. f_equal.
      apply map_eq. intros k. rewrite lookup_merge.
      destruct (m !! k) as [x|]; simpl; [|done]. by rewrite Hidem.
    + apply not_true_iff_false. rewrite env_mergeWith_flag. simpl.
      intros [[(k & y & Ho & Hm)|[(k & x & y & Hm & Ho & Hc)|(k & x & Hm & Ho & _)]]
             |[[_ [? ?]]|(p0 & op0 & ? & _)]]; try congruence.
      rewrite Hm in Ho. injection Ho as <-. by rewrite Hidem in Hc.
  - apply injective_projections.
    + rewrite mergeWith_mergeEnv. simpl. f_equal.
      * apply map_eq. intros k. rewrite lookup_merge.
        destruct (m !! k) as [x|]; simpl; [|done]. by rewrite Hidem.
      * f_equal. rewrite <-mergeWith_mergeEnv. by rewrite IH.
    + apply not_true_iff_false. rewrite env_mergeWith_flag. simpl.
      intros [[(k & y & Ho & Hm)|[(k & x & y & Hm & Ho & Hc)|(k & x & Hm & Ho & _)]]
             |[[? _]|(p0 & op0 & [= <-] & [= <-] & Hc)]]; try congruence.
      * rewrite Hm in Ho. injection Ho as <-. by rewrite Hidem in Hc.
      * by rewrite IH in Hc.
Qed.

(** X4. [mergeAll] merges the value into the bindings of the local map only:
    the same keys stay bound, the parent is left alone, and [find] gives the
    merged value for a key bound locally and the old value, from the
    parents, for every other key. *)
Theorem env_mergeAll_locals_only (v : V) (e : AbstractEnvironment.t K V) (name : K) :
  AbstractEnvironment.has (AbstractEnvironment.mergeAll v e) name
  = AbstractEnvironment.has e name ∧
  AbstractEnvironment.parent_ (AbstractEnvironment.mergeAll v e)
  = AbstractEnvironment.parent_ e ∧
  AbstractEnvironment.find (AbstractEnvironment.mergeAll v e) name
  = if AbstractEnvironment.has e name
    then (AValue.mergeWith (AbstractEnvironment.find e name) v).1
    else AbstractEnvironment.find e name.
Proof.
  destruct e as [m p]. unfold AbstractEnvironment.mergeAll, AbstractEnvironment.has.
  simpl. rewrite lookup_fmap. destruct (m !! name) as [x|]; simpl; done.
Qed.

(** X5. The non-const [operator[]] gives the value the const one gives;
    after the access [find] gives that value too, whatever a parent binds,
    the other keys are found as before, a repeated access changes nothing,
    and an access to a key bound locally leaves the environment as it
    is. *)
Theorem env_index_then_find (e : AbstractEnvironment.t K V) (name : K) :
  ∃ e',
    AbstractEnvironment.index e name = Ok (e', AbstractEnvironment.index_const e name) ∧
    AbstractEnvironment.find e' name = AbstractEnvironment.index_const e name ∧
    (∀ other, other ≠ name →
       AbstractEnvironment.find e' other = AbstractEnvironment.find e other) ∧
    AbstractEnvironment.index e' name = Ok (e', AbstractEnvironment.index_const e name) ∧
    (AbstractEnvironment.has e name = true → e' = e).
Proof.
  destruct e as [m p].
  unfold AbstractEnvironment.index, AbstractEnvironment.index_const,
    AbstractEnvironment.has. simpl.
  destruct (m !! name) as [x|] eqn:Hm; simpl.
  - exists (AbstractEnvironment.mk m p). simpl. rewrite Hm. done.
  - rewrite lookup_insert_eq. eexists. split; [done|]. simpl.
    rewrite lookup_insert_eq. split; [done|]. split; [|split; [done|]].
    + intros other Hne. by rewrite lookup_insert_ne.
    + done.
Qed.

(** X6. In an environment without parent the const [operator[]] and [find]
    agree on every key, and in every environment they agree on the keys the
    local map binds. *)
Theorem env_index_const_is_find (e : AbstractEnvironment.t K V) (name : K) :
  AbstractEnvironment.hasParent e = false ∨ AbstractEnvironment.has e name = true →
  AbstractEnvironment.index_const e name = AbstractEnvironment.find e name.
Proof.
  destruct e as [m p]. unfold AbstractEnvironment.index_const,
    AbstractEnvironment.hasParent, AbstractEnvironment.has. simpl.
  destruct (m !! name) as [x|]; [done|]. intros [Hp|Hhas].
  - destruct p as [p|]; [|done]. apply bool_decide_eq_false in Hp.
    destruct Hp. by eexists.
  - apply bool_decide_eq_true in Hhas. by destruct Hhas.
Qed.

End environment_more.

Section state_more.
Context {K : Type} `{Countable K} {V : Type} `{!AValue.AValue V}.
Context {G : Type} `{!Global.Global G}.
Import Described.

Lemma stack_unchanged (A B : list V) :
  (∀ a b : V, (AValue.mergeWith a b).2 = false → (AValue.mergeWith a b).1 = a) →
  length A = length B →
  foldl (λ r c, c || r) false (reports A B) = false →
  merged A B = A.
Proof.
  intros Htruth Hlen Hflag. apply not_true_iff_false in Hflag.
  rewrite foldl_orb_true, reports_true in Hflag.
  apply list_eq. intros i. unfold merged. rewrite lookup_zip_with.
  destruct (A !! i) as [a|] eqn:Ha; simpl; [|done].
  destruct (B !! i) as [b|] eqn:Hb; simpl.
  - f_equal. apply Htruth. apply not_true_iff_false. intros Hc.
    apply Hflag. right. by exists i, a, b.
  - apply lookup_lt_Some in Ha. apply lookup_ge_None in Hb. lia.
Qed.

Lemma stack_self (A : list V) :
  (∀ a : V, AValue.mergeWith a a = (a, false)) →
  AbstractStack.mergeWith A A = Ok (A, false).
Proof.
  intros Hidem. rewrite stack_mergeWith_eq by done. f_equal. f_equal.
  - apply list_eq. intros i. unfold merged. rewrite lookup_zip_with.
    destruct (A !! i) as [a|]; simpl; [|done]. by rewrite Hidem.
  - apply not_true_iff_false. rewrite foldl_orb_true, reports_true.
    intros [?|(i & a & b & Ha & Hb & Hc)]; [done|].
    rewrite Ha in Hb. injection Hb as <-. by rewrite Hidem in Hc.
Qed.

(** X7. The merge of two states fails exactly when their stacks differ in
    depth. Otherwise it merges the global parts, the stacks and the
    environments, each with its own merge, and reports a change exactly when
    one of the three does. *)
Theorem state_mergeWith_parts (self other : AbstractState.t K V G) :
  (AbstractState.mergeWith self other = Fault ↔
   AbstractStack.depth (AbstractState.stack_ self)
   ≠ AbstractStack.depth (AbstractState.stack_ other)) ∧
  (∀ r changed,
     AbstractState.mergeWith self other = Ok (r, changed) →
     AbstractStack.mergeWith (AbstractState.stack_ self) (AbstractState.stack_ other)
     = Ok (AbstractState.stack_ r,
           foldl (λ r c, c || r) false
             (reports (AbstractState.stack_ self) (AbstractState.stack_ other))) ∧
     AbstractState.env_ r
     = (AbstractEnvironment.mergeWith (AbstractState.env_ self)
          (AbstractState.env_ other)).1 ∧
     AbstractState.global_ r
     = (Global.mergeWith (AbstractState.global_ self) (AbstractState.global_ other)).1 ∧
     changed
     = (AbstractEnvironment.mergeWith (AbstractState.env_ self)
          (AbstractState.env_ other)).2
       || (foldl (λ r c, c || r) false
             (reports (AbstractState.stack_ self) (AbstractState.stack_ other))
           || (Global.mergeWith (AbstractState.global_ self)
                 (AbstractState.global_ other)).2)).
Proof.
  destruct self as [st e g], other as [st' e' g'].
  unfold AbstractState.mergeWith, AbstractStack.depth. simpl.
  destruct (Global.mergeWith g g') as [g1 c1].
  destruct (decide (length st = length st')) as [Hlen|Hlen].
  - rewrite stack_mergeWith_eq by done. simpl.
    destruct (AbstractEnvironment.mergeWith e e') as [e1 c3]. simpl.
    split; [done|]. intros r changed [= <- <-]. simpl.
    by rewrite orb_false_r.
  - unfold AbstractStack.mergeWith, AbstractStack.depth.
    rewrite decide_False by done. simpl. done.
Qed.

(** X8. When the merges of the values and of the global part report changes
    truthfully, a merge of states that reports no change has left the state
    as it was. *)
Theorem state_mergeWith_unchanged_sound (self other r : AbstractState.t K V G) :
  (∀ a b : V, (AValue.mergeWith a b).2 = false → (AValue.mergeWith a b).1 = a) →
  (∀ a b : G, (Global.mergeWith a b).2 = false → (Global.mergeWith a b).1 = a) →
  AbstractState.mergeWith self other = Ok (r, false) →
  r = self.
Proof.
  intros Hvalue Hglobal. destruct self as [st e g], other as [st' e' g'].
  unfold AbstractState.mergeWith. simpl.
  destruct (Global.mergeWith g g') as [g1 c1] eqn:Hg.
  destruct (AbstractStack.mergeWith st st') as [[st1 c2]|] eqn:Hst; [|done]. simpl.
  destruct (AbstractEnvironment.mergeWith e e') as [e1 c3] eqn:He.
  intros [= <- Hflags].
  apply orb_false_iff in Hflags as [-> Hflags].
  apply orb_false_iff in Hflags as [-> Hflags].
  apply orb_false_iff in Hflags as [-> _].
  pose proof (stack_mergeWith_Ok _ _ _ _ Hst) as Hlen.
  rewrite stack_mergeWith_eq in Hst by done. injection Hst as <- Hc2.
  f_equal.
  - by apply stack_unchanged.
  - pose proof (env_mergeWith_unchanged e e' Hvalue) as Henv.
    rewrite He in Henv. by apply Henv.
  - pose proof (Hglobal g g') as Hg'. rewrite Hg in Hg'. by apply Hg'.
Qed.

(** X9. When merging a value, or a global part, with itself changes nothing,
    merging a state with its own clone gives the state back and reports no
    change. *)
Theorem state_mergeWith_clone_fixpoint (self : AbstractState.t K V G) :
  (∀ a : V, AValue.mergeWith a a = (a, false)) →
  (∀ a : G, Global.mergeWith a a = (a, false)) →
  AbstractState.mergeWith self (AbstractState.clone self) = Ok (self, false).
Proof.
  intros Hvalue Hglobal. destruct self as [st e g].
  unfold AbstractState.mergeWith, AbstractState.clone. simpl.
  rewrite Hglobal, stack_self by done. simpl.
  by rewrite clone_eq, env_mergeWith_self.
Qed.

End state_more.

(** The flat domain reports changes truthfully, and merging a value with
    itself changes nothing. *)
Lemma Flat_merge_truthful (a b : Flat.t) :
  (AValue.mergeWith a b).2 = false → (AValue.mergeWith a b).1 = a.
Proof.
  simpl. intros Hflag. apply bool_decide_eq_false in Hflag.
  by apply dec_stable.
Qed.

Lemma Flat_merge_self (a : Flat.t) : AValue.mergeWith a a = (a, false).
Proof.
  assert (Flat.join a a = a) as Hjoin.
  { destruct a; simpl; try done; by rewrite decide_True. }
  simpl. unfold Flat.mergeWith. rewrite Hjoin. f_equal.
  by apply bool_decide_eq_false; intros ?.
Qed.

Lemma Dummy_merge_truthful (a b : DummyState.t) :
  (Global.mergeWith a b).2 = false → (Global.mergeWith a b).1 = a.
Proof. done. Qed.

Lemma Dummy_merge_self (a : DummyState.t) : Global.mergeWith a a = (a, false).
Proof. done. Qed.

(** Key [9] of [Scopes.right_], bound by the parent only, and key [3],
    bound locally. *)
Lemma env_index_then_find_witness :
  ∃ e',
    AbstractEnvironment.index Scopes.right_ 3 = Ok (e', Flat.Const 7) ∧
    e' = Scopes.right_.
Proof.
  destruct (env_index_then_find Scopes.right_ 3) as (e' & Hindex & _ & _ & _ & Hsame).
  exists e'. split; [exact Hindex|]. apply Hsame. reflexivity.
Defined.

Lemma env_index_const_is_find_witness :
  AbstractEnvironment.index_const Scopes.left_ 7 = AbstractEnvironment.find Scopes.left_ 7 ∧
  AbstractEnvironment.index_const Scopes.right_ 3 = AbstractEnvironment.find Scopes.right_ 3.
Proof.
  split.
  - apply (env_index_const_is_find Scopes.left_ 7). left. reflexivity.
  - apply (env_index_const_is_find Scopes.right_ 3). right. reflexivity.
Defined.

(** [Scopes.shallow] cannot be merged into [Scopes.state]; [Scopes.state]
    merged with itself gives its own environment. *)
Lemma state_mergeWith_parts_witness :
  AbstractState.mergeWith Scopes.state Scopes.shallow = Fault ∧
  ∃ r changed,
    AbstractState.mergeWith Scopes.state Scopes.state = Ok (r, changed) ∧
    AbstractState.env_ r
    = (AbstractEnvironment.mergeWith Scopes.right_ Scopes.right_).1.
Proof.
  split.
  - apply (proj1 (state_mergeWith_parts Scopes.state Scopes.shallow)).
    simpl. lia.
  - destruct (AbstractState.mergeWith Scopes.state Scopes.state)
      as [[r changed]|] eqn:Hmerge; [|by vm_compute in Hmerge].
    exists r, changed. split; [reflexivity|].
    apply (proj2 (state_mergeWith_parts Scopes.state Scopes.state) r changed Hmerge).
Defined.

Lemma state_mergeWith_unchanged_sound_witness :
  ∃ r, AbstractState.mergeWith Scopes.state Scopes.state = Ok (r, false) ∧
       r = Scopes.state.
Proof.
  destruct (AbstractState.mergeWith Scopes.state Scopes.state)
    as [[r changed]|] eqn:Hmerge; [|by vm_compute in Hmerge].
  assert (changed = false) as ->.
  { vm_compute in Hmerge. by injection Hmerge as _ <-. }
  exists r. split; [reflexivity|].
  apply (state_mergeWith_unchanged_sound Scopes.state Scopes.state r
           Flat_merge_truthful Dummy_merge_truthful Hmerge).
Defined.

Lemma state_mergeWith_clone_fixpoint_witness :
  AbstractState.mergeWith Scopes.state (AbstractState.clone Scopes.state)
  = Ok (Scopes.state, false).
Proof.
  apply (state_mergeWith_clone_fixpoint Scopes.state Flat_merge_self Dummy_merge_self).
Defined.

(** * Further properties of the forward driver *)

Section forward_more.
Context {Loc : Type} `{Countable Loc} {S : Type} `{!State.State S}.
Context (code_ : CodeEditor.t Loc).
Context (doDispatch : Loc → Dispatcher.body S) (initialState : S).
Import Shapes.

Lemma forward_walk_plain (a : ForwardAnalysis.t Loc S) (s : S) :
  CodeEditor.isLabel code_ (ForwardAnalysis.currentIns_ a) = false →
  CodeEditor.isJmp code_ (ForwardAnalysis.currentIns_ a) = false →
  CodeEditor.isExitPoint code_ (ForwardAnalysis.currentIns_ a) = false →
  ForwardAnalysis.currentState_ a = Some s →
  ForwardAnalysis.walk code_ doDispatch a
  = Ok (Continue
          (ForwardAnalysis.mk (ForwardAnalysis.initialState_ a)
             (Some (Dispatcher.effect doDispatch (ForwardAnalysis.currentIns_ a) s))
             (ForwardAnalysis.finalState_ a)
             (CodeEditor.incr code_ (ForwardAnalysis.currentIns_ a))
             (ForwardAnalysis.mergePoints_ a) (ForwardAnalysis.q_ a))).
Proof.
  intros Hlabel Hjmp Hexit Hcur.
  unfold ForwardAnalysis.walk, ForwardAnalysis.atLabel. rewrite Hlabel. simpl.
  unfold ForwardAnalysis.dispatch_current. rewrite Hcur. simpl.
  unfold ForwardAnalysis.afterDispatch. simpl. by rewrite Hjmp, Hexit.
Qed.

Lemma forward_walk_exit (a : ForwardAnalysis.t Loc S) (s : S) :
  CodeEditor.isLabel code_ (ForwardAnalysis.currentIns_ a) = false →
  CodeEditor.isJmp code_ (ForwardAnalysis.currentIns_ a) = false →
  CodeEditor.isExitPoint code_ (ForwardAnalysis.currentIns_ a) = true →
  ForwardAnalysis.currentState_ a = Some s →
  ForwardAnalysis.finalState_ a = None →
  ForwardAnalysis.walk code_ doDispatch a
  = Ok (Break
          (ForwardAnalysis.mk (ForwardAnalysis.initialState_ a) None
             (Some (Dispatcher.effect doDispatch (ForwardAnalysis.currentIns_ a) s))
             (ForwardAnalysis.currentIns_ a)
             (ForwardAnalysis.mergePoints_ a) (ForwardAnalysis.q_ a))).
Proof.
  intros Hlabel Hjmp Hexit Hcur Hfinal.
  unfold ForwardAnalysis.walk, ForwardAnalysis.atLabel. rewrite Hlabel. simpl.
  unfold ForwardAnalysis.dispatch_current. rewrite Hcur. simpl.
  unfold ForwardAnalysis.afterDispatch. simpl. by rewrite Hjmp, Hexit, Hfinal.
Qed.

Lemma forward_steps_Finished (n k : nat) (p : pc) (a a' : ForwardAnalysis.t Loc S) :
  ForwardAnalysis.steps code_ doDispatch n p a = Ok (Finished a') →
  ForwardAnalysis.steps code_ doDispatch (n + k) p a = Ok (Finished a').
Proof.
  revert p a. induction n as [|n IH]; intros p a; simpl; [done|].
  destruct (ForwardAnalysis.step code_ doDispatch p a) as [[p1 a1|a1]|]; simpl;
    [apply IH|done|done].
Qed.

Lemma forward_walk_line (path : list Loc) (exit_ : Loc) (a : ForwardAnalysis.t Loc S)
    (s : S) :
  follows code_ (ForwardAnalysis.currentIns_ a) (path ++ [exit_]) →
  (∀ l, l ∈ path ++ [exit_] →
        CodeEditor.isLabel code_ l = false ∧ CodeEditor.isJmp code_ l = false) →
  (∀ l, l ∈ path → CodeEditor.isExitPoint code_ l = false) →
  CodeEditor.isExitPoint code_ exit_ = true →
  ForwardAnalysis.currentState_ a = Some s →
  ForwardAnalysis.finalState_ a = None →
  ForwardAnalysis.steps code_ doDispatch (length path + 1) AtWalk a
  = Ok (Running AtWhile
          (ForwardAnalysis.mk (ForwardAnalysis.initialState_ a) None
             (Some (replay doDispatch (path ++ [exit_]) s)) exit_
             (ForwardAnalysis.mergePoints_ a) (ForwardAnalysis.q_ a))).
Proof.
  revert a s. induction path as [|l path IH]; intros a s Hfollows Hplain Hinner Hexit
    Hcur Hfinal.
  - destruct Hfollows as [-> _]. simpl.
    destruct (Hplain (ForwardAnalysis.currentIns_ a)) as [Hlabel Hjmp]; [by left|].
    by rewrite (forward_walk_exit a s).
  - destruct Hfollows as [-> Hfollows]. simpl.
    destruct (Hplain (ForwardAnalysis.currentIns_ a)) as [Hlabel Hjmp]; [by left|].
    rewrite (forward_walk_plain a s); try done; [|apply Hinner; by left]. simpl.
    rewrite IH with (s := Dispatcher.effect doDispatch (ForwardAnalysis.currentIns_ a) s);
      try done.
    + intros l Hl. apply Hplain. by right.
    + intros l Hl. apply Hinner. by right.
Qed.

(** X10. Straight-line code: when the instructions from [begin()] up to the
    first exit point are neither labels nor jumps, the analysis of a fresh
    driver ends after one step per instruction and two more, with the
    queue empty, no current state, the table of merge points untouched, and
    as final state the initial state's clone after the dispatch of these
    instructions one after the other. More fuel changes nothing. *)
Theorem forward_straight_line (path : list Loc) (exit_ : Loc)
    (a0 : ForwardAnalysis.t Loc S) (fuel : nat) :
  follows code_ (CodeEditor.begin_ code_) (path ++ [exit_]) →
  (∀ l, l ∈ path ++ [exit_] →
        CodeEditor.isLabel code_ l = false ∧ CodeEditor.isJmp code_ l = false) →
  (∀ l, l ∈ path → CodeEditor.isExitPoint code_ l = false) →
  CodeEditor.isExitPoint code_ exit_ = true →
  ForwardAnalysis.q_ a0 = [] →
  ForwardAnalysis.finalState_ a0 = None →
  length path + 3 ≤ fuel →
  ForwardAnalysis.doAnalyze code_ doDispatch initialState fuel a0
  = Ok (Finished
          (ForwardAnalysis.mk (Some initialState) None
             (Some (replay doDispatch (path ++ [exit_]) (State.clone initialState)))
             exit_ (ForwardAnalysis.mergePoints_ a0) [])).
Proof.
  intros Hfollows Hplain Hinner Hexit Hq Hfinal Hfuel.
  replace fuel with ((length path + 3) + (fuel - (length path + 3))) by lia.
  apply forward_steps_Finished.
  unfold ForwardAnalysis.doAnalyze, ForwardAnalysis.doAnalyze_enter.
  replace (length path + 3) with (Datatypes.S ((length path + 1) + 1)) by lia.
  simpl. rewrite Hq. simpl.
  set (a1 := ForwardAnalysis.set_q _ _).
  pose proof (forward_walk_line path exit_ a1 (State.clone initialState)) as Hline.
  revert Hline. generalize (length path + 1). intros n Hline.
  assert (∀ n p a p' a',
            ForwardAnalysis.steps code_ doDispatch n p a = Ok (Running p' a') →
            ForwardAnalysis.steps code_ doDispatch (n + 1) p a
            = ForwardAnalysis.steps code_ doDispatch 1 p' a') as Hsplit.
  { clear. induction n as [|n IH]; intros p a p' a'; simpl.
    - by intros [= -> ->].
    - destruct (ForwardAnalysis.step code_ doDispatch p a) as [[p1 a1|a1]|]; simpl;
        [apply IH|done|done]. }
  rewrite (Hsplit _ _ _ _ _ (Hline Hfollows Hplain Hinner Hexit eq_refl Hfinal)).
  done.
Qed.

End forward_more.

(** The analysis of [Listing.line] by a fresh driver that counts the
    dispatches: three instructions, final state [3]. *)
Lemma forward_straight_line_witness :
  ForwardAnalysis.doAnalyze (Listing.editor Listing.line) Counter.tick 0 6 Fresh.forward
  = Ok (Finished (ForwardAnalysis.mk (Some 0) None (Some 3) 2%Z ∅ [])).
Proof.
  etrans.
  { apply (forward_straight_line (Listing.editor Listing.line) Counter.tick 0
             [0%Z; 1%Z] 2%Z Fresh.forward 6).
    - done.
    - intros l Hl. repeat (apply elem_of_cons in Hl as [->|Hl]; [done|]).
      by apply elem_of_nil in Hl.
    - intros l Hl. repeat (apply elem_of_cons in Hl as [->|Hl]; [done|]).
      by apply elem_of_nil in Hl.
    - reflexivity.
    - reflexivity.
    - reflexivity.
    - simpl. lia. }
  reflexivity.
Defined.

Section forward_safety.
Context {Loc : Type} `{Countable Loc} {S : Type} `{!State.State S}.
Context (code_ : CodeEditor.t Loc).
Context (doDispatch : Loc → Dispatcher.body S) (initialState : S).
Import Shapes.

Hypothesis merge_total : ∀ s1 s2 : S, State.mergeWith s1 s2 ≠ Fault.
Hypothesis targets_are_labels :
  ∀ l, CodeEditor.isJmp code_ l = true →
       CodeEditor.isLabel code_ (CodeEditor.target code_ l) = true.

Lemma snapshot_lookup (m : gmap Loc (option S)) (l : Loc) :
  snapshot m l = match m !! l with Some stored => stored | None => None end.
Proof. unfold snapshot, mergePoints_at. by destruct (m !! l). Qed.

Lemma snapshot_keep_at (m : gmap Loc (option S)) (l' l : Loc) :
  is_Some (snapshot m l) → is_Some (snapshot (mergePoints_at m l').1 l).
Proof.
  rewrite !snapshot_lookup. unfold mergePoints_at.
  destruct (m !! l') as [stored|] eqn:Hm; simpl; [done|].
  destruct (decide (l' = l)) as [->|Hne].
  - rewrite Hm. by intros [? ?].
  - by rewrite lookup_insert_ne.
Qed.

Lemma snapshot_keep_insert (m : gmap Loc (option S)) (l' l : Loc) (s : S) :
  is_Some (snapshot m l) → is_Some (snapshot (<[l' := Some s]> m) l).
Proof.
  rewrite !snapshot_lookup. destruct (decide (l' = l)) as [->|Hne].
  - rewrite lookup_insert_eq. by eexists.
  - by rewrite lookup_insert_ne.
Qed.

Lemma mergePoints_at_eq (m : gmap Loc (option S)) (l : Loc) :
  mergePoints_at m l = ((mergePoints_at m l).1, snapshot m l).
Proof. unfold snapshot. by destruct (mergePoints_at m l). Qed.

Lemma ready_keep (m m' : gmap Loc (option S)) (l : Loc) :
  (∀ l, is_Some (snapshot m l) → is_Some (snapshot m' l)) →
  ready code_ m l → ready code_ m' l.
Proof. intros Hkeep [Hlabel Hsnap]. split; [done|]. by apply Hkeep. Qed.

Lemma forward_atLabel_safe (a : ForwardAnalysis.t Loc S) :
  is_Some (ForwardAnalysis.currentState_ a)
  ∨ ready code_ (ForwardAnalysis.mergePoints_ a) (ForwardAnalysis.currentIns_ a) →
  ∃ f, ForwardAnalysis.atLabel code_ a = Ok f ∧
       let a' := match f with Continue a' | Break a' => a' end in
       ForwardAnalysis.currentIns_ a' = ForwardAnalysis.currentIns_ a ∧
       ForwardAnalysis.q_ a' = ForwardAnalysis.q_ a ∧
       (∀ l, is_Some (snapshot (ForwardAnalysis.mergePoints_ a) l) →
             is_Some (snapshot (ForwardAnalysis.mergePoints_ a') l)) ∧
       match f with
       | Continue _ => is_Some (ForwardAnalysis.currentState_ a')
       | Break _ => True
       end.
Proof.
  intros Hpre. unfold ForwardAnalysis.atLabel.
  destruct (CodeEditor.isLabel code_ _) eqn:Hlabel.
  - rewrite mergePoints_at_eq.
    destruct (snapshot _ _) as [st|] eqn:Hsnap.
    + destruct (ForwardAnalysis.currentState_ a) as [cur|] eqn:Hcur.
      * destruct (State.mergeWith st cur) as [[st' changed]|] eqn:Hmerge;
          [|by destruct (merge_total st cur)].
        simpl. destruct changed; eexists; (split; [reflexivity|]); simpl;
          (split; [done|]); (split; [done|]); (split; [|done]);
          intros l Hl; by apply snapshot_keep_insert, snapshot_keep_at.
      * eexists. split; [reflexivity|]. simpl. split; [done|]. split; [done|].
        split; [|done]. intros l Hl. by apply snapshot_keep_at.
    + destruct Hpre as [Hcur|[_ Hready]].
      * destruct Hcur as [cur Hcur]. rewrite Hcur.
        eexists. split; [reflexivity|]. simpl. rewrite Hcur.
        split; [done|]. split; [done|]. split; [|done].
        intros l Hl. by apply snapshot_keep_insert, snapshot_keep_at.
      * rewrite Hsnap in Hready. by destruct Hready.
  - destruct Hpre as [Hcur|[Hready _]]; [|congruence].
    eexists. split; [reflexivity|]. done.
Qed.

Lemma forward_afterDispatch_safe (a : ForwardAnalysis.t Loc S) :
  is_Some (ForwardAnalysis.currentState_ a) →
  ∃ f, ForwardAnalysis.afterDispatch code_ a = Ok f ∧
       let a' := match f with Continue a' | Break a' => a' end in
       ForwardAnalysis.currentIns_ a' = ForwardAnalysis.currentIns_ a ∧
       (∀ l, is_Some (snapshot (ForwardAnalysis.mergePoints_ a) l) →
             is_Some (snapshot (ForwardAnalysis.mergePoints_ a') l)) ∧
       (ForwardAnalysis.q_ a' = ForwardAnalysis.q_ a ∨
        ∃ l, ForwardAnalysis.q_ a' = l :: ForwardAnalysis.q_ a ∧
             ready code_ (ForwardAnalysis.mergePoints_ a') l) ∧
       match f with
       | Continue _ => is_Some (ForwardAnalysis.currentState_ a')
       | Break _ => True
       end.
Proof.
  intros [cur Hcur]. unfold ForwardAnalysis.afterDispatch.
  destruct (CodeEditor.isJmp code_ _) eqn:Hjmp.
  - pose proof (targets_are_labels _ Hjmp) as Htarget.
    set (l := CodeEditor.target code_ (ForwardAnalysis.currentIns_ a)) in *.
    unfold ForwardAnalysis.shouldJump. rewrite mergePoints_at_eq, Hcur.
    assert (∀ (st : S) m, ready code_ (<[l := Some st]> m) l) as Hready.
    { intros st m. split; [done|]. rewrite snapshot_insert. by eexists. }
    destruct (snapshot _ _) as [st|] eqn:Hsnap.
    + destruct (State.mergeWith st cur) as [[st' changed]|] eqn:Hmerge;
        [|by destruct (merge_total st cur)].
      simpl.
      destruct changed, (CodeEditor.isUncondJmp code_ (ForwardAnalysis.currentIns_ a))
        eqn:Hu; simpl; rewrite ?Hu; eexists; (split; [reflexivity|]); simpl;
        rewrite ?Hcur; (split; [done|]);
        (split; [intros l' Hl'; by apply snapshot_keep_insert, snapshot_keep_at|]);
        (split; [|done]); first [by left | right; exists l; by split].
    + simpl.
      destruct (CodeEditor.isUncondJmp code_ (ForwardAnalysis.currentIns_ a))
        eqn:Hu; simpl; rewrite ?Hu; eexists; (split; [reflexivity|]); simpl;
        rewrite ?Hcur; (split; [done|]);
        (split; [intros l' Hl'; by apply snapshot_keep_insert, snapshot_keep_at|]);
        (split; [|done]); right; exists l; by split.
  - destruct (CodeEditor.isExitPoint code_ _).
    + destruct (ForwardAnalysis.finalState_ a) as [fin|].
      * rewrite Hcur.
        destruct (State.mergeWith fin cur) as [[fin' changed]|] eqn:Hmerge;
          [|by destruct (merge_total fin cur)].
        simpl. eexists. split; [reflexivity|]. simpl. split; [done|].
        split; [done|]. split; [by left|done].
      * eexists. split; [reflexivity|]. simpl. split; [done|].
        split; [done|]. split; [by left|done].
    + eexists. split; [reflexivity|]. simpl. rewrite Hcur. split; [done|].
      split; [done|]. split; [by left|done].
Qed.

Lemma forward_inv_step (p : pc) (a : ForwardAnalysis.t Loc S) :
  forward_inv code_ p a →
  ∃ o, ForwardAnalysis.step code_ doDispatch p a = Ok o ∧
       match o with
       | Running p' a' => forward_inv code_ p' a'
       | Finished a' => ForwardAnalysis.q_ a' = []
       end.
Proof.
  destruct p; unfold forward_inv; simpl.
  - destruct (ForwardAnalysis.q_ a) as [|front q] eqn:Hq.
    + intros _. eexists. split; [reflexivity|]. done.
    + intros Hinv. eexists. split; [reflexivity|]. done.
  - intros [Hfirst Hrest]. unfold ForwardAnalysis.walk.
    destruct (forward_atLabel_safe a Hfirst) as (f1 & -> & Hins1 & Hq1 & Hkeep1 & Hcur1).
    simpl. destruct f1 as [a1|a1]; simpl in *.
    + unfold ForwardAnalysis.dispatch_current.
      destruct (ForwardAnalysis.currentState_ a1) as [cur|] eqn:Hcur; [|by destruct Hcur1].
      simpl.
      set (a2 := ForwardAnalysis.set_currentState _ a1).
      destruct (forward_afterDispatch_safe a2) as (f3 & -> & Hins3 & Hkeep3 & Hq3 & Hcur3);
        [by eexists|].
      assert (Forall (ready code_ (ForwardAnalysis.mergePoints_
                                     match f3 with Continue a' | Break a' => a' end))
                (ForwardAnalysis.q_ match f3 with Continue a' | Break a' => a' end))
        as Hall.
      { destruct Hq3 as [->|(l & -> & Hl)].
        - simpl. rewrite Hq1. eapply Forall_impl; [exact Hrest|].
          intros l Hl. eapply ready_keep; [|exact Hl].
          intros l' Hl'. by apply Hkeep3, Hkeep1.
        - constructor; [done|]. simpl. rewrite Hq1.
          eapply Forall_impl; [exact Hrest|].
          intros l' Hl'. eapply ready_keep; [|exact Hl'].
          intros l'' Hl''. by apply Hkeep3, Hkeep1. }
      simpl. destruct f3 as [a3|a3]; simpl in *.
      * eexists. split; [reflexivity|]. simpl. split; [by left|done].
      * eexists. split; [reflexivity|]. simpl.
        destruct (ForwardAnalysis.q_ a3) as [|front q]; [done|].
        apply Forall_cons in Hall as [Hfront Hall]. split; [by right|done].
    + eexists. split; [reflexivity|]. simpl. rewrite Hq1.
      assert (Forall (ready code_ (ForwardAnalysis.mergePoints_ a1)) (ForwardAnalysis.q_ a))
        as Hall.
      { eapply Forall_impl; [exact Hrest|]. intros l Hl. by eapply ready_keep. }
      destruct (ForwardAnalysis.q_ a) as [|front q]; [done|].
      apply Forall_cons in Hall as [Hfront Hall]. split; [by right|done].
Qed.

(** X11. On code whose jumps all go to labels, with a merge of states that
    never fails, the forward driver started with an empty queue never fails
    an assertion nor meets a missing state, however long it runs; the
    locations waiting in the queue are labels that have a snapshot, and when
    it finishes the queue is empty. *)
Theorem forward_run_never_faults (a0 : ForwardAnalysis.t Loc S) (n : nat) :
  ForwardAnalysis.q_ a0 = [] →
  ∃ o, ForwardAnalysis.doAnalyze code_ doDispatch initialState n a0 = Ok o ∧
       match o with
       | Running p a =>
           forward_inv code_ p a ∧
           (0 < n → Forall (ready code_ (ForwardAnalysis.mergePoints_ a))
                      (ForwardAnalysis.q_ a))
       | Finished a => ForwardAnalysis.q_ a = []
       end.
Proof using merge_total targets_are_labels.
  intros Hq. unfold ForwardAnalysis.doAnalyze.
  assert (forward_inv code_ AtWhile
            (ForwardAnalysis.doAnalyze_enter code_ initialState a0)) as Hinv.
  { unfold forward_inv, ForwardAnalysis.doAnalyze_enter. simpl. rewrite Hq.
    split; [left; by eexists|done]. }
  assert (∀ n p a,
            forward_inv code_ p a →
            ∃ o, ForwardAnalysis.steps code_ doDispatch n p a = Ok o ∧
                 match o with
                 | Running p' a' => forward_inv code_ p' a'
                 | Finished a' => ForwardAnalysis.q_ a' = []
                 end) as Hrun.
  { clear a0 Hq Hinv n. induction n as [|n IH]; intros p a Hinv; simpl.
    - eexists. split; [reflexivity|]. done.
    - destruct (forward_inv_step p a Hinv) as (o & -> & Ho). simpl.
      destruct o as [p1 a1|a1]; [|by eexists].
      apply (IH p1 a1 Ho). }
  destruct (Hrun n AtWhile _ Hinv) as (o & Hsteps & Ho).
  exists o. split; [done|]. destruct o as [p a|a]; [|done].
  split; [done|]. intros Hn. destruct p.
  - apply forward_steps_AtWhile in Hsteps as [(-> & _)|[_ Hnone]]; [lia|].
    unfold forward_inv in Ho. simpl in Ho. rewrite Hnone in Ho.
    destruct (ForwardAnalysis.q_ a) as [|front q]; [done|].
    destruct Ho as [[[? ?]|Hfront] Hrest]; [done|]. by constructor.
  - by destruct Ho.
Qed.

End forward_safety.

(** * Properties of the retrieval caches *)

Section forward_retrieval.
Context {Loc : Type} `{Countable Loc} {S : Type} `{!State.State S}.
Context (code_ : CodeEditor.t Loc).
Context (doDispatch : Loc → Dispatcher.body S).
Import Shapes.

Lemma forward_advance_spec (a : ForwardAnalysis.t Loc S) (s : S) :
  ForwardAnalysis.currentState_ a = Some s →
  ∃ a', ForwardAnalysisIns.advance code_ doDispatch a = Ok a' ∧
        ForwardAnalysis.currentIns_ a'
        = CodeEditor.incr code_ (ForwardAnalysis.currentIns_ a) ∧
        ForwardAnalysis.initialState_ a' = ForwardAnalysis.initialState_ a ∧
        (CodeEditor.isLabel code_ (CodeEditor.incr code_ (ForwardAnalysis.currentIns_ a))
         = false →
         ForwardAnalysis.currentState_ a'
         = Some (Dispatcher.effect doDispatch (ForwardAnalysis.currentIns_ a) s)).
Proof.
  intros Hcur. unfold ForwardAnalysisIns.advance, ForwardAnalysis.dispatch_current.
  rewrite Hcur. simpl.
  destruct (CodeEditor.isLabel code_ _) eqn:Hlabel.
  - destruct (mergePoints_at _ _) as [m [fp|]]; eexists; (split; [reflexivity|]); done.
  - eexists. split; [reflexivity|]. done.
Qed.

Lemma forward_advance_keeps (a a' : ForwardAnalysis.t Loc S) :
  ForwardAnalysisIns.advance code_ doDispatch a = Ok a' →
  ForwardAnalysis.initialState_ a' = ForwardAnalysis.initialState_ a.
Proof.
  unfold ForwardAnalysisIns.advance, ForwardAnalysis.dispatch_current.
  destruct (ForwardAnalysis.currentState_ a) as [s|]; [|done]. simpl.
  destruct (CodeEditor.isLabel code_ _); [|by intros [= <-]].
  destruct (mergePoints_at _ _) as [m [fp|]]; by intros [= <-].
Qed.

Lemma forward_seek_on_lands (fuel : nat) (ins : Loc) (a : ForwardAnalysis.t Loc S)
    (r : search (ForwardAnalysis.t Loc S)) :
  ForwardAnalysisIns.seek_on code_ doDispatch fuel ins a = Ok r →
  match r with
  | Found a' =>
      ForwardAnalysis.currentIns_ a' = ins ∧ ins ≠ CodeEditor.end_ code_ ∧
      ForwardAnalysis.initialState_ a' = ForwardAnalysis.initialState_ a
  | Missed a' => ForwardAnalysis.initialState_ a' = ForwardAnalysis.initialState_ a
  | OutOfFuel => True
  end.
Proof.
  revert a. induction fuel as [|fuel IH]; intros a; simpl.
  { by intros [= <-]. }
  case_decide as Hend; [by intros [= <-]|].
  case_decide as Hins; [intros [= <-]; by subst|].
  destruct (CodeEditor.isExitPoint code_ _); [by intros [= <-]|].
  intros Hseek. apply res_bind_Ok in Hseek as (a1 & Hadv & Hseek).
  apply forward_advance_keeps in Hadv. apply IH in Hseek.
  destruct r; rewrite <-?Hadv; done.
Qed.

Lemma forward_seek_over_lands (fuel : nat) (ins : Loc) (a : ForwardAnalysis.t Loc S)
    (r : search (ForwardAnalysis.t Loc S)) :
  ForwardAnalysisIns.seek_over code_ doDispatch fuel ins a = Ok r →
  match r with
  | Found a' =>
      ForwardAnalysis.currentIns_ a' = ins ∧ ins ≠ CodeEditor.end_ code_ ∧
      ForwardAnalysis.initialState_ a' = ForwardAnalysis.initialState_ a
  | Missed a' => ForwardAnalysis.initialState_ a' = ForwardAnalysis.initialState_ a
  | OutOfFuel => True
  end.
Proof.
  revert a. induction fuel as [|fuel IH]; intros a; simpl.
  { by intros [= <-]. }
  case_decide as Hend; [by intros [= <-]|].
  case_decide as Hins; [intros [= <-]; by subst|].
  intros Hseek. apply res_bind_Ok in Hseek as (a1 & Hadv & Hseek).
  apply forward_advance_keeps in Hadv. apply IH in Hseek.
  destruct r; rewrite <-?Hadv; done.
Qed.

(** X12. A query of the forward cache that returns has moved the cache to
    the instruction asked for and gives the cached state; it keeps the
    initial state; and a query for [end()] never returns from a cache that is
    somewhere else: it runs into the final assertion or does not end. *)
Theorem forward_retrieval_lands (fuel : nat) (ins : Loc)
    (a a' : ForwardAnalysis.t Loc S) (s : S) :
  ForwardAnalysisIns.at_ code_ doDispatch fuel ins a = Ok (Some (a', s)) →
  ForwardAnalysis.currentIns_ a' = ins ∧
  ForwardAnalysis.currentState_ a' = Some s ∧
  ForwardAnalysis.initialState_ a' = ForwardAnalysis.initialState_ a ∧
  (ins ≠ ForwardAnalysis.currentIns_ a → ins ≠ CodeEditor.end_ code_).
Proof.
  unfold ForwardAnalysisIns.at_. intros Hat.
  apply res_bind_Ok in Hat as ([a1|] & Hseek & Hat); [|done].
  destruct (ForwardAnalysis.currentState_ a1) as [cur|] eqn:Hcur; [|done].
  injection Hat as <- <-. case_decide as Hne.
  - unfold ForwardAnalysisIns.seek in Hseek.
    apply res_bind_Ok in Hseek as (r & Hon & Hseek).
    apply forward_seek_on_lands in Hon. destruct r as [a2|a2|]; [| |done].
    + injection Hseek as <-. by destruct Hon as (? & ? & ?).
    + apply res_bind_Ok in Hseek as (a3 & Hinit & Hseek).
      apply res_bind_Ok in Hseek as (r & Hover & Hseek).
      apply forward_seek_over_lands in Hover.
      assert (ForwardAnalysis.initialState_ a3 = ForwardAnalysis.initialState_ a2) as Hini.
      { unfold ForwardAnalysisIns.initializeCache in Hinit.
        destruct (ForwardAnalysis.initialState_ a2) eqn:Hini2; [|done].
        by injection Hinit as <-. }
      destruct r as [a4|a4|]; [|done|done]. injection Hseek as <-.
      destruct Hover as (? & ? & ?). split; [done|]. split; [done|].
      split; [congruence|done].
  - injection Hseek as <-. by subst.
Qed.

Lemma follows_lookup (l : Loc) (full : list Loc) (j : nat) (x y : Loc) :
  follows code_ l full →
  full !! j = Some x → full !! Datatypes.S j = Some y →
  y = CodeEditor.incr code_ x.
Proof.
  revert l j. induction full as [|z full IH]; intros l j Hfollows Hx Hy; [done|].
  destruct Hfollows as [-> Hfollows]. destruct j as [|j]; simpl in *.
  - injection Hx as <-. destruct full as [|z full]; [done|].
    destruct Hfollows as [-> _]. by injection Hy as <-.
  - by apply (IH (CodeEditor.incr code_ l) j).
Qed.

Section straight.
Context (path : list Loc) (ini : S).
Hypothesis path_follows :
  follows code_ (CodeEditor.begin_ code_) (path ++ [CodeEditor.end_ code_]).
Hypothesis path_NoDup : NoDup (path ++ [CodeEditor.end_ code_]).
Hypothesis path_plain : ∀ l, l ∈ path → CodeEditor.isLabel code_ l = false.

Lemma path_not_end (j : nat) (l : Loc) :
  path !! j = Some l → l ≠ CodeEditor.end_ code_.
Proof using path_NoDup.
  intros Hl ->. pose proof (lookup_lt_Some _ _ _ Hl) as Hlt.
  assert ((path ++ [CodeEditor.end_ code_]) !! j = Some (CodeEditor.end_ code_)) as H1.
  { by rewrite lookup_app_l. }
  assert ((path ++ [CodeEditor.end_ code_]) !! length path = Some (CodeEditor.end_ code_))
    as H2.
  { rewrite lookup_app_r by lia. by rewrite Nat.sub_diag. }
  pose proof (NoDup_lookup _ _ _ _ path_NoDup H1 H2). lia.
Qed.

Lemma path_position (j k : nat) (l : Loc) :
  (path ++ [CodeEditor.end_ code_]) !! j = Some l → path !! k = Some l → j = k.
Proof using path_NoDup.
  intros Hj Hk. apply (NoDup_lookup _ _ _ _ path_NoDup Hj).
  rewrite lookup_app_l; [done|]. by eapply lookup_lt_Some.
Qed.

Lemma cache_advance (j : nat) (a : ForwardAnalysis.t Loc S) :
  cache_at code_ doDispatch path ini j a →
  j < length path →
  ∃ a', ForwardAnalysisIns.advance code_ doDispatch a = Ok a' ∧
        cache_at code_ doDispatch path ini (Datatypes.S j) a'.
Proof using path_follows path_NoDup path_plain.
  intros (Hini & Hins & Hcur) Hlt. specialize (Hcur Hlt).
  destruct (forward_advance_spec a _ Hcur) as (a' & Hadv & Hins' & Hini' & Hcur').
  exists a'. split; [done|]. split; [congruence|].
  assert (is_Some ((path ++ [CodeEditor.end_ code_]) !! Datatypes.S j)) as [y Hy].
  { apply lookup_lt_is_Some. rewrite length_app. simpl. lia. }
  pose proof (follows_lookup _ _ _ _ _ path_follows Hins Hy) as ->.
  split; [by rewrite Hins'|]. intros Hlt'.
  rewrite lookup_app_l in Hy by done.
  rewrite Hcur' by (apply path_plain; by eapply list_elem_of_lookup_2).
  f_equal. rewrite lookup_app_l in Hins by done.
  rewrite (take_S_r _ _ _ Hins). unfold replay. by rewrite foldl_app.
Qed.

Lemma cache_seek_over (d : nat) :
  ∀ (fuel j k : nat) (lk : Loc) (a : ForwardAnalysis.t Loc S),
    cache_at code_ doDispatch path ini j a →
    path !! k = Some lk → j ≤ k → k - j = d → d < fuel →
    ∃ a', ForwardAnalysisIns.seek_over code_ doDispatch fuel lk a = Ok (Found a') ∧
          cache_at code_ doDispatch path ini k a'.
Proof using path_follows path_NoDup path_plain.
  induction d as [|d IH]; intros fuel j k lk a Hcache Hk Hle Hd Hfuel;
    (destruct fuel as [|fuel]; [lia|]); simpl;
    pose proof (lookup_lt_Some _ _ _ Hk) as Hlt;
    pose proof Hcache as (Hini & Hins & Hcur).
  - assert (j = k) as -> by lia.
    rewrite lookup_app_l in Hins by done. rewrite Hk in Hins. injection Hins as ->.
    rewrite decide_False by (by eapply path_not_end).
    rewrite decide_True by done. by eexists.
  - assert ((path ++ [CodeEditor.end_ code_]) !! j = path !! j) as Hj.
    { rewrite lookup_app_l; [done|lia]. }
    rewrite Hj in Hins.
    rewrite decide_False by (by eapply path_not_end).
    rewrite decide_False.
    2:{ intros Heq. rewrite Heq, <-Hj in Hins.
        pose proof (path_position _ _ _ Hins Hk). lia. }
    destruct (cache_advance j a Hcache) as (a' & -> & Hcache'); [lia|]. simpl.
    apply (IH fuel (Datatypes.S j) k); try done; lia.
Qed.

Lemma cache_seek_on (d : nat) :
  ∀ (fuel j k : nat) (lk : Loc) (a : ForwardAnalysis.t Loc S),
    cache_at code_ doDispatch path ini j a →
    path !! k = Some lk → j ≤ length path → length path - j = d → d < fuel →
    ∃ r, ForwardAnalysisIns.seek_on code_ doDispatch fuel lk a = Ok r ∧
         match r with
         | Found a' => cache_at code_ doDispatch path ini k a'
         | Missed a' => ForwardAnalysis.initialState_ a' = Some ini
         | OutOfFuel => False
         end.
Proof using path_follows path_NoDup path_plain.
  induction d as [|d IH]; intros fuel j k lk a Hcache Hk Hle Hd Hfuel;
    (destruct fuel as [|fuel]; [lia|]); simpl;
    pose proof Hcache as (Hini & Hins & Hcur).
  - assert (j = length path) as -> by lia.
    rewrite lookup_app_r in Hins by lia. rewrite Nat.sub_diag in Hins.
    injection Hins as <-. rewrite decide_True by done. by eexists.
  - assert ((path ++ [CodeEditor.end_ code_]) !! j = path !! j) as Hj.
    { rewrite lookup_app_l; [done|lia]. }
    pose proof Hins as Hins'. rewrite Hj in Hins'.
    rewrite decide_False by (by eapply path_not_end).
    case_decide as Hfound.
    { subst lk. pose proof (path_position _ _ _ Hins Hk) as ->. by eexists. }
    destruct (CodeEditor.isExitPoint code_ _); [by eexists|].
    destruct (cache_advance j a Hcache) as (a' & -> & Hcache'); [lia|]. simpl.
    apply (IH fuel (Datatypes.S j) k); try done; lia.
Qed.

(** X13. Straight-line code, any order of queries: when the instructions
    [path] from [begin()] to [end()] hold no label, and the cache is at one
    of them with the state replayed from the initial state up to it, a query
    for any instruction of the path returns, with enough fuel, the state
    replayed from a clone of the initial state up to that instruction, not
    including it, and leaves the cache there, be the instruction before or
    after the cached one. *)
Theorem forward_retrieval_replays (fuel j k : nat) (lk : Loc)
    (a : ForwardAnalysis.t Loc S) :
  cache_at code_ doDispatch path ini j a →
  j < length path →
  path !! k = Some lk →
  length path < fuel →
  ∃ a',
    ForwardAnalysisIns.at_ code_ doDispatch fuel lk a
    = Ok (Some (a', replay doDispatch (take k path) (State.clone ini))) ∧
    cache_at code_ doDispatch path ini k a'.
Proof using path_follows path_NoDup path_plain.
  intros Hcache Hj Hk Hfuel. pose proof (lookup_lt_Some _ _ _ Hk) as Hlt.
  assert (∀ a', cache_at code_ doDispatch path ini k a' →
                ForwardAnalysis.currentState_ a'
                = Some (replay doDispatch (take k path) (State.clone ini))) as Hstate.
  { intros a' (_ & _ & Hcur). by apply Hcur. }
  unfold ForwardAnalysisIns.at_. case_decide as Hne.
  - unfold ForwardAnalysisIns.seek.
    destruct (cache_seek_on (length path - j) fuel j k lk a) as (r & -> & Hr);
      try done; try lia.
    simpl. destruct r as [a1|a1|]; [| |done].
    + simpl. rewrite (Hstate a1 Hr). by eexists.
    + unfold ForwardAnalysisIns.initializeCache. rewrite Hr. simpl.
      set (a2 := ForwardAnalysis.set_currentIns _ _).
      assert (cache_at code_ doDispatch path ini 0 a2) as Hcache2.
      { split; [done|]. split; [|done].
        destruct path as [|l0 rest]; [simpl in Hlt; lia|].
        destruct path_follows as [-> _]. done. }
      destruct (cache_seek_over k fuel 0 k lk a2) as (a3 & -> & Hcache3);
        try done; try lia.
      simpl. rewrite (Hstate a3 Hcache3). by eexists.
  - subst lk. simpl.
    destruct Hcache as (Hini & Hins & Hcur).
    pose proof (path_position _ _ _ Hins Hk) as ->.
    rewrite (Hcur Hlt). by eexists.
Qed.

End straight.

End forward_retrieval.

(** In [Listing.branch] the only jump goes to the label at [2]. *)
Lemma Listing_branch_targets (l : Z) :
  CodeEditor.isJmp (Listing.editor Listing.branch) l = true →
  CodeEditor.isLabel (Listing.editor Listing.branch)
    (CodeEditor.target (Listing.editor Listing.branch) l) = true.
Proof.
  simpl. unfold Listing.at_. case_decide as Hl; [|done].
  destruct (Z.to_nat l) as [|[|[|[|n]]]] eqn:Hn; simpl; done.
Qed.

Lemma Counter_merge_total (s1 s2 : nat) : State.mergeWith s1 s2 ≠ Fault.
Proof. done. Qed.

(** Twenty steps of the analysis of [Listing.branch]. *)
Lemma forward_run_never_faults_witness :
  ∃ o, ForwardAnalysis.doAnalyze (Listing.editor Listing.branch) Counter.tick 0 20
         Fresh.forward = Ok o.
Proof.
  destruct (forward_run_never_faults (Listing.editor Listing.branch) Counter.tick 0
              Counter_merge_total Listing_branch_targets Fresh.forward 20 eq_refl)
    as (o & Hrun & _).
  by exists o.
Defined.

(** The cache over [Listing.line] is at location [2] with the state [2]; the
    query for location [1] restarts from the entry and gives the state
    [1]. *)
Lemma forward_retrieval_lands_witness :
  ∃ a', ForwardAnalysisIns.at_ (Listing.editor Listing.line) Counter.tick 6 1%Z
          (ForwardAnalysis.mk (Some 0) (Some 2) (Some 3) 2%Z ∅ []) = Ok (Some (a', 1)) ∧
        ForwardAnalysis.currentIns_ a' = 1%Z.
Proof.
  destruct (ForwardAnalysisIns.at_ (Listing.editor Listing.line) Counter.tick 6 1%Z
              (ForwardAnalysis.mk (Some 0) (Some 2) (Some 3) 2%Z ∅ []))
    as [[[a' s]|]|] eqn:Hat; try by vm_compute in Hat.
  assert (s = 1) as ->.
  { vm_compute in Hat. by injection Hat as _ <-. }
  exists a'. split; [reflexivity|].
  apply (forward_retrieval_lands (Listing.editor Listing.line) Counter.tick 6 1%Z
           _ a' 1 Hat).
Defined.

Lemma forward_retrieval_replays_witness :
  ∃ a', ForwardAnalysisIns.at_ (Listing.editor Listing.line) Counter.tick 6 1%Z
          (ForwardAnalysis.mk (Some 0) (Some 2) (Some 3) 2%Z ∅ []) = Ok (Some (a', 1)) ∧
        ForwardAnalysis.currentState_ a' = Some 1.
Proof.
  destruct (forward_retrieval_replays (Listing.editor Listing.line) Counter.tick
              [0%Z; 1%Z; 2%Z] 0) with
    (fuel := 6) (j := 2) (k := 1) (lk := 1%Z)
    (a := ForwardAnalysis.mk (Some 0) (Some 2) (Some 3) 2%Z ∅ [])
    as (a' & Hat & Hcache).
  - done.
  - apply (bool_decide_unpack _). by vm_compute.
  - intros l Hl. repeat (apply elem_of_cons in Hl as [->|Hl]; [done|]).
    by apply elem_of_nil in Hl.
  - done.
  - simpl. lia.
  - reflexivity.
  - simpl. lia.
  - exists a'. split; [exact Hat|].
    destruct Hcache as (_ & _ & Hcur). apply Hcur. simpl. lia.
Defined.

(** * Further properties of the backward driver *)

Section backward_more.
Context {Loc : Type} `{Countable Loc} {S : Type} `{!State.State S}.
Context (code_ : CodeEditor.t Loc).
Context (doDispatch : Loc → Dispatcher.body S) (initialState : S).

Lemma backward_collect_one (a : BackwardAnalysis.t Loc S) (x : Loc) :
  let a' := BackwardAnalysis.collect code_ a x in
  BackwardAnalysis.q_ a'
  = (if CodeEditor.isExitPoint code_ x then [x] else []) ++ BackwardAnalysis.q_ a ∧
  (∀ t,
     (BackwardAnalysis.jumpOrigins_at (BackwardAnalysis.jumpOrigins_ a') t).2
     = (BackwardAnalysis.jumpOrigins_at (BackwardAnalysis.jumpOrigins_ a) t).2
       ++ (if CodeEditor.isJmp code_ x && bool_decide (CodeEditor.target code_ x = t)
           then [x] else [])) ∧
  BackwardAnalysis.initialState_ a' = BackwardAnalysis.initialState_ a ∧
  BackwardAnalysis.currentState_ a' = BackwardAnalysis.currentState_ a ∧
  BackwardAnalysis.finalState_ a' = BackwardAnalysis.finalState_ a ∧
  BackwardAnalysis.mergePoints_ a' = BackwardAnalysis.mergePoints_ a.
Proof.
  simpl. unfold BackwardAnalysis.collect.
  destruct (CodeEditor.isJmp code_ x) eqn:Hjmp; simpl.
  - set (t0 := CodeEditor.target code_ x).
    assert (∀ t,
              (BackwardAnalysis.jumpOrigins_at
                 (<[t0 := (BackwardAnalysis.jumpOrigins_at
                             (BackwardAnalysis.jumpOrigins_ a) t0).2 ++ [x]]>
                    (BackwardAnalysis.jumpOrigins_at
                       (BackwardAnalysis.jumpOrigins_ a) t0).1) t).2
              = (BackwardAnalysis.jumpOrigins_at (BackwardAnalysis.jumpOrigins_ a) t).2
                ++ (if bool_decide (t0 = t) then [x] else [])) as Horigins.
    { intros t. unfold BackwardAnalysis.jumpOrigins_at.
      case_bool_decide as Ht.
      - subst t. by rewrite lookup_insert_eq.
      - rewrite lookup_insert_ne by done. rewrite app_nil_r.
        destruct (BackwardAnalysis.jumpOrigins_ a !! t0); simpl;
          rewrite ?lookup_insert_ne by done;
          by destruct (BackwardAnalysis.jumpOrigins_ a !! t). }
    destruct (BackwardAnalysis.jumpOrigins_at (BackwardAnalysis.jumpOrigins_ a) t0)
      as [j origins]. simpl in Horigins.
    destruct (CodeEditor.isExitPoint code_ x); simpl; done.
  - destruct (CodeEditor.isExitPoint code_ x); simpl;
      (split; [done|]); (split; [|done]); intros t; by rewrite app_nil_r.
Qed.

Lemma backward_collect_spec (range : list Loc) (a : BackwardAnalysis.t Loc S) :
  let a' := foldl (BackwardAnalysis.collect code_) a range in
  BackwardAnalysis.q_ a'
  = reverse (filter (λ l, CodeEditor.isExitPoint code_ l = true) range)
    ++ BackwardAnalysis.q_ a ∧
  (∀ t,
     (BackwardAnalysis.jumpOrigins_at (BackwardAnalysis.jumpOrigins_ a') t).2
     = (BackwardAnalysis.jumpOrigins_at (BackwardAnalysis.jumpOrigins_ a) t).2
       ++ filter (λ it, CodeEditor.isJmp code_ it = true ∧ CodeEditor.target code_ it = t)
            range) ∧
  BackwardAnalysis.initialState_ a' = BackwardAnalysis.initialState_ a ∧
  BackwardAnalysis.currentState_ a' = BackwardAnalysis.currentState_ a ∧
  BackwardAnalysis.finalState_ a' = BackwardAnalysis.finalState_ a ∧
  BackwardAnalysis.mergePoints_ a' = BackwardAnalysis.mergePoints_ a.
Proof.
  revert a. induction range as [|x range IH]; intros a; simpl.
  { split; [done|]. split; [|done]. intros t. by rewrite app_nil_r. }
  destruct (IH (BackwardAnalysis.collect code_ a x))
    as (Hq & Horigins & Hini & Hcur & Hfin & Hmp).
  destruct (backward_collect_one a x) as (Hq1 & Horigins1 & Hini1 & Hcur1 & Hfin1 & Hmp1).
  simpl in *. split; [|split].
  - rewrite Hq, Hq1, filter_cons.
    destruct (CodeEditor.isExitPoint code_ x).
    + rewrite decide_True by done. by rewrite reverse_cons, <-(assoc_L (++)).
    + rewrite decide_False by (by intros ?). done.
  - intros t. rewrite Horigins, Horigins1, filter_cons, <-(assoc_L (++)).
    f_equal. case_decide as Hd.
    + destruct Hd as [-> Ht]. by rewrite bool_decide_eq_true_2.
    + destruct (CodeEditor.isJmp code_ x); [|done]. simpl.
      rewrite bool_decide_eq_false_2; [done|]. intros Ht. by apply Hd.
  - by rewrite Hini, Hcur, Hfin, Hmp.
Qed.

(** X14. The first pass of the backward analysis, from a driver with an
    empty queue and no recorded origin: afterwards the queue holds the exit
    points of the code, the last one first; every location has as recorded
    origins the jumps that target it, in the order of the code; the initial
    state is set, and no state or snapshot has been touched. *)
Theorem backward_first_pass (a : BackwardAnalysis.t Loc S) (t : Loc) :
  BackwardAnalysis.q_ a = [] →
  BackwardAnalysis.jumpOrigins_ a = ∅ →
  let a' := BackwardAnalysis.doAnalyze_enter code_ initialState a in
  BackwardAnalysis.q_ a'
  = reverse (filter (λ l, CodeEditor.isExitPoint code_ l = true)
               (CodeEditor.range code_)) ∧
  (BackwardAnalysis.jumpOrigins_at (BackwardAnalysis.jumpOrigins_ a') t).2
  = filter (λ it, CodeEditor.isJmp code_ it = true ∧ CodeEditor.target code_ it = t)
      (CodeEditor.range code_) ∧
  BackwardAnalysis.initialState_ a' = Some initialState ∧
  BackwardAnalysis.currentState_ a' = BackwardAnalysis.currentState_ a ∧
  BackwardAnalysis.finalState_ a' = BackwardAnalysis.finalState_ a ∧
  BackwardAnalysis.mergePoints_ a' = BackwardAnalysis.mergePoints_ a.
Proof.
  intros Hq Hj. simpl. unfold BackwardAnalysis.doAnalyze_enter. simpl.
  destruct (backward_collect_spec (CodeEditor.range code_) a)
    as (Hq' & Horigins & _ & Hcur & Hfin & Hmp).
  simpl in *. rewrite Hq', Hq, app_nil_r, Horigins, Hj. done.
Qed.

End backward_more.

(** The first pass over [Listing.tail]: the exit points [4] and [2] are
    queued and the jump at [0] is the origin recorded for the label [3]. *)
Lemma backward_first_pass_witness :
  BackwardAnalysis.q_
    (BackwardAnalysis.doAnalyze_enter (Listing.editor Listing.tail) 0 Fresh.backward)
  = [4%Z; 2%Z] ∧
  (BackwardAnalysis.jumpOrigins_at
     (BackwardAnalysis.jumpOrigins_
        (BackwardAnalysis.doAnalyze_enter (Listing.editor Listing.tail) 0 Fresh.backward))
     3%Z).2 = [0%Z].
Proof.
  destruct (backward_first_pass (Listing.editor Listing.tail) 0 Fresh.backward 3%Z
              eq_refl eq_refl) as (Hq & Horigins & _).
  split.
  - etrans; [exact Hq|]. reflexivity.
  - etrans; [exact Horigins|]. reflexivity.
Defined.

Section backward_pops.
Context {Loc : Type} `{Countable Loc} {S : Type} `{!State.State S}.
Context (code_ : CodeEditor.t Loc).
Context (doDispatch : Loc → Dispatcher.body S) (initialState : S).

Lemma backward_followOrigins_initial (origins : list Loc) (a a' : BackwardAnalysis.t Loc S) :
  BackwardAnalysis.followOrigins origins a = Ok a' →
  BackwardAnalysis.initialState_ a' = BackwardAnalysis.initialState_ a.
Proof.
  revert a. induction origins as [|origin origins IH]; intros a; simpl.
  - by intros [= <-].
  - intros Hf. apply res_bind_Ok in Hf as ([follow a1] & Hshould & Hf).
    apply IH in Hf. rewrite Hf. clear Hf IH.
    unfold BackwardAnalysis.shouldFollowJumpFrom in Hshould.
    destruct (mergePoints_at _ _) as [m [st|]];
      destruct (BackwardAnalysis.currentState_ a) as [cur|]; try done.
    + apply res_bind_Ok in Hshould as ([st' changed] & _ & Hshould).
      injection Hshould as <- <-. by destruct changed.
    + by injection Hshould as <- <-.
Qed.

Lemma backward_walk_keeps (a : BackwardAnalysis.t Loc S)
    (f : flow (BackwardAnalysis.t Loc S)) :
  BackwardAnalysis.walk code_ doDispatch a = Ok f →
  match f with
  | Continue a' =>
      BackwardAnalysis.initialState_ a' = BackwardAnalysis.initialState_ a
  | Break a' =>
      BackwardAnalysis.initialState_ a' = BackwardAnalysis.initialState_ a ∧
      BackwardAnalysis.currentState_ a' = None
  end.
Proof.
  unfold BackwardAnalysis.walk. intros Hw.
  apply res_bind_Ok in Hw as (f1 & Hfirst & Hw).
  assert (match f1 with
          | Continue a' =>
              BackwardAnalysis.initialState_ a' = BackwardAnalysis.initialState_ a
          | Break a' =>
              BackwardAnalysis.initialState_ a' = BackwardAnalysis.initialState_ a ∧
              BackwardAnalysis.currentState_ a' = None
          end) as Hf1.
  { revert Hfirst. unfold BackwardAnalysis.atExitOrMergePoint.
    destruct (CodeEditor.isExitPoint code_ _).
    { destruct (BackwardAnalysis.currentState_ a); [done|].
      destruct (BackwardAnalysis.initialState_ a) eqn:Hini; [|done].
      by intros [= <-]. }
    destruct (BackwardAnalysis.isMergePoint code_ _); [|by intros [= <-]].
    destruct (mergePoints_at _ _) as [m [st|]];
      destruct (BackwardAnalysis.currentState_ a) as [cur|]; try done;
      try by intros [= <-].
    intros Hm. apply res_bind_Ok in Hm as ([st' changed] & _ & Hm).
    destruct changed; by injection Hm as <-. }
  destruct f1 as [a1|a1]; [|by injection Hw as <-].
  apply res_bind_Ok in Hw as (a2 & Hdispatch & Hw).
  assert (BackwardAnalysis.initialState_ a2 = BackwardAnalysis.initialState_ a) as Hini2.
  { rewrite <-Hf1. revert Hdispatch. unfold BackwardAnalysis.dispatch_current.
    destruct (BackwardAnalysis.currentState_ a1); [|done]. by intros [= <-]. }
  apply res_bind_Ok in Hw as (f3 & Hafter & Hw).
  assert (match f3 with
          | Continue a' =>
              BackwardAnalysis.initialState_ a' = BackwardAnalysis.initialState_ a
          | Break a' =>
              BackwardAnalysis.initialState_ a' = BackwardAnalysis.initialState_ a ∧
              BackwardAnalysis.currentState_ a' = None
          end) as Hf3.
  { rewrite <-Hini2. revert Hafter. unfold BackwardAnalysis.afterDispatch.
    destruct (CodeEditor.isEntryPoint code_ _).
    { destruct (BackwardAnalysis.finalState_ a2); [|by intros [= <-]].
      destruct (BackwardAnalysis.currentState_ a2); [|done].
      intros Hm. apply res_bind_Ok in Hm as ([fin' changed] & _ & Hm).
      by injection Hm as <-. }
    unfold BackwardAnalysis.atLabel.
    destruct (CodeEditor.isLabel code_ _); [|by intros [= <-]].
    destruct (BackwardAnalysis.jumpOrigins_at _ _) as [j origins].
    intros Hl. apply res_bind_Ok in Hl as (a3 & Hfollow & Hl).
    apply backward_followOrigins_initial in Hfollow. simpl in Hfollow.
    destruct (_ || _); injection Hl as <-; simpl; by rewrite Hfollow. }
  destruct f3 as [a3|a3]; by injection Hw as <-.
Qed.

Lemma backward_steps_keep (n : nat) (p p' : pc) (a a' : BackwardAnalysis.t Loc S) :
  BackwardAnalysis.currentState_ a = None ∨ p = AtWalk →
  BackwardAnalysis.steps code_ doDispatch n p a = Ok (Running p' a') →
  BackwardAnalysis.initialState_ a' = BackwardAnalysis.initialState_ a ∧
  (p' = AtWhile → (n = 0 → p = AtWhile) → BackwardAnalysis.currentState_ a' = None).
Proof.
  revert p a. induction n as [|n IH]; intros p a Hstart; simpl.
  - intros [= -> ->]. split; [done|]. intros -> Hp.
    destruct Hstart as [?|?]; [done|]. specialize (Hp eq_refl). congruence.
  - intros Hs. apply res_bind_Ok in Hs as ([p1 a1|a1] & Hstep & Hs); [|done].
    assert (BackwardAnalysis.initialState_ a1 = BackwardAnalysis.initialState_ a ∧
            (p1 = AtWhile → BackwardAnalysis.currentState_ a1 = None)) as [Hini1 Hcur1].
    { destruct p; simpl in Hstep.
      - destruct (BackwardAnalysis.q_ a); [done|]. by injection Hstep as <- <-.
      - apply res_bind_Ok in Hstep as (f & Hwalk & Hstep).
        apply backward_walk_keeps in Hwalk.
        destruct f as [a2|a2]; injection Hstep as <- <-; [done|].
        by destruct Hwalk. }
    destruct (IH p1 a1) as [Hini Hcur]; [| exact Hs |].
    { destruct p1; [left; by apply Hcur1|by right]. }
    split; [congruence|]. intros -> _. apply Hcur; [done|].
    intros ->. simpl in Hs. by injection Hs as -> _.
Qed.

(** X15. The backward driver, started without a current state, has none
    whenever it is about to pop, and keeps the initial state it was given.
    So popping an exit point passes the assertion there and the walk starts
    from a clone of the initial state; whereas a walk that comes to an exit
    point with a current state fails the assertion. *)
Theorem backward_pops_without_state (a0 a : BackwardAnalysis.t Loc S) (n : nat) :
  BackwardAnalysis.currentState_ a0 = None →
  BackwardAnalysis.doAnalyze code_ doDispatch initialState n a0
  = Ok (Running AtWhile a) →
  BackwardAnalysis.currentState_ a = None ∧
  BackwardAnalysis.initialState_ a = Some initialState ∧
  (∀ front rest,
     BackwardAnalysis.q_ a = front :: rest →
     CodeEditor.isExitPoint code_ front = true →
     ∃ a1 a2,
       BackwardAnalysis.step code_ doDispatch AtWhile a = Ok (Running AtWalk a1) ∧
       BackwardAnalysis.atExitOrMergePoint code_ a1 = Ok (Continue a2) ∧
       BackwardAnalysis.currentState_ a2 = Some (State.clone initialState)) ∧
  (∀ b, CodeEditor.isExitPoint code_ (BackwardAnalysis.currentIns_ b) = true →
        is_Some (BackwardAnalysis.currentState_ b) →
        BackwardAnalysis.step code_ doDispatch AtWalk b = Fault).
Proof.
  intros Hnone Hrun. unfold BackwardAnalysis.doAnalyze in Hrun.
  assert (BackwardAnalysis.currentState_
            (BackwardAnalysis.doAnalyze_enter code_ initialState a0) = None) as Hnone'.
  { unfold BackwardAnalysis.doAnalyze_enter. simpl.
    destruct (backward_collect_spec code_ (CodeEditor.range code_) a0)
      as (_ & _ & _ & Hcur & _). simpl in Hcur. congruence. }
  apply backward_steps_keep in Hrun as [Hini Hcur]; [|by left].
  assert (BackwardAnalysis.currentState_ a = None) as Hcur' by (by apply Hcur).
  split; [done|]. split; [by rewrite Hini|]. split.
  - intros front rest Hq Hexit. simpl. rewrite Hq. eexists _, _.
    split; [reflexivity|]. unfold BackwardAnalysis.atExitOrMergePoint. simpl.
    rewrite Hexit, Hcur', Hini. simpl. split; [reflexivity|done].
  - intros b Hexit [cur Hb]. simpl.
    unfold BackwardAnalysis.walk, BackwardAnalysis.atExitOrMergePoint.
    by rewrite Hexit, Hb.
Qed.

End backward_pops.

(** The backward analysis of [Listing.skip] starts by popping the exit
    point [4]. *)
Lemma backward_pops_without_state_witness :
  ∃ a a1 a2,
    BackwardAnalysis.doAnalyze (Listing.editor Listing.skip) Counter.tick 0 0
      Fresh.backward = Ok (Running AtWhile a) ∧
    BackwardAnalysis.step (Listing.editor Listing.skip) Counter.tick AtWhile a
    = Ok (Running AtWalk a1) ∧
    BackwardAnalysis.currentIns_ a1 = 4%Z ∧
    BackwardAnalysis.atExitOrMergePoint (Listing.editor Listing.skip) a1
    = Ok (Continue a2) ∧
    BackwardAnalysis.currentState_ a2 = Some 0.
Proof.
  destruct (BackwardAnalysis.doAnalyze (Listing.editor Listing.skip) Counter.tick 0 0
              Fresh.backward) as [[p a|a]|] eqn:Hrun; try by vm_compute in Hrun.
  assert (p = AtWhile) as -> by (vm_compute in Hrun; by injection Hrun as <- _).
  destruct (backward_pops_without_state (Listing.editor Listing.skip) Counter.tick 0
              Fresh.backward a 0 eq_refl Hrun) as (_ & _ & Hpop & _).
  assert (BackwardAnalysis.q_ a = [4%Z]) as Hq.
  { vm_compute in Hrun. by injection Hrun as <-. }
  destruct (Hpop 4%Z [] Hq eq_refl) as (a1 & a2 & Hstep & Hexit & Hcur).
  exists a, a1, a2. split; [reflexivity|]. split; [exact Hstep|].
  split; [|split; [exact Hexit|exact Hcur]].
  simpl in Hstep. rewrite Hq in Hstep. by injection Hstep as <-.
Defined.

Section backward_retrieval.
Context {Loc : Type} `{Countable Loc} {S : Type} `{!State.State S}.
Context (code_ : CodeEditor.t Loc).
Context (doDispatch : Loc → Dispatcher.body S).

Lemma backward_advance_keeps (a a' : BackwardAnalysis.t Loc S) :
  BackwardAnalysisIns.advance code_ doDispatch a = Ok a' →
  BackwardAnalysis.initialState_ a' = BackwardAnalysis.initialState_ a ∧
  is_Some (BackwardAnalysis.currentState_ a').
Proof.
  unfold BackwardAnalysisIns.advance. intros Hadv.
  apply res_bind_Ok in Hadv as (a1 & Hload & Hadv).
  assert (BackwardAnalysis.initialState_ a1 = BackwardAnalysis.initialState_ a) as Hini.
  { revert Hload. simpl. destruct (CodeEditor.isExitPoint code_ _).
    { destruct (BackwardAnalysis.initialState_ a) eqn:Hini; [|done]. by intros [= <-]. }
    destruct (BackwardAnalysis.isMergePoint code_ _); [|by intros [= <-]].
    destruct (mergePoints_at _ _) as [m [fp|]]; by intros [= <-]. }
  revert Hadv. unfold BackwardAnalysis.dispatch_current.
  destruct (BackwardAnalysis.currentState_ a1); [|done]. intros [= <-]. simpl.
  split; [done|by eexists].
Qed.

Lemma backward_seek_back_lands (fuel : nat) (ins : Loc) (a : BackwardAnalysis.t Loc S)
    (r : option (BackwardAnalysis.t Loc S + BackwardAnalysis.t Loc S)) :
  BackwardAnalysisIns.seek_back code_ doDispatch fuel ins a = Ok r →
  match r with
  | Some (inl a') =>
      BackwardAnalysis.currentIns_ a' = ins ∧ ins ≠ CodeEditor.rend code_ ∧
      BackwardAnalysis.initialState_ a' = BackwardAnalysis.initialState_ a ∧
      (is_Some (BackwardAnalysis.currentState_ a) →
       is_Some (BackwardAnalysis.currentState_ a'))
  | Some (inr a') => BackwardAnalysis.initialState_ a' = BackwardAnalysis.initialState_ a
  | None => True
  end.
Proof.
  revert a. induction fuel as [|fuel IH]; intros a; simpl.
  { by intros [= <-]. }
  case_decide as Hend; [by intros [= <-]|].
  case_decide as Hins; [intros [= <-]; by subst|].
  intros Hseek. apply res_bind_Ok in Hseek as (a1 & Hadv & Hseek).
  apply backward_advance_keeps in Hadv as [Hini Hcur]. apply IH in Hseek.
  destruct r as [[a'|a']|]; rewrite <-?Hini; [|done|done].
  destruct Hseek as (? & ? & ? & Hsome). split; [done|]. split; [done|].
  split; [done|]. intros _. by apply Hsome.
Qed.

(** X16. A query of the backward cache that returns has moved the cache to
    the instruction asked for and gives the cached state; it keeps the
    initial state; and a query for [rend()] never returns from a cache that
    is somewhere else: it runs into the final assertion or does not end. *)
Theorem backward_retrieval_lands (fuel : nat) (ins : Loc)
    (a a' : BackwardAnalysis.t Loc S) (s : S) :
  BackwardAnalysisIns.at_ code_ doDispatch fuel ins a = Ok (Some (a', s)) →
  BackwardAnalysis.currentIns_ a' = ins ∧
  BackwardAnalysis.currentState_ a' = Some s ∧
  BackwardAnalysis.initialState_ a' = BackwardAnalysis.initialState_ a ∧
  (ins ≠ BackwardAnalysis.currentIns_ a → ins ≠ CodeEditor.rend code_).
Proof.
  unfold BackwardAnalysisIns.at_. intros Hat.
  apply res_bind_Ok in Hat as ([a1|] & Hseek & Hat); [|done].
  destruct (BackwardAnalysis.currentState_ a1) as [cur|] eqn:Hcur; [|done].
  injection Hat as <- <-. case_decide as Hne.
  - unfold BackwardAnalysisIns.seek in Hseek.
    apply res_bind_Ok in Hseek as (r & Hback & Hseek).
    apply backward_seek_back_lands in Hback. destruct r as [[a2|a2]|]; [| |done].
    + injection Hseek as <-. by destruct Hback as (? & ? & ? & _).
    + apply res_bind_Ok in Hseek as (a3 & Hinit & Hseek).
      apply res_bind_Ok in Hseek as (r & Hover & Hseek).
      apply backward_seek_back_lands in Hover.
      assert (BackwardAnalysis.initialState_ a3 = BackwardAnalysis.initialState_ a2)
        as Hini.
      { unfold BackwardAnalysisIns.initializeCache, BackwardAnalysis.dispatch_current
          in Hinit.
        destruct (BackwardAnalysis.initialState_ a2) eqn:Hini2; [|done].
        simpl in Hinit. by injection Hinit as <-. }
      destruct r as [[a4|a4]|]; [|done|done]. injection Hseek as <-.
      destruct Hover as (? & ? & ? & _). split; [done|]. split; [done|].
      split; [congruence|done].
  - injection Hseek as <-. by subst.
Qed.

End backward_retrieval.

(** The backward cache over [Listing.skip] is at location [2]; the query for
    location [3] restarts from the last instruction and gives the state
    [2]. *)
Lemma backward_retrieval_lands_witness :
  ∃ a', BackwardAnalysisIns.at_ (Listing.editor Listing.skip) Counter.tick 8 3%Z
          (BackwardAnalysis.mk (Some 0) (Some 3) None 2%Z ∅ ∅ []) = Ok (Some (a', 2)) ∧
        BackwardAnalysis.currentIns_ a' = 3%Z.
Proof.
  destruct (BackwardAnalysisIns.at_ (Listing.editor Listing.skip) Counter.tick 8 3%Z
              (BackwardAnalysis.mk (Some 0) (Some 3) None 2%Z ∅ ∅ []))
    as [[[a' s]|]|] eqn:Hat; try by vm_compute in Hat.
  assert (s = 2) as ->.
  { vm_compute in Hat. by injection Hat as _ <-. }
  exists a'. split; [reflexivity|].
  apply (backward_retrieval_lands (Listing.editor Listing.skip) Counter.tick 8 3%Z
           _ a' 2 Hat).
Defined.

(** * Properties of [analyze] and of [isSafeBuiltin] *)

Section analysis_properties.
Context {Loc : Type} `{Countable Loc} {S : Type} `{!State.State S}.
Context (doDispatch : Loc → Dispatcher.body S) (initialState : S).

(** X17. What an analysis computed earlier does not influence a new
    [analyze]: two analysis objects whose queues agree, each either holding
    results of an earlier analysis or holding neither snapshot nor final
    state, give the same outcome on the same code, for any fuel that allows
    the first pop. An invalidated analysis is not [good], holds no state and
    no snapshot, and invalidating it again changes nothing. *)
Theorem analysis_rerun_independent (code : CodeEditor.t Loc) (n : nat)
    (x y : Analysis.t Loc S) :
  ForwardAnalysis.q_ (Analysis.driver x) = ForwardAnalysis.q_ (Analysis.driver y) →
  (Analysis.good x = true ∨
   ForwardAnalysis.mergePoints_ (Analysis.driver x) = ∅ ∧
   ForwardAnalysis.finalState_ (Analysis.driver x) = None) →
  (Analysis.good y = true ∨
   ForwardAnalysis.mergePoints_ (Analysis.driver y) = ∅ ∧
   ForwardAnalysis.finalState_ (Analysis.driver y) = None) →
  Analysis.analyze doDispatch initialState code (Datatypes.S n) x
  = Analysis.analyze doDispatch initialState code (Datatypes.S n) y ∧
  Analysis.good (Analysis.invalidate x) = false ∧
  Analysis.invalidate (Analysis.invalidate x) = Analysis.invalidate x ∧
  (∀ l, snapshot (ForwardAnalysis.mergePoints_
                    (Analysis.driver (Analysis.invalidate x))) l = None).
Proof.
  intros Hq Hx Hy. split; [|done].
  assert (∀ z : Analysis.t Loc S,
            (Analysis.good z = true ∨
             ForwardAnalysis.mergePoints_ (Analysis.driver z) = ∅ ∧
             ForwardAnalysis.finalState_ (Analysis.driver z) = None) →
            Analysis.analyze doDispatch initialState code (Datatypes.S n) z
            = (o ← ForwardAnalysis.steps code doDispatch n AtWalk
                     (ForwardAnalysis.mk (Some initialState)
                        (Some (State.clone initialState)) None
                        (CodeEditor.begin_ code) ∅
                        (ForwardAnalysis.q_ (Analysis.driver z)));
               match o with
               | Running p a => Ok (Running p (Analysis.mk (Some code) a))
               | Finished a => Ok (Finished (Analysis.mk (Some code) a))
               end)) as Hanalyze.
  { intros [c [ini cur fin ins mp q]] Hz.
    unfold Analysis.analyze, ForwardAnalysis.doAnalyze, ForwardAnalysis.doAnalyze_enter.
    unfold Analysis.good in *. simpl in *.
    destruct c as [c|]; simpl; [done|].
    destruct Hz as [?|[-> ->]]; done. }
  by rewrite (Hanalyze x Hx), (Hanalyze y Hy), Hq.
Qed.

End analysis_properties.

(** An analysis that has finished with [Listing.branch] analyses
    [Listing.line] as a fresh one does. *)
Lemma analysis_rerun_independent_witness :
  Analysis.analyze Counter.tick 0 (Listing.editor Listing.line) 6
    (Analysis.mk (Some (Listing.editor Listing.branch))
       (ForwardAnalysis.mk (Some 0) None (Some 3) 3%Z {[ 2%Z := Some 1 ]} []))
  = Analysis.analyze Counter.tick 0 (Listing.editor Listing.line) 6
      (Analysis.mk None Fresh.forward).
Proof.
  apply (analysis_rerun_independent Counter.tick 0 (Listing.editor Listing.line) 5
           (Analysis.mk (Some (Listing.editor Listing.branch))
              (ForwardAnalysis.mk (Some 0) None (Some 3) 3%Z {[ 2%Z := Some 1 ]} []))
           (Analysis.mk None Fresh.forward)).
  - reflexivity.
  - left. reflexivity.
  - right. split; reflexivity.
Defined.

Lemma isSafeBuiltin_listed (i : Z) :
  match i with
  | 62%Z | 88%Z | 91%Z | 107%Z | 397%Z | 555%Z => true
  | _ => false
  end = true →
  (62 ≤ i ≤ 555)%Z ∧ ¬ (362 ≤ i ≤ 396)%Z.
Proof.
  destruct i as [|p|p]; try done.
  repeat (destruct p as [p|p|]; try done); intros _; lia.
Qed.

(** The builtins taken as safe have numbers between 62 and 555, the
    numbers 376 to 378 and 390 to 396 are not among them, no negative number
    is, and there are 31 of them. *)
Theorem isSafeBuiltin_range (i : Z) :
  (isSafeBuiltin i = true → (62 ≤ i ≤ 555)%Z) ∧
  ((376 ≤ i ≤ 378)%Z ∨ (390 ≤ i ≤ 396)%Z → isSafeBuiltin i = false) ∧
  length (filter (λ k, isSafeBuiltin k = true) (seqZ 0 600)) = 31.
Proof.
  split; [|split].
  - unfold isSafeBuiltin.
    destruct (362 <=? i)%Z eqn:H1, (i <? 376)%Z eqn:H2, (379 <=? i)%Z eqn:H3,
      (i <=? 389)%Z eqn:H4; simpl; try (intros _; lia);
      intros Hl; by apply isSafeBuiltin_listed in Hl as [? _].
  - intros Hgap. apply not_true_iff_false. unfold isSafeBuiltin.
    destruct (362 <=? i)%Z eqn:H1, (i <? 376)%Z eqn:H2, (379 <=? i)%Z eqn:H3,
      (i <=? 389)%Z eqn:H4; simpl; try lia;
      intros Hl; apply isSafeBuiltin_listed in Hl as [_ Hl]; lia.
  - by vm_compute.
Qed.

Lemma isSafeBuiltin_range_witness :
  (62 ≤ 397 ≤ 555)%Z ∧ isSafeBuiltin 377 = false.
Proof.
  split.
  - apply (proj1 (isSafeBuiltin_range 397)). reflexivity.
  - apply (proj1 (proj2 (isSafeBuiltin_range 377))). left. lia.
Defined.

(** * The backward driver on straight-line code *)

Section backward_line.
Context {Loc : Type} `{Countable Loc} {S : Type} `{!State.State S}.
Context (code_ : CodeEditor.t Loc).
Context (doDispatch : Loc → Dispatcher.body S) (initialState : S).
Import Shapes.

Lemma backward_steps_add (n m : nat) (p : pc) (a : BackwardAnalysis.t Loc S) :
  BackwardAnalysis.steps code_ doDispatch (n + m) p a
  = BackwardAnalysis.steps code_ doDispatch n p a ≫= λ o,
      match o with
      | Running p' a' => BackwardAnalysis.steps code_ doDispatch m p' a'
      | Finished a' => Ok (Finished a')
      end.
Proof.
  revert p a. induction n as [|n IH]; intros p a; simpl; [done|].
  destruct (BackwardAnalysis.step code_ doDispatch p a) as [[p1 a1|a1]|]; simpl;
    [apply IH|done|done].
Qed.

(** The rest of a turn of the walk, after the code for exit points and
    merge points has left the state [s]: at the entry point the branch ends
    with the dispatched state as final state, elsewhere, if there is no
    label, the walk goes on at the instruction before. *)
Lemma backward_walk_turn (a a1 : BackwardAnalysis.t Loc S) (s : S) :
  BackwardAnalysis.atExitOrMergePoint code_ a = Ok (Continue a1) →
  BackwardAnalysis.currentState_ a1 = Some s →
  BackwardAnalysis.currentIns_ a1 = BackwardAnalysis.currentIns_ a →
  BackwardAnalysis.finalState_ a1 = None →
  CodeEditor.isEntryPoint code_ (BackwardAnalysis.currentIns_ a) = true ∨
  CodeEditor.isLabel code_ (BackwardAnalysis.currentIns_ a) = false →
  let s' := Dispatcher.effect doDispatch (BackwardAnalysis.currentIns_ a) s in
  BackwardAnalysis.walk code_ doDispatch a
  = if CodeEditor.isEntryPoint code_ (BackwardAnalysis.currentIns_ a)
    then Ok (Break
               (BackwardAnalysis.mk (BackwardAnalysis.initialState_ a1) None (Some s')
                  (BackwardAnalysis.currentIns_ a) (BackwardAnalysis.mergePoints_ a1)
                  (BackwardAnalysis.jumpOrigins_ a1) (BackwardAnalysis.q_ a1)))
    else Ok (Continue
               (BackwardAnalysis.mk (BackwardAnalysis.initialState_ a1) (Some s') None
                  (CodeEditor.decr code_ (BackwardAnalysis.currentIns_ a))
                  (BackwardAnalysis.mergePoints_ a1)
                  (BackwardAnalysis.jumpOrigins_ a1) (BackwardAnalysis.q_ a1))).
Proof.
  intros Hfirst Hcur Hins Hfinal Hshape. simpl.
  unfold BackwardAnalysis.walk. rewrite Hfirst. simpl.
  unfold BackwardAnalysis.dispatch_current. rewrite Hcur. simpl.
  unfold BackwardAnalysis.afterDispatch, BackwardAnalysis.atLabel. simpl.
  rewrite Hins, Hfinal.
  destruct (CodeEditor.isEntryPoint code_ _) eqn:Hentry.
  { simpl. unfold BackwardAnalysis.set_currentState, BackwardAnalysis.set_finalState.
    simpl. by rewrite Hins. }
  destruct Hshape as [?|Hlabel]; [done|]. rewrite Hlabel. simpl.
  unfold BackwardAnalysis.set_currentIns, BackwardAnalysis.set_currentState.
  simpl. by rewrite Hins, Hfinal.
Qed.

Lemma backward_walk_rest (before : list Loc) (entry : Loc)
    (a : BackwardAnalysis.t Loc S) (s : S) :
  follows_back code_ (BackwardAnalysis.currentIns_ a) (before ++ [entry]) →
  (∀ l, l ∈ before ++ [entry] →
        CodeEditor.isExitPoint code_ l = false ∧ CodeEditor.isJmp code_ l = false) →
  (∀ l, l ∈ before →
        CodeEditor.isEntryPoint code_ l = false ∧ CodeEditor.isLabel code_ l = false) →
  CodeEditor.isEntryPoint code_ entry = true →
  BackwardAnalysis.currentState_ a = Some s →
  BackwardAnalysis.finalState_ a = None →
  BackwardAnalysis.steps code_ doDispatch (length before + 1) AtWalk a
  = Ok (Running AtWhile
          (BackwardAnalysis.mk (BackwardAnalysis.initialState_ a) None
             (Some (replay doDispatch (before ++ [entry]) s)) entry
             (BackwardAnalysis.mergePoints_ a) (BackwardAnalysis.jumpOrigins_ a)
             (BackwardAnalysis.q_ a))).
Proof.
  assert (∀ a : BackwardAnalysis.t Loc S,
            CodeEditor.isExitPoint code_ (BackwardAnalysis.currentIns_ a) = false →
            CodeEditor.isJmp code_ (BackwardAnalysis.currentIns_ a) = false →
            BackwardAnalysis.atExitOrMergePoint code_ a = Ok (Continue a)) as Hfirst.
  { intros b Hexit Hjmp.
    unfold BackwardAnalysis.atExitOrMergePoint, BackwardAnalysis.isMergePoint.
    by rewrite Hexit, Hjmp. }
  revert a s. induction before as [|l before IH];
    intros a s Hfollows Hplain Hinner Hentry Hcur Hfinal.
  - destruct Hfollows as [-> _]. simpl.
    destruct (Hplain (BackwardAnalysis.currentIns_ a)) as [Hexit Hjmp]; [by left|].
    rewrite (backward_walk_turn a a s); try done; [|by apply Hfirst|by left].
    by rewrite Hentry.
  - destruct Hfollows as [-> Hfollows]. simpl.
    destruct (Hplain (BackwardAnalysis.currentIns_ a)) as [Hexit Hjmp]; [by left|].
    destruct (Hinner (BackwardAnalysis.currentIns_ a)) as [Hnoentry Hlabel]; [by left|].
    rewrite (backward_walk_turn a a s); try done; [|by apply Hfirst|by right].
    rewrite Hnoentry. simpl.
    rewrite IH with (s := Dispatcher.effect doDispatch (BackwardAnalysis.currentIns_ a) s);
      try done.
    + intros l Hl. apply Hplain. by right.
    + intros l Hl. apply Hinner. by right.
Qed.

(** X18. Straight-line code, backwards: when the code has one exit point,
    and the instructions from it back to the entry point are neither jumps
    nor labels, the backward analysis of a fresh driver ends after one step
    per instruction and two more, with the queue empty, no current state, no
    snapshot taken, and as final state the initial state's clone after the
    dispatch of these instructions from the exit point back to the entry
    point. More fuel changes nothing. *)
Theorem backward_straight_line (exit_ entry : Loc) (rest before : list Loc)
    (a0 : BackwardAnalysis.t Loc S) (fuel : nat) :
  exit_ :: rest = before ++ [entry] →
  follows_back code_ exit_ (exit_ :: rest) →
  filter (λ l, CodeEditor.isExitPoint code_ l = true) (CodeEditor.range code_)
  = [exit_] →
  (∀ l, l ∈ rest →
        CodeEditor.isExitPoint code_ l = false ∧ CodeEditor.isJmp code_ l = false) →
  (∀ l, l ∈ before →
        CodeEditor.isEntryPoint code_ l = false ∧ CodeEditor.isLabel code_ l = false) →
  CodeEditor.isEntryPoint code_ entry = true →
  BackwardAnalysis.q_ a0 = [] →
  BackwardAnalysis.currentState_ a0 = None →
  BackwardAnalysis.finalState_ a0 = None →
  length rest + 3 ≤ fuel →
  ∃ a,
    BackwardAnalysis.doAnalyze code_ doDispatch initialState fuel a0 = Ok (Finished a) ∧
    BackwardAnalysis.finalState_ a
    = Some (replay doDispatch (exit_ :: rest) (State.clone initialState)) ∧
    BackwardAnalysis.currentState_ a = None ∧
    BackwardAnalysis.q_ a = [] ∧
    BackwardAnalysis.mergePoints_ a = BackwardAnalysis.mergePoints_ a0 ∧
    BackwardAnalysis.initialState_ a = Some initialState.
Proof.
  intros Hsplit Hfollows Hexits Hrest Hbefore Hentry Hq Hcur Hfinal Hfuel.
  assert (CodeEditor.isExitPoint code_ exit_ = true) as Hexit.
  { assert (exit_ ∈ filter (λ l, CodeEditor.isExitPoint code_ l = true)
                     (CodeEditor.range code_)) as Hin by (rewrite Hexits; by left).
    by apply list_elem_of_filter in Hin as [? _]. }
  unfold BackwardAnalysis.doAnalyze.
  destruct (backward_collect_spec code_ (CodeEditor.range code_) a0)
    as (Hq1 & _ & Hini1 & Hcur1 & Hfin1 & Hmp1).
  simpl in *. rewrite Hexits, Hq in Hq1. simpl in Hq1.
  set (a1 := BackwardAnalysis.doAnalyze_enter code_ initialState a0).
  assert (BackwardAnalysis.q_ a1 = [exit_] ∧
          BackwardAnalysis.currentState_ a1 = None ∧
          BackwardAnalysis.finalState_ a1 = None ∧
          BackwardAnalysis.initialState_ a1 = Some initialState ∧
          BackwardAnalysis.mergePoints_ a1 = BackwardAnalysis.mergePoints_ a0)
    as (Hq2 & Hcur2 & Hfin2 & Hini2 & Hmp2).
  { subst a1. unfold BackwardAnalysis.doAnalyze_enter. simpl.
    rewrite Hq1, Hcur1, Hfin1, Hmp1. done. }
  clearbody a1. clear Hq1 Hini1 Hcur1 Hfin1 Hmp1.
  replace fuel with (1 + ((length rest + 1) + (1 + (fuel - (length rest + 3))))) by lia.
  rewrite backward_steps_add. simpl. rewrite Hq2. simpl.
  set (a2 := BackwardAnalysis.set_q [] (BackwardAnalysis.set_currentIns exit_ a1)).
  assert (BackwardAnalysis.atExitOrMergePoint code_ a2
          = Ok (Continue
                  (BackwardAnalysis.set_currentState
                     (Some (State.clone initialState)) a2))) as Hfirst.
  { unfold BackwardAnalysis.atExitOrMergePoint. subst a2. simpl.
    by rewrite Hexit, Hcur2, Hini2. }
  rewrite backward_steps_add.
  destruct before as [|b before].
  - injection Hsplit as -> ->. simpl.
    rewrite (backward_walk_turn a2 _ (State.clone initialState) Hfirst);
      try done; [|by left].
    subst a2. simpl. rewrite Hentry. simpl.
    destruct (fuel - 3); simpl; eexists; (split; [reflexivity|]); simpl;
      by rewrite ?Hini2, ?Hmp2.
  - injection Hsplit as <- ->.
    destruct (Hbefore exit_) as [Hnoentry Hlabel]; [by left|].
    destruct Hfollows as [_ Hfollows].
    replace (length (before ++ [entry]) + 1) with (1 + (length before + 1))
      by (rewrite length_app; simpl; lia).
    rewrite backward_steps_add. simpl.
    rewrite (backward_walk_turn a2 _ (State.clone initialState) Hfirst);
      try done; [|by right].
    subst a2. simpl. rewrite Hnoentry. simpl.
    rewrite backward_walk_rest
      with (before := before) (entry := entry)
           (s := Dispatcher.effect doDispatch exit_ (State.clone initialState));
      try done.
    + simpl.
      destruct (fuel - (length (before ++ [entry]) + 3)); simpl; eexists;
        (split; [reflexivity|]); simpl; by rewrite ?Hini2, ?Hmp2.
    + intros l Hl. apply Hbefore. by right.
Qed.

End backward_line.

(** The backward analysis of [Listing.line] by a fresh driver that counts
    the dispatches. *)
Lemma backward_straight_line_witness :
  ∃ a, BackwardAnalysis.doAnalyze (Listing.editor Listing.line) Counter.tick 0 6
         Fresh.backward = Ok (Finished a) ∧
       BackwardAnalysis.finalState_ a = Some 3.
Proof.
  destruct (backward_straight_line (Listing.editor Listing.line) Counter.tick 0
              2%Z 0%Z [1%Z; 0%Z] [2%Z; 1%Z] Fresh.backward 6)
    as (a & Hrun & Hfinal & _).
  - done.
  - done.
  - reflexivity.
  - intros l Hl. repeat (apply elem_of_cons in Hl as [->|Hl]; [done|]).
    by apply elem_of_nil in Hl.
  - intros l Hl. repeat (apply elem_of_cons in Hl as [->|Hl]; [done|]).
    by apply elem_of_nil in Hl.
  - reflexivity.
  - reflexivity.
  - reflexivity.
  - reflexivity.
  - simpl. lia.
  - exists a. split; [exact Hrun|]. etrans; [exact Hfinal|]. reflexivity.
Defined.

(** * Properties of the console and of the test harness *)

(** X19. The colour codes: writing a colour to a stream is setting it as
    foreground, which never fails an assertion; setting a colour as
    background fails the assertion exactly for the eight intense colours;
    and two different colours never give the same foreground code. *)
Theorem console_color_codes :
  (∀ c, Console.put_color c = Console.fg c ∧ ∃ text, Console.fg c = Ok text) ∧
  (∀ c, Console.bg c = Fault ↔
        c ∈ [Console.darkGray; Console.red; Console.green; Console.yellow;
             Console.blue; Console.magenta; Console.cyan; Console.white]) ∧
  (∀ c1 c2, Console.fg c1 = Console.fg c2 → c1 = c2).
Proof.
  split; [|split].
  - intros c. split; [done|]. destruct c; eexists; vm_compute; reflexivity.
  - intros c. rewrite !elem_of_cons, elem_of_nil.
    destruct c; split; intros Hc;
      first [by vm_compute in Hc | by vm_compute | by intuition auto].
  - intros c1 c2. destruct c1, c2; try done; vm_compute; intros Heq; discriminate.
Qed.

(** The loop of [RunAll] never fails, and counts the tests that return. *)
Lemma RunAll_loop_counts (tests : list Tests.Test) (out : string) (n : N) :
  (n < 2 ^ 32)%N →
  ∃ out', foldl Tests.run_one (Ok (out, n)) tests
          = Ok (out',
                ((n + N.of_nat (length (filter (λ t, Tests.execute t = None) tests)))
                   mod 2 ^ 32)%N).
Proof.
  revert out n. induction tests as [|t tests IH]; intros out n Hn.
  - exists out. simpl. by rewrite N.add_0_r, N.mod_small.
  - simpl foldl. rewrite filter_cons.
    destruct (Tests.execute t) as [e|] eqn:He.
    + rewrite decide_False by done. apply IH, Hn.
    + rewrite decide_True by done.
      match goal with
      | |- ∃ _, foldl _ (Ok (?o, ?m)) _ = _ =>
          destruct (IH o m) as [out' Hout']
      end.
      { unfold Console.unsigned_add. by apply N.mod_lt. }
      exists out'. rewrite Hout'. do 2 f_equal.
      unfold Console.unsigned_add.
      rewrite N.Div0.add_mod_idemp_l. f_equal. simpl length. lia.
Qed.

(** X20. [RunAll] on fewer than [2^32] registered tests: the run never
    fails, and it returns [EXIT_SUCCESS] exactly when the [execute()] of
    every registered test returns without throwing, [EXIT_FAILURE]
    otherwise. *)
Theorem RunAll_exit_code (tests : list Tests.Test) :
  (N.of_nat (length tests) < 2 ^ 32)%N →
  ∃ out, Tests.RunAll tests
         = Ok (out, if decide (Forall (λ t, Tests.execute t = None) tests)
                    then Tests.EXIT_SUCCESS else Tests.EXIT_FAILURE).
Proof.
  intros Hlen. unfold Tests.RunAll.
  destruct (RunAll_loop_counts tests ("I RUN TESTZ NOW, OK?" +:+ Tests.endl) 0)
    as [out Hout]; [done|].
  rewrite Hout. simpl.
  set (passed := filter (λ t, Tests.execute t = None) tests).
  assert (length passed ≤ length tests) as Hle by apply length_filter.
  rewrite N.add_0_l, N.mod_small by lia.
  destruct (decide (Forall (λ t, Tests.execute t = None) tests)) as [Hall|Hsome].
  - rewrite decide_False; [by eexists|].
    intros Hne. apply Hne. f_equal. f_equal.
    subst passed. clear -Hall. induction Hall as [|t l Ht Hl IH]; [done|].
    rewrite filter_cons, decide_True by done. simpl. by rewrite IH.
  - rewrite decide_True; [by eexists|].
    intros Heq. apply Hsome. apply Nat2N.inj in Heq.
    subst passed. clear -Heq. induction tests as [|t l IH]; [done|].
    rewrite filter_cons in Heq. destruct (decide (Tests.execute t = None)) as [Ht|Ht].
    + simpl in Heq. constructor; [done|]. apply IH. lia.
    + pose proof (length_filter (λ t, Tests.execute t = None) l). simpl in Heq. lia.
Qed.

Lemma RunAll_exit_code_witness :
  ∃ out, Tests.RunAll
           [Tests.mk "stack" "push" None;
            Tests.mk "stack" "merge"
              (Some (Tests.TestError "dispatchers.cpp" 12 "Assertion failed."))]
         = Ok (out, Tests.EXIT_FAILURE).
Proof.
  destruct (RunAll_exit_code
              [Tests.mk "stack" "push" None;
               Tests.mk "stack" "merge"
                 (Some (Tests.TestError "dispatchers.cpp" 12 "Assertion failed."))])
    as [out Hout]; [by vm_compute|].
  exists out. rewrite Hout. f_equal.
Defined.
